(** * boone: the scheduling engine, embedded and verified

    A shallow embedding of the parts of boone that turn filesystem events
    into serialized, cancel-aware target runs:

    - [internal/boone/boone.go], [target.go]: the data model;
    - [internal/boone/dispatch.go]: [Dispatcher.runTarget], [Dispatcher.Stop]
      and the queue replacement loop of [Dispatcher.Start];
    - [internal/third_party/github.com/sync/slice.go]: the locked slice;
    - [internal/boone/watch.go]: [Watcher.Event];
    - [internal/boone/file.go]: [GetTargetGlob];
    - [internal/boone/config.go]: [FinalizeConfig];
    - [internal/cage/encoding/gob/gob.go]: [EncodeToFile];
    - [cmd/boone/root]: the session resume loop of [Handler.Run].

    Go strings are [string], slices are [list], Go maps and [sync.Map] are
    stdpp [gmap]s, [error] values are their messages ([option string], [None]
    for nil).  Everything the code asks of the operating system (the clock,
    the process executor, [os.Stat], the glob library) enters as a Section
    variable, so that every theorem holds for all behaviours of that
    environment. *)

From Stdlib Require Import ZArith Ascii.
From stdpp Require Import gmap strings list fin_maps.

Local Open Scope string_scope.
Local Open Scope list_scope.

(** ** Data model ([boone.go], [target.go], [watcher.go]) *)

(** [cage_filepath.Glob]. *)
Record Glob := mkGlob { Pattern : string; Root : string }.

#[global] Instance Glob_eq_dec : EqDecision Glob.
Proof. solve_decision. Defined.

(** [watcher.Op] is a [uint8] holding one of four bit flags, [1 << iota]. *)
Definition Op := N.
Definition Create : Op := 1%N.
Definition Rename : Op := 2%N.
Definition Remove : Op := 4%N.
Definition Write : Op := 8%N.

Definition Op_String (o : Op) : string :=
  if decide (o = Create) then "Create"
  else if decide (o = Rename) then "Rename"
  else if decide (o = Remove) then "Remove"
  else "Write".

(** [watcher.Event]. *)
Record Event := mkEvent { Event_Path : string; Event_Op : Op }.

(** [TargetStatus] is a string type; these are its constants. *)
Definition TargetStatus := string.
Definition TargetCanceled : TargetStatus := "canceled".
Definition TargetFailed : TargetStatus := "failed".
Definition TargetPending : TargetStatus := "pending".
Definition TargetResumed : TargetStatus := "resumed".
Definition TargetStarted : TargetStatus := "started".

(** [Exec]; durations are nanosecond counts as in [time.Duration]. *)
Record Exec := mkExec {
  Exec_Cmd : string;
  Exec_Dir : string;
  Exec_Timeout : string;
  Exec_Env : list string;
  Exec_timeout : Z
}.

Record Handler := mkHandler {
  Handler_Label : string;
  Handler_Exec : list Exec
}.

Record TargetTree := mkTargetTree {
  Tree_Id : string;
  Tree_Label : string;
  Tree_Handler : list Handler
}.

(** [Status].  The three clock readings ([StartTime], [EndTime], [RunLen])
    take no part in any decision of the code and are left out. *)
Record Status := mkStatus {
  Status_Cause : TargetStatus;
  Status_Cmd : string;
  Status_Downstream : list string;
  Status_Err : string;
  Status_HandlerLabel : string;
  Status_Include : Glob;
  Status_Op : string;
  Status_Path : string;
  Status_Pid : list Z;
  Status_Stderr : string;
  Status_Stdout : string;
  Status_TargetId : string;
  Status_TargetLabel : string;
  Status_UpstreamTargetLabel : string
}.

Record TargetPass := mkTargetPass { Pass_TargetId : string }.
Record TreePass := mkTreePass { DispatchTargetId : string }.

Record Session := mkSession { Statuses : list Status; Version : Z }.

Record CmdTemplateData := mkCmdTemplateData {
  Tmpl_Dir : string;
  Tmpl_HandlerLabel : string;
  Tmpl_IncludeGlob : string;
  Tmpl_IncludeRoot : string;
  Tmpl_Path : string;
  Tmpl_TargetLabel : string
}.

(** [ExecRequest]; [RecvTime] is a clock reading and is left out. *)
Record ExecRequest := mkExecRequest {
  Req_Cause : string;
  Req_Debounce : Z;
  Req_Event : Event;
  Req_Include : Glob;
  Req_Tree : list TargetTree;
  Req_TargetId : string;
  Req_TargetLabel : string
}.

(** ** [Dispatcher.runTarget] ([dispatch.go]) *)

(** What one call of [Executor.Buffered] hands back, together with the
    state of the per-command context read right after it ([cmdCtx.Err()]). *)
Record ExecOutcome := mkExecOutcome {
  out_stdout : string;
  out_stderr : string;
  out_pids : list Z;
  out_err : option string;
  out_ctxErr : option string
}.

(** Everything [runTarget] does that the rest of the program can observe,
    in order: the non-blocking sends on the status channels (recorded as
    offered, whether or not a receiver takes them), the stores into
    [targetCtx] and their deferred deletes, the send of a recovered panic
    value, and the "handler command finished" log record (with the error it
    logs).  The sleep between two execs and the other log records leave no
    trace here. *)
Inductive Emit :=
| TargetStartCh (s : Status)
| TargetFailCh (s : Status)
| TargetPassCh (p : TargetPass)
| TreePassCh (p : TreePass)
| PanicCh (msg : string)
| LogFinished (target handler cmd : string) (err : option string)
| CtxStore (id : string)
| CtxDelete (id : string).

(** How a loop body leaves: falls through to the next iteration (with the
    number of executor calls made so far), or unwinds the whole function by
    [return] or by [panic]. *)
Inductive Flow :=
| Next (calls : nat)
| Return
| Panicked (msg : string).

(** What [runTarget] calls outside of [dispatch.go], for calls that
    return. *)
Class ExecEnv := {
  (** [cage_template.ExecuteBuffered]: [None] is an expansion error. *)
  ExecuteBuffered : string -> CmdTemplateData -> option string;
  (** What a call of [cage_shell.Parse] returns: one argument list per
      pipeline stage, [None] for its error.  The function itself is
      [Shell.Parse] below, which does not return on every command;
      [Calls.returning] says of a request that it returns on every command
      of the tree, with these results. *)
  Parse : string -> option (list (list string));
  (** [filepath.Dir]. *)
  filepath_Dir : string -> string;
  (** [Executor.Buffered], by the number of calls made before this one. *)
  Buffered : nat -> list (list string) -> ExecOutcome
}.

Module Dispatch.
Section RunTarget.
Context `{ExecEnv}.

(** [err] after [if ctxErr != nil { err = ctxErr }]. *)
Definition final_err (o : ExecOutcome) : option string :=
  match out_ctxErr o with
  | Some c => Some c
  | None => out_err o
  end.

(** Labels of all tree members but the first. *)
Definition downLabels (tree : list TargetTree) : list string :=
  map Tree_Label (tail tree).

Definition failCause (o : ExecOutcome) : TargetStatus :=
  match out_ctxErr o with
  | Some _ => TargetCanceled
  | None => TargetFailed
  end.

Definition failStatus (req : ExecRequest) (t : TargetTree) (h : Handler)
    (cmdExpanded : string) (o : ExecOutcome) (msg : string) : Status :=
  {| Status_Cause := failCause o;
     Status_Cmd := cmdExpanded;
     Status_Downstream := downLabels (Req_Tree req);
     Status_Err := msg;
     Status_HandlerLabel := Handler_Label h;
     Status_Include := Req_Include req;
     Status_Op := Op_String (Event_Op (Req_Event req));
     Status_Path := "";
     Status_Pid := out_pids o;
     Status_Stderr := out_stderr o;
     Status_Stdout := out_stdout o;
     Status_TargetId := Tree_Id t;
     Status_TargetLabel := Tree_Label t;
     Status_UpstreamTargetLabel := Req_TargetLabel req |}.

Definition startStatus (req : ExecRequest) (t : TargetTree) (h : Handler) : Status :=
  {| Status_Cause := TargetStarted;
     Status_Cmd := "";
     Status_Downstream := [];
     Status_Err := "";
     Status_HandlerLabel := Handler_Label h;
     Status_Include := mkGlob "" "";
     Status_Op := "";
     Status_Path := Event_Path (Req_Event req);
     Status_Pid := [];
     Status_Stderr := "";
     Status_Stdout := "";
     Status_TargetId := Tree_Id t;
     Status_TargetLabel := Tree_Label t;
     Status_UpstreamTargetLabel := "" |}.

(** The body of the innermost loop, for one [Exec]. *)
Definition runExec (req : ExecRequest) (t : TargetTree) (h : Handler)
    (e : Exec) (calls : nat) : list Emit * Flow :=
  let tmplData :=
    {| Tmpl_Dir := filepath_Dir (Event_Path (Req_Event req));
       Tmpl_HandlerLabel := Handler_Label h;
       Tmpl_IncludeGlob := Pattern (Req_Include req);
       Tmpl_IncludeRoot := Root (Req_Include req);
       Tmpl_Path := Event_Path (Req_Event req);
       Tmpl_TargetLabel := Tree_Label t |} in
  match ExecuteBuffered (Exec_Cmd e) tmplData with
  | None => ([], Panicked "failed to expand target command")
  | Some cmdExpanded =>
    match Parse cmdExpanded with
    | None => ([], Panicked "failed to parse target command")
    | Some cmdParsed =>
      let o := Buffered calls cmdParsed in
      let err := final_err o in
      let seen :=
        [TargetStartCh (startStatus req t h);
         LogFinished (Tree_Label t) (Handler_Label h) cmdExpanded err] in
      match err with
      | Some msg =>
          (seen ++ [TargetFailCh (failStatus req t h cmdExpanded o msg)], Return)
      | None => (seen, Next (S calls))
      end
    end
  end.

(** [for _, e := range handler.Exec]. *)
Fixpoint runExecs (req : ExecRequest) (t : TargetTree) (h : Handler)
    (es : list Exec) (calls : nat) : list Emit * Flow :=
  match es with
  | [] => ([], Next calls)
  | e :: es' =>
    match runExec req t h e calls with
    | (tr, Next calls') =>
        let '(tr', fl) := runExecs req t h es' calls' in (tr ++ tr', fl)
    | r => r
    end
  end.

(** [for _, handler := range t.Handler]. *)
Fixpoint runHandlers (req : ExecRequest) (t : TargetTree)
    (hs : list Handler) (calls : nat) : list Emit * Flow :=
  match hs with
  | [] => ([], Next calls)
  | h :: hs' =>
    match runExecs req t h (Handler_Exec h) calls with
    | (tr, Next calls') =>
        let '(tr', fl) := runHandlers req t hs' calls' in (tr ++ tr', fl)
    | r => r
    end
  end.

(** [for _, t := range req.Tree]: each target is entered with the store of
    the tree's context under its id and closed by its [TargetPass]. *)
Fixpoint runTree (req : ExecRequest) (ts : list TargetTree)
    (calls : nat) : list Emit * Flow :=
  match ts with
  | [] => ([], Next calls)
  | t :: ts' =>
    match runHandlers req t (Tree_Handler t) calls with
    | (tr, Next calls') =>
        let '(tr', fl) := runTree req ts' calls' in
        (CtxStore (Tree_Id t) :: tr ++ TargetPassCh (mkTargetPass (Tree_Id t)) :: tr', fl)
    | (tr, fl) => (CtxStore (Tree_Id t) :: tr, fl)
    end
  end.

(** The ids a trace stores into [targetCtx], in order. *)
Definition stores (tr : list Emit) : list string :=
  omap (fun e => match e with CtxStore id => Some id | _ => None end) tr.

(** The deferred [d.targetCtx.Delete(t.Id)] calls, last deferred first. *)
Definition deletes (tr : list Emit) : list Emit :=
  map CtxDelete (reverse (stores tr)).

(** [runTarget]: the tree loop, then the [TreePass]; on every way out the
    deferred deletes run, and after them the deferred [recover], which
    offers the value of a panic on [panicCh]. *)
Definition runTarget (req : ExecRequest) : list Emit :=
  match runTree req (Req_Tree req) 0 with
  | (tr, Next _) => tr ++ [TreePassCh (mkTreePass (Req_TargetId req))] ++ deletes tr
  | (tr, Return) => tr ++ deletes tr
  | (tr, Panicked msg) => tr ++ deletes tr ++ [PanicCh msg]
  end.

(** Reading a trace. *)
Definition is_fail (e : Emit) : bool :=
  match e with TargetFailCh _ => true | _ => false end.

Definition is_start (e : Emit) : bool :=
  match e with TargetStartCh _ => true | _ => false end.

Definition is_treepass (e : Emit) : bool :=
  match e with TreePassCh _ => true | _ => false end.

(** An executor call that finished with a non-nil error. *)
Definition is_error_finish (e : Emit) : bool :=
  match e with LogFinished _ _ _ (Some _) => true | _ => false end.

(** The ids of the targets a trace reports as passed, in order. *)
Definition passes (tr : list Emit) : list string :=
  omap (fun e => match e with
                 | TargetPassCh p => Some (Pass_TargetId p)
                 | _ => None
                 end) tr.

(** No failure status, no failed executor call and no tree pass. *)
Definition calm (tr : list Emit) : Prop :=
  Forall (fun e => is_fail e = false /\ is_error_finish e = false
                   /\ is_treepass e = false) tr.

(** A trace that ends in the failure of one exec of target [t]: a failed
    executor call, then its status, after a calm prefix that reports the
    targets [passed] and stores the ids [stored]. *)
Definition stopped (t : TargetTree) (passed stored : list string)
    (tr : list Emit) : Prop :=
  exists pre label handler cmd msg st,
    tr = pre ++ [LogFinished label handler cmd (Some msg); TargetFailCh st]
    /\ calm pre /\ passes pre = passed /\ stores pre = stored
    /\ Status_TargetId st = Tree_Id t
    /\ (Status_Cause st = TargetFailed \/ Status_Cause st = TargetCanceled).

(** A trace within one target: no pass, no store. *)
Definition inner (tr : list Emit) : Prop :=
  calm tr /\ passes tr = [] /\ stores tr = [].

Definition quiet_or_stopped (t : TargetTree) (r : list Emit * Flow) : Prop :=
  match r with
  | (tr, Return) => stopped t [] [] tr
  | (tr, _) => inner tr
  end.

(** The template data of an exec of handler [h] of target [t]. *)
Definition tmplData (req : ExecRequest) (t : TargetTree) (h : Handler)
    : CmdTemplateData :=
  {| Tmpl_Dir := filepath_Dir (Event_Path (Req_Event req));
     Tmpl_HandlerLabel := Handler_Label h;
     Tmpl_IncludeGlob := Pattern (Req_Include req);
     Tmpl_IncludeRoot := Root (Req_Include req);
     Tmpl_Path := Event_Path (Req_Event req);
     Tmpl_TargetLabel := Tree_Label t |}.

(** The number of start statuses in a trace: one per executor call. *)
Definition started (tr : list Emit) : nat := length (List.filter is_start tr).

(** The next thing a trace shows is no failure status. *)
Definition no_fail_next (tr : list Emit) : Prop :=
  forall st, head tr <> Some (TargetFailCh st).

(** What follows the start status of an exec, by the outcome [o] of its
    executor call: the log record with the final error, then the failure
    status when there is one. *)
Definition reported (req : ExecRequest) (t : TargetTree) (h : Handler)
    (cmdExpanded : string) (o : ExecOutcome) (rest : list Emit) : Prop :=
  let finished := LogFinished (Tree_Label t) (Handler_Label h) cmdExpanded in
  (forall c, out_ctxErr o = Some c ->
     exists post,
       rest = finished (Some c)
              :: TargetFailCh (failStatus req t h cmdExpanded o c) :: post)
  /\ (forall m, out_ctxErr o = None -> out_err o = Some m ->
        exists post,
          rest = finished (Some m)
                 :: TargetFailCh (failStatus req t h cmdExpanded o m) :: post)
  /\ (out_ctxErr o = None -> out_err o = None ->
        exists rest', rest = finished None :: rest' /\ no_fail_next rest').

(** The trace [tr] of a loop entered after [calls] executor calls: every
    start status in it is that of an exec among [execs], followed by what
    the outcome of its call asks for; every failure status follows the
    start status and the log record of its exec. *)
Definition shows (req : ExecRequest)
    (execs : TargetTree -> Handler -> Exec -> Prop)
    (calls : nat) (r : list Emit * Flow) : Prop :=
  (forall pre s rest,
     r.1 = pre ++ TargetStartCh s :: rest ->
     exists t h e cmdExpanded cmdParsed,
       execs t h e
       /\ s = startStatus req t h
       /\ ExecuteBuffered (Exec_Cmd e) (tmplData req t h) = Some cmdExpanded
       /\ Parse cmdExpanded = Some cmdParsed
       /\ reported req t h cmdExpanded
            (Buffered (calls + started pre) cmdParsed) rest)
  /\ (forall calls', r.2 = Next calls' -> calls' = calls + started r.1)
  /\ no_fail_next r.1
  /\ (forall st, TargetFailCh st ∈ r.1 ->
        exists pre s label handler cmd msg post,
          r.1 = pre ++ TargetStartCh s :: LogFinished label handler cmd (Some msg)
                    :: TargetFailCh st :: post).

(** Neither a start nor a failure status. *)
Definition silent (tr : list Emit) : Prop :=
  Forall (fun e => is_start e = false /\ is_fail e = false) tr.

End RunTarget.

(** *** [targetCtx] and [Dispatcher.Stop] *)

(** [TargetContext].  A context is named by a number; [Cancel] is the
    cancel function of the context with that number. *)
Record TargetContext := mkTargetContext { Ctx : nat; Cancel : nat }.

(** The part of [Dispatcher] that [Stop] and the cancellation of running
    targets touch: the [targetCtx] map, whether [done] is closed, and the
    cancel functions invoked so far, in call order. *)
Record Dispatcher := mkDispatcher {
  targetCtx : gmap string TargetContext;
  done_closed : bool;
  canceled : list nat
}.

(** [c.Cancel()]. *)
Definition invoke (c : TargetContext) (d : Dispatcher) : Dispatcher :=
  mkDispatcher (targetCtx d) (done_closed d) (canceled d ++ [Cancel c]).

(** [sync.Map.Range]: calls [f] on the entries in the order the map
    presents them and stops as soon as [f] returns [false]. *)
Fixpoint Range {S : Type} (f : string -> TargetContext -> S -> S * bool)
    (entries : list (string * TargetContext)) (s : S) : S :=
  match entries with
  | [] => s
  | (k, v) :: rest =>
      let '(s', continue) := f k v s in
      if continue then Range f rest s' else s'
  end.

(** [Stop].  [entries] is the order in which [Range] presents the entries
    of [targetCtx].  Closing an already closed channel panics: [None]. *)
Definition Stop (entries : list (string * TargetContext))
    (d : Dispatcher) : option Dispatcher :=
  if done_closed d then None
  else
    let d1 := mkDispatcher (targetCtx d) true (canceled d) in
    Some (Range (fun _ c d' => (invoke c d', false)) entries d1).

(** [targetCtx] after the stores and deletes of a trace.  [runTarget]
    builds one [TargetContext] from the single [treeCtx] and [treeCancel] of
    its run and stores that value under every id. *)
Definition replay (treeCtx : nat) (tr : list Emit) : gmap string TargetContext :=
  foldl (fun m e =>
           match e with
           | CtxStore id => <[id := mkTargetContext treeCtx treeCtx]> m
           | CtxDelete id => delete id m
           | _ => m
           end) ∅ tr.

(** *** The locked slice ([sync/slice.go]) and the replacement loop *)

(** [Slice.Append]. *)
Definition Slice_Append {A} (items : list A) (item : A) : list A :=
  items ++ [item].

(** [Slice.Delete]: out of range indices change nothing. *)
Definition Slice_Delete {A} (items : list A) (idx : Z) : list A :=
  if bool_decide (-1 < idx)%Z && bool_decide (idx < Z.of_nat (length items))%Z
  then take (Z.to_nat idx) items ++ drop (S (Z.to_nat idx)) items
  else items.

(** [Slice.PopFirst]. *)
Definition Slice_PopFirst {A} (items : list A) : option A * list A :=
  match items with
  | [] => (None, [])
  | first :: rest => (Some first, rest)
  end.

(** The loop [for item := range queue.Iter() { ... queue.Delete(n); break }]
    runs two goroutines against one mutex and one unbuffered channel: the
    one started by [Iter], and the Ingress goroutine that ranges over the
    channel.  Their program points: *)
Inductive Owner := Iterator | Ingress.

Inductive IterPc :=
| ItLock                (* at [s.Lock()] *)
| ItSend (index : nat)  (* holding the lock, at [c <- SliceItem{index, value}] *)
| ItClose               (* holding the lock, at [close(c)] *)
| ItUnlock              (* at the deferred [s.Unlock()] *)
| ItDone.

Inductive IngressPc :=
| InRecv (n : Z)        (* at the [range] receive, with counter [n] *)
| InLock (n : Z)        (* matched; in [queue.Delete(n)] at [s.Lock()] *)
| InDelete (n : Z)      (* in [queue.Delete(n)], holding the lock *)
| InUnlock              (* at the deferred [s.Unlock()] of [Delete] *)
| InAfter.              (* left the loop *)

Record Sys := mkSys {
  items : list ExecRequest;
  lock : option Owner;
  chan_closed : bool;
  iter : IterPc;
  ingress : IngressPc
}.

(** Where the iterator goes after item [index - 1]. *)
Definition iter_at (items : list ExecRequest) (index : nat) : IterPc :=
  if bool_decide (index < length items) then ItSend index else ItClose.

(** The body of the Ingress loop on a received item. *)
Definition on_item (req item : ExecRequest) (n : Z) : IngressPc :=
  if bool_decide (Req_TargetId item = Req_TargetId req)
  then InLock n else InRecv (n + 1).

(** One step of either goroutine, or of both at the rendezvous on the
    unbuffered channel.  A goroutine at [Lock] moves only when the mutex
    is free; a sender moves only together with a receiver.  These are the
    steps while no debounced request is on its way into [queue.Append];
    [Appends.step] below adds the goroutines that are. *)
Inductive step (req : ExecRequest) : Sys -> Sys -> Prop :=
| step_iter_lock its cl ing :
    step req (mkSys its None cl ItLock ing)
             (mkSys its (Some Iterator) cl (iter_at its 0) ing)
| step_rendezvous its lk cl index item n :
    its !! index = Some item ->
    step req (mkSys its lk cl (ItSend index) (InRecv n))
             (mkSys its lk cl (iter_at its (S index)) (on_item req item n))
| step_iter_close its lk cl ing :
    step req (mkSys its lk cl ItClose ing)
             (mkSys its lk true ItUnlock ing)
| step_iter_unlock its lk cl ing :
    step req (mkSys its lk cl ItUnlock ing)
             (mkSys its None cl ItDone ing)
| step_range_end its lk it n :
    step req (mkSys its lk true it (InRecv n))
             (mkSys its lk true it InAfter)
| step_ingress_lock its cl it n :
    step req (mkSys its None cl it (InLock n))
             (mkSys its (Some Ingress) cl it (InDelete n))
| step_ingress_delete its lk cl it n :
    step req (mkSys its lk cl it (InDelete n))
             (mkSys (Slice_Delete its n) lk cl it InUnlock)
| step_ingress_unlock its lk cl it :
    step req (mkSys its lk cl it InUnlock)
             (mkSys its None cl it InAfter).

(** The state right after [queue.Iter()] returned its channel. *)
Definition dedup_start (queue : list ExecRequest) : Sys :=
  mkSys queue None false ItLock (InRecv 0).

(** A scheduler: the step taken when the iterator is preferred. *)
Definition sched (req : ExecRequest) (s : Sys) : option Sys :=
  let '(mkSys its lk cl it ing) := s in
  match it, ing, lk with
  | ItLock, _, None => Some (mkSys its (Some Iterator) cl (iter_at its 0) ing)
  | ItSend index, InRecv n, _ =>
      match its !! index with
      | Some item =>
          Some (mkSys its lk cl (iter_at its (S index)) (on_item req item n))
      | None => if cl then Some (mkSys its lk true it InAfter) else None
      end
  | ItClose, _, _ => Some (mkSys its lk true ItUnlock ing)
  | ItUnlock, _, _ => Some (mkSys its None cl ItDone ing)
  | _, InRecv n, _ => if cl then Some (mkSys its lk true it InAfter) else None
  | _, InLock n, None => Some (mkSys its (Some Ingress) cl it (InDelete n))
  | _, InDelete n, _ => Some (mkSys (Slice_Delete its n) lk cl it InUnlock)
  | _, InUnlock, _ => Some (mkSys its None cl it InAfter)
  | _, _, _ => None
  end.

(** A state in which no goroutine can move. *)
Definition stuck (req : ExecRequest) (s : Sys) : Prop :=
  forall s', ~ step req s s'.

(** The states the two goroutines can be in while the request at
    position [at_] of [queue], the first one for the target of the new
    request, has something behind it. *)
Definition blocked_inv (at_ : nat) (queue : list ExecRequest) (s : Sys) : Prop :=
  items s = queue /\ chan_closed s = false
  /\ ((iter s = ItLock /\ ingress s = InRecv 0 /\ lock s = None)
      \/ (exists i, i <= at_ /\ iter s = ItSend i
                    /\ ingress s = InRecv (Z.of_nat i)
                    /\ lock s = Some Iterator)
      \/ (iter s = ItSend (S at_)
          /\ ingress s = InLock (Z.of_nat at_)
          /\ lock s = Some Iterator)).

(** The state in which both goroutines wait for each other: the iterator
    holds the mutex and waits for a receiver, the Ingress goroutine waits
    for the mutex inside [queue.Delete]. *)
Definition deadlock (at_ : nat) (queue : list ExecRequest) : Sys :=
  mkSys queue (Some Iterator) false (ItSend (S at_)) (InLock (Z.of_nat at_)).

(** Runs the scheduler until nothing can move or the fuel is spent. *)
Fixpoint run (req : ExecRequest) (fuel : nat) (s : Sys) : Sys :=
  match fuel with
  | 0 => s
  | S fuel' =>
      match sched req s with
      | Some s' => run req fuel' s'
      | None => s
      end
  end.

End Dispatch.

(** ** Targets and the per-target watcher ([target.go], [watch.go]) *)

(** [Target].  [Downstream] holds pointers to other targets of the same
    configuration: they are modelled by positions in that configuration. *)
Record Target := mkTarget {
  Target_Debounce : string;
  Target_Downstream : list nat;
  Target_Exclude : list Glob;
  Target_Handler : list Handler;
  Target_Id : string;
  Target_Include : list Glob;
  Target_Label : string;
  Target_Root : string;
  Target_Tree : list TargetTree;
  Target_Upstream : list string;
  Target_debounce : Z
}.

(** What [os.Stat] tells [cage_file.Exists]. *)
Record FileInfo := mkFileInfo { fi_IsDir : bool; fi_Size : Z }.

Inductive ExistsResult :=
| ExistsErr (msg : string)
| Missing
| Found (fi : FileInfo).

(** [cage_filepath.MatchAnyInput] and [MatchAnyOutput]. *)
Record MatchAnyInput := mkMatchAnyInput {
  Match_Name : string;
  Match_Include : list string;
  Match_Exclude : list string
}.

Record MatchAnyOutput := mkMatchAnyOutput {
  Match : bool;
  Matched_Include : string;
  Matched_Exclude : string
}.

(** What [Watcher.Event] calls outside of this repository's code. *)
Class WatchEnv := {
  (** [cage_file.Exists]. *)
  watch_Exists : string -> ExistsResult;
  (** [cage_filepath.PathMatchAny]: [None] is an error. *)
  PathMatchAny : MatchAnyInput -> option MatchAnyOutput;
  (** [filepath.Dir] and [filepath.Abs]. *)
  watch_Dir : string -> string;
  watch_Abs : string -> option string;
  (** Whether [fsnotify.Watcher.Add] accepts the path. *)
  fsnotify_Add : string -> bool
}.

Module Watch.
Section Event.
Context `{WatchEnv}.

(** [Target.MatchPath]. *)
Definition MatchPath (t : Target) (name : string) : option MatchAnyOutput :=
  PathMatchAny
    {| Match_Name := name;
       Match_Include := map Pattern (Target_Include t);
       Match_Exclude := map Pattern (Target_Exclude t) |}.

(** [Watcher]: the target, the [include] index of watched paths, and the
    watch list of the embedded filesystem monitor. *)
Record Watcher := mkWatcher {
  W_Target : Target;
  W_include : gmap string Glob;
  W_paths : list string
}.

(** [Fsnotify.AddPath]: [None] is an error. *)
Definition AddPath (w : Watcher) (name : string) : option Watcher :=
  match watch_Abs name with
  | None => None
  | Some abs =>
      if fsnotify_Add abs
      then Some (mkWatcher (W_Target w) (W_include w) (W_paths w ++ [abs]))
      else None
  end.

(** What one call of [Event] leaves behind: the watcher, the requests sent
    on [ExecReqCh], the paths offered on [AddPathCh], and the recovered
    panic value offered on [PanicCh], if any. *)
Record Outcome := mkOutcome {
  after : Watcher;
  sent : list ExecRequest;
  offered : list string;
  panicked : option string
}.

Definition quiet (w : Watcher) : Outcome := mkOutcome w [] [] None.
Definition panic (w : Watcher) (msg : string) : Outcome :=
  mkOutcome w [] [] (Some msg).

Definition store (w : Watcher) (path : string) (g : Glob) : Watcher :=
  mkWatcher (W_Target w) (<[path := g]> (W_include w)) (W_paths w).

Definition request (w : Watcher) (event : Event) (include : Glob) : ExecRequest :=
  {| Req_Cause := "watcher";
     Req_Debounce := Target_debounce (W_Target w);
     Req_Event := event;
     Req_Include := include;
     Req_Tree := Target_Tree (W_Target w);
     Req_TargetId := Target_Id (W_Target w);
     Req_TargetLabel := Target_Label (W_Target w) |}.

(** The tail of [Event]: [if sendExecReq { w.ExecReqCh <- ... }]. *)
Definition finish (w : Watcher) (event : Event) (include : Glob)
    (addPath : list string) (sendExecReq : bool) : Outcome :=
  mkOutcome w (if sendExecReq then [request w event include] else [])
            addPath None.

(** [Watcher.Event]. *)
Definition Event (w : Watcher) (event : Event) : Outcome :=
  if bool_decide (Event_Op event ≠ Write) && bool_decide (Event_Op event ≠ Create)
  then quiet w
  else
    match watch_Exists (Event_Path event) with
    | ExistsErr _ => panic w "failed to verify new file/dir exists"
    | Missing => quiet w
    | Found fi =>
      match MatchPath (W_Target w) (Event_Path event) with
      | None => panic w "failed to verify new file/dir should be watched"
      | Some matchRes =>
        if bool_decide (Event_Op event = Create) then
          let dir := watch_Dir (Event_Path event) in
          match W_include w !! dir with
          | Some include =>
            if fi_IsDir fi then
              if Match matchRes || bool_decide (Matched_Exclude matchRes = "") then
                match AddPath w (Event_Path event) with
                | None => panic w "failed to watch new dir"
                | Some w1 =>
                    finish (store w1 (Event_Path event) include) event include
                           [Event_Path event] false
                end
              else finish w event include [] false
            else
              finish (store w (Event_Path event) include) event include []
                     (Match matchRes)
          | None => finish w event (mkGlob "" "") [] false
          end
        else
          match W_include w !! Event_Path event with
          | None => quiet w
          | Some include => finish w event include [] (Match matchRes)
          end
      end
    end.

End Event.
End Watch.

(** ** The filesystem monitor ([watcher/fsnotify.go]) *)

(** The operation bits of the fsnotify library, which is not part of this
    repository. *)
Class FsnotifyOps := {
  fsnotify_Create : N;
  fsnotify_Write : N;
  fsnotify_Remove : N;
  fsnotify_Rename : N
}.

(** [fsnotify.Event]. *)
Record RawEvent := mkRawEvent { Raw_Name : string; Raw_Op : N }.

Module Fsnotify.
Section Monitor.
Context `{WatchEnv} `{FsnotifyOps}.

(** [Fsnotify.filterOp]. *)
Definition filterOp (op : N) : Op :=
  if bool_decide (N.land op fsnotify_Remove = fsnotify_Remove) then Remove
  else if bool_decide (N.land op fsnotify_Rename = fsnotify_Rename) then Rename
  else if bool_decide (N.land op fsnotify_Create = fsnotify_Create) then Create
  else if bool_decide (N.land op fsnotify_Write = fsnotify_Write) then Write
  else 0%N.

(** The [watcher.Events] case of [monitor] up to [filteredEvent]; [None]
    stands for [continue]. *)
Definition filteredEvent (event : RawEvent) : option Event :=
  if bool_decide (Raw_Name event = "") then None
  else
    let op := filterOp (Raw_Op event) in
    if bool_decide (op = 0%N) then None
    else Some (mkEvent (Raw_Name event) op).

(** [broadcastEvent]: every subscriber is handed the event. *)
Definition broadcastEvent (subscribers : list Watch.Watcher) (e : Event)
    : list Watch.Outcome :=
  map (fun s => Watch.Event s e) subscribers.

(** What one event of the fsnotify library does to the subscribers, once
    [monitor] broadcasts it (at once, or after the debounce interval, which
    hands the same [filteredEvent] to [broadcastEvent]). *)
Definition monitor (subscribers : list Watch.Watcher) (event : RawEvent)
    : list Watch.Outcome :=
  match filteredEvent event with
  | None => map Watch.quiet subscribers
  | Some e => broadcastEvent subscribers e
  end.

End Monitor.
End Fsnotify.

(** ** The glob evaluator ([file.go]) *)

(** [cage_filepath.GlobAnyInput] and [GlobAnyOutput]. *)
Record GlobAnyInput := mkGlobAnyInput {
  In_Exclude : list Glob;
  In_Include : list Glob
}.

Record GlobAnyOutput := mkGlobAnyOutput {
  Out_Include : gmap string Glob;
  Out_Exclude : gmap string Glob
}.

(** What the glob evaluator asks of the filesystem and of the glob library. *)
Class GlobEnv := {
  (** [doublestar.Glob]: the paths on disk that match a pattern. *)
  doublestar_Glob : string -> option (list string);
  (** [doublestar.PathMatch pattern name]. *)
  doublestar_PathMatch : string -> string -> option bool;
  (** [cage_filepath.FileAncestor name root]: the directories from the
      parent of [name] up to [root]. *)
  FileAncestor : string -> string -> option (list string);
  (** [filepath.Abs]. *)
  glob_Abs : string -> option string
}.

Module File.
Section Glob.
Context `{GlobEnv}.

(** The first exclusion pattern, in declaration order, that [name] matches. *)
Fixpoint first_exclude (exclude : list Glob) (name : string)
    : option (option Glob) :=
  match exclude with
  | [] => Some None
  | e :: rest =>
      match doublestar_PathMatch (Pattern e) name with
      | None => None
      | Some true => Some (Some e)
      | Some false => first_exclude rest name
      end
  end.

(** Sorts the matches of one inclusion pattern into the two maps. *)
Fixpoint sort_matches (include : Glob) (exclude : list Glob)
    (names : list string) (out : GlobAnyOutput) : option GlobAnyOutput :=
  match names with
  | [] => Some out
  | name :: rest =>
      match first_exclude exclude name with
      | None => None
      | Some (Some e) =>
          sort_matches include exclude rest
            (mkGlobAnyOutput (Out_Include out) (<[name := e]> (Out_Exclude out)))
      | Some None =>
          sort_matches include exclude rest
            (mkGlobAnyOutput (<[name := include]> (Out_Include out)) (Out_Exclude out))
      end
  end.

Fixpoint glob_includes (includes exclude : list Glob) (out : GlobAnyOutput)
    : option GlobAnyOutput :=
  match includes with
  | [] => Some out
  | i :: rest =>
      match doublestar_Glob (Pattern i) with
      | None => None
      | Some names =>
          match sort_matches i exclude names out with
          | None => None
          | Some out' => glob_includes rest exclude out'
          end
      end
  end.

(** Modelled from the spec: [cage_filepath.GlobAny] is not among the
    sources.  Following section 4.1 and the doc comment of [GetTargetGlob],
    [Include] receives every path that matches an inclusion pattern and no
    exclusion pattern, [Exclude] every path that matches an inclusion
    pattern and was rejected by an exclusion pattern (the first one in
    declaration order); a path that matches no inclusion pattern is in
    neither. *)
Definition GlobAny (input : GlobAnyInput) : option GlobAnyOutput :=
  glob_includes (In_Include input) (In_Exclude input) (mkGlobAnyOutput ∅ ∅).

(** [for _, a := range ancestor { globOut.Include[a] = include }]. *)
Definition add_ancestors (include : Glob) (ancestor : list string)
    (m : gmap string Glob) : gmap string Glob :=
  foldl (fun m a => <[a := include]> m) m ancestor.

(** [for name, include := range globOut.Include], over the entries the
    map holds when the loop starts.  (Go may also present keys inserted
    during the loop; they are ancestors already handled with the same
    value.) *)
Fixpoint add_all_ancestors (entries : list (string * Glob))
    (m : gmap string Glob) : option (gmap string Glob) :=
  match entries with
  | [] => Some m
  | (name, include) :: rest =>
      match FileAncestor name (Root include) with
      | None => None
      | Some ancestor => add_all_ancestors rest (add_ancestors include ancestor m)
      end
  end.

(** The body of the loop of [GetTargetGlob], for one inclusion [Glob]. *)
Definition targetGlob (i : Glob) (exclude : list Glob) : option GlobAnyOutput :=
  match glob_Abs (Root i) with
  | None => None
  | Some root =>
    let globIn :=
      {| In_Exclude := exclude;
         In_Include := [ {| Pattern := Pattern i; Root := root |} ] |} in
    match GlobAny globIn with
    | None => None
    | Some globOut =>
      match add_all_ancestors (map_to_list (Out_Include globOut))
                              (Out_Include globOut) with
      | None => None
      | Some inc =>
        if bool_decide (size inc = 0) && bool_decide (size (Out_Exclude globOut) = 0)
        then Some (mkGlobAnyOutput
                     (foldl (fun m include => <[root := include]> m) inc
                            (In_Include globIn))
                     (Out_Exclude globOut))
        else Some (mkGlobAnyOutput inc (Out_Exclude globOut))
      end
    end
  end.

(** [GetTargetGlob]: one output per inclusion [Glob]; [None] is an error. *)
Fixpoint GetTargetGlob (include exclude : list Glob)
    : option (list GlobAnyOutput) :=
  match include with
  | [] => Some []
  | i :: rest =>
      match targetGlob i exclude with
      | None => None
      | Some globOut =>
          match GetTargetGlob rest exclude with
          | None => None
          | Some list => Some (globOut :: list)
          end
      end
  end.

(** [GetGlobInclude]: the two nested loops.  The inner one ranges over
    the entries of one [Include] map and skips a path that [paths] already
    holds. *)
Definition GetGlobInclude (globs : list GlobAnyOutput) : gmap string Glob :=
  foldl (fun paths glob =>
           map_fold (fun p include paths =>
                       match paths !! p with
                       | Some _ => paths
                       | None => <[p := include]> paths
                       end)
                    paths (Out_Include glob))
        ∅ globs.

End Glob.
End File.

(** ** The session file ([gob.go]) *)

Module Gob.

(** [os.OpenFile(name, os.O_WRONLY|os.O_CREATE, 0600)]: creates the file,
    empty, when it is missing; an existing file keeps its bytes (the flags
    hold no [O_TRUNC]).  The handle starts at offset 0. *)
Definition OpenFile (fs : gmap string (list Byte.byte)) (name : string)
    : gmap string (list Byte.byte) :=
  match fs !! name with
  | Some _ => fs
  | None => <[name := []]> fs
  end.

(** Writing [data] at offset 0 over [old]. *)
Definition write_over (old data : list Byte.byte) : list Byte.byte :=
  data ++ drop (length data) old.

(** [EncodeToFile].  [openable] says whether [os.OpenFile] succeeds;
    [encoding] is what the gob encoder produces for the value ([None] when
    it rejects the value); [accepted] is how many bytes the file takes
    before a write error (all of them when it is at least the length).
    The result is the files afterwards and the returned error. *)
Definition EncodeToFile (openable : bool) (encoding : option (list Byte.byte))
    (accepted : nat) (fs : gmap string (list Byte.byte)) (name : string)
    : gmap string (list Byte.byte) * option string :=
  if negb openable then (fs, Some "failed to open file for encoding")
  else
    let fs1 := OpenFile fs name in
    match encoding with
    | None => (fs1, Some "failed to encode value to file")
    | Some bytes =>
        let old := default [] (fs1 !! name) in
        let fs2 := <[name := write_over old (take accepted bytes)]> fs1 in
        if bool_decide (length bytes <= accepted)
        then (fs2, None)
        else (fs2, Some "failed to encode value to file")
    end.

End Gob.

(** ** Session resume at startup ([cmd/boone/root]) *)

Module Root.

Definition set_Cause (s : Status) (c : TargetStatus) : Status :=
  {| Status_Cause := c;
     Status_Cmd := Status_Cmd s;
     Status_Downstream := Status_Downstream s;
     Status_Err := Status_Err s;
     Status_HandlerLabel := Status_HandlerLabel s;
     Status_Include := Status_Include s;
     Status_Op := Status_Op s;
     Status_Path := Status_Path s;
     Status_Pid := Status_Pid s;
     Status_Stderr := Status_Stderr s;
     Status_Stdout := Status_Stdout s;
     Status_TargetId := Status_TargetId s;
     Status_TargetLabel := Status_TargetLabel s;
     Status_UpstreamTargetLabel := Status_UpstreamTargetLabel s |}.

(** The first [if] of the loop body: back to [TargetStarted]. *)
Definition reclassify (status : Status) : Status :=
  if bool_decide (Status_Cause status = TargetResumed)
     || bool_decide (Status_Cause status = TargetPending)
  then set_Cause status TargetStarted
  else status.

Definition resumeRequest (status : Status) (t : Target) : ExecRequest :=
  {| Req_Cause := "resume";
     Req_Debounce := 0;
     Req_Event := mkEvent "" 0%N;
     Req_Include := mkGlob "" "";
     Req_Tree := Target_Tree t;
     Req_TargetId := Status_TargetId status;
     Req_TargetLabel := Status_TargetLabel status |}.

(** [for _, t := range cfg.Target { if t.Id == status.TargetId { ...; break } }]:
    the status as the loop leaves it, [valid], and the request appended
    to [resumeExecReq], if any. *)
Fixpoint scanTargets (targets : list Target) (status : Status)
    : Status * bool * option ExecRequest :=
  match targets with
  | [] => (status, false, None)
  | t :: rest =>
      if bool_decide (Target_Id t = Status_TargetId status) then
        if bool_decide (Status_Cause status = TargetStarted)
        then (set_Cause status TargetResumed, true,
              Some (resumeRequest (set_Cause status TargetResumed) t))
        else (status, true, None)
      else scanTargets rest status
  end.

(** The loop over [decSession.Statuses]: the requests collected in
    [resumeExecReq] and the statuses collected in [seedStatusList]. *)
Fixpoint resume (targets : list Target) (statuses : list Status)
    : list ExecRequest * list Status :=
  match statuses with
  | [] => ([], [])
  | status :: rest =>
      let '(status', valid, req) := scanTargets targets (reclassify status) in
      let '(reqs, seed) := resume targets rest in
      (match req with Some r => r :: reqs | None => reqs end,
       if valid then status' :: seed else seed)
  end.

(** The reading of the resume rule in the specification, to compare with
    [resume]: a status is in flight when its cause is started, resumed or
    pending; it is known when some target of the configuration has its id. *)
Definition in_flight (status : Status) : bool :=
  bool_decide (Status_Cause status = TargetStarted)
  || bool_decide (Status_Cause status = TargetResumed)
  || bool_decide (Status_Cause status = TargetPending).

Definition target_of (targets : list Target) (status : Status) : option Target :=
  snd <$> list_find (fun t => Target_Id t = Status_TargetId status) targets.

(** The status shown for a known target. *)
Definition seeded (targets : list Target) (status : Status) : option Status :=
  match target_of targets status with
  | Some _ =>
      Some (if in_flight status then set_Cause status TargetResumed else status)
  | None => None
  end.

(** The request emitted for an in-flight status of a known target. *)
Definition resumed (targets : list Target) (status : Status) : option ExecRequest :=
  match target_of targets status with
  | Some t =>
      if in_flight status
      then Some {| Req_Cause := "resume";
                   Req_Debounce := 0;
                   Req_Event := mkEvent "" 0%N;
                   Req_Include := mkGlob "" "";
                   Req_Tree := Target_Tree t;
                   Req_TargetId := Status_TargetId status;
                   Req_TargetLabel := Status_TargetLabel status |}
      else None
  | None => None
  end.

End Root.

(** ** Configuration ([config.go]) *)

Record GlobalConfig := mkGlobalConfig {
  Cooldown : string;
  Global_Exclude : list Glob;
  cooldown : Z
}.

Record Config := mkConfig {
  Session_File : string;
  Global : GlobalConfig;
  Config_Target : list Target;
  Template : gmap string string;
  AutoStartTarget : list string;
  startTarget : list Target
}.

Definition DefaultDebounce := "15s".
Definition DefaultCmdTimeout := "15m".
Definition DefaultCooldown := "5s".

(** A function that returns [error]: a value, an error with its message, or
    no answer within the recursion depth allowed. *)
Inductive result (A : Type) :=
| Ok (a : A)
| Err (msg : string)
| OutOfFuel.
Arguments Ok {A} a.
Arguments Err {A} msg.
Arguments OutOfFuel {A}.

#[global] Instance result_ret : MRet result := fun A a => Ok a.
#[global] Instance result_bind : MBind result := fun A B f r =>
  match r with
  | Ok a => f a
  | Err msg => Err msg
  | OutOfFuel => OutOfFuel
  end.

Fixpoint mapM_result {A B} (f : A -> result B) (l : list A) : result (list B) :=
  match l with
  | [] => Ok []
  | a :: rest => b ← f a; bs ← mapM_result f rest; Ok (b :: bs)
  end.

(** [errors.Errorf] when the condition holds. *)
Definition fail_if (cond : bool) (msg : string) : result unit :=
  if cond then Err msg else Ok ().

Definition from_option {A} (o : option A) (msg : string) : result A :=
  match o with
  | Some a => Ok a
  | None => Err msg
  end.

(** What [FinalizeConfig] calls outside of this repository's code. *)
Class ConfigEnv := {
  (** Whether [cage_file.CreateFileAll] succeeds. *)
  CreateFileAll : string -> bool;
  (** [time.ParseDuration]. *)
  ParseDuration : string -> option Z;
  (** [cage_template.ExpandFromStringMap], on one string. *)
  ExpandFromStringMap : gmap string string -> string -> option string;
  (** [filepath.Abs] and [filepath.IsAbs]. *)
  config_Abs : string -> option string;
  IsAbs : string -> bool;
  (** [cage_file.Exists]. *)
  config_Exists : string -> ExistsResult;
  (** [cage_filepath.Append base path]: [None] is an error. *)
  Append : string -> string -> option string
}.

(** [strings.HasPrefix s prefix]. *)
Definition HasPrefix (s prefix : string) : bool := String.prefix prefix s.

Module Cfg.
Section Finalize.
Context `{ConfigEnv}.

Definition set_Exec (e : Exec) (cmd dir timeout : string) (parsed : Z) : Exec :=
  {| Exec_Cmd := cmd; Exec_Dir := dir; Exec_Timeout := timeout;
     Exec_Env := Exec_Env e; Exec_timeout := parsed |}.

Definition set_Handler_Exec (h : Handler) (es : list Exec) : Handler :=
  {| Handler_Label := Handler_Label h; Handler_Exec := es |}.

(** [Target.ExpandTemplateVars]. *)
Definition expand (data : gmap string string) (s : string) : result string :=
  from_option (ExpandFromStringMap data s) "failed to expand template".

Definition expandExec (data : gmap string string) (e : Exec) : result Exec :=
  cmd ← expand data (Exec_Cmd e);
  dir ← expand data (Exec_Dir e);
  timeout ← expand data (Exec_Timeout e);
  Ok (set_Exec e cmd dir timeout (Exec_timeout e)).

Definition expandHandler (data : gmap string string) (h : Handler) : result Handler :=
  es ← mapM_result (expandExec data) (Handler_Exec h);
  Ok (set_Handler_Exec h es).

Definition ExpandTemplateVars (data : gmap string string) (t : Target) : result Target :=
  debounce ← expand data (Target_Debounce t);
  root ← expand data (Target_Root t);
  handlers ← mapM_result (expandHandler data) (Target_Handler t);
  Ok {| Target_Debounce := debounce;
        Target_Downstream := Target_Downstream t;
        Target_Exclude := Target_Exclude t;
        Target_Handler := handlers;
        Target_Id := Target_Id t;
        Target_Include := Target_Include t;
        Target_Label := Target_Label t;
        Target_Root := root;
        Target_Tree := Target_Tree t;
        Target_Upstream := Target_Upstream t;
        Target_debounce := Target_debounce t |}.

(** The existence checks that follow every resolved directory. *)
Definition require_dir (path : string) : result unit :=
  match config_Exists path with
  | ExistsErr _ => Err "failed to check if path exists"
  | Missing => Err "path does not exist"
  | Found fi => fail_if (negb (fi_IsDir fi)) "path is not a directory"
  end.

(** The body of the [Include] loop and of the [Exclude] loop. *)
Definition finalizeGlob (targetRoot : string) (g : Glob) : result Glob :=
  root ←
    (if bool_decide (Root g = "") then Ok targetRoot
     else
       _ ← fail_if (IsAbs (Root g)) "root must be relative to target [Root] field";
       r ← from_option (Append targetRoot (Root g)) "failed to append root";
       _ ← require_dir r;
       Ok r);
  _ ← fail_if (bool_decide (Pattern g = "")) "empty [Glob] field";
  _ ← fail_if (IsAbs (Pattern g)) "glob must be relative";
  pattern ← from_option (Append root (Pattern g)) "failed to append pattern";
  Ok {| Pattern := pattern; Root := root |}.

(** [for _, e := range c.Global.Exclude]. *)
Fixpoint appendGlobalExclude (global : list Glob) (exclude : list Glob)
    : result (list Glob) :=
  match global with
  | [] => Ok exclude
  | e :: rest =>
      _ ← fail_if (IsAbs (Pattern e)) "global exclude must be relative";
      appendGlobalExclude rest (exclude ++ [ {| Pattern := Pattern e; Root := "" |} ])
  end.

(** [for _, glob := range ...  if !strings.HasPrefix(glob.Root, t.Root)]. *)
Definition roots_within (targetRoot : string) (globs : list Glob) : bool :=
  forallb (fun glob => HasPrefix (Root glob) targetRoot) globs.

(** The body of the first loop over [all], for one target. *)
Definition finalizeTarget (c : Config) (uniqueLabel : gset string) (t : Target)
    : result (Target * gset string) :=
  t ← ExpandTemplateVars (Template c) t;
  _ ← fail_if (bool_decide (Target_Root t = "")
               && bool_decide (0 < length (Target_Include t)))
              "target is missing a [Root] field";
  _ ← fail_if (bool_decide (Target_Label t = "")) "target is missing a [Label] field";
  root ← from_option (config_Abs (Target_Root t)) "failed to get absolute path";
  _ ← require_dir root;
  let id := if bool_decide (Target_Id t = "")
            then "auto-generated Id: [" +:+ Target_Label t +:+ "][" +:+ root +:+ "]"
            else Target_Id t in
  _ ← fail_if (bool_decide (Target_Label t ∈ uniqueLabel))
              "target label was used more than once";
  let uniqueLabel := {[ Target_Label t ]} ∪ uniqueLabel in
  let debounce := if bool_decide (Target_Debounce t = "")
                  then DefaultDebounce else Target_Debounce t in
  parsed ← from_option (ParseDuration debounce) "failed to parse Debounce";
  include ← mapM_result (finalizeGlob root) (Target_Include t);
  exclude ← appendGlobalExclude (Global_Exclude (Global c)) (Target_Exclude t);
  exclude ← mapM_result (finalizeGlob root) exclude;
  _ ← fail_if (negb (roots_within root include))
              "Include.Root outside the target-level root";
  _ ← fail_if (negb (roots_within root exclude))
              "Exclude.Root outside the target-level root";
  Ok ({| Target_Debounce := debounce;
         Target_Downstream := Target_Downstream t;
         Target_Exclude := exclude;
         Target_Handler := Target_Handler t;
         Target_Id := id;
         Target_Include := include;
         Target_Label := Target_Label t;
         Target_Root := root;
         Target_Tree := Target_Tree t;
         Target_Upstream := Target_Upstream t;
         Target_debounce := parsed |}, uniqueLabel).

(** The first loop over [all]. *)
Fixpoint finalizeTargets (c : Config) (uniqueLabel : gset string)
    (all : list Target) : result (list Target) :=
  match all with
  | [] => Ok []
  | t :: rest =>
      '(t', uniqueLabel') ← finalizeTarget c uniqueLabel t;
      rest' ← finalizeTargets c uniqueLabel' rest;
      Ok (t' :: rest')
  end.

(** The second loop over [all]: [Exec.Dir] and [Exec.Timeout]. *)
Definition finalizeExec (targetRoot : string) (e : Exec) : result Exec :=
  dir ←
    (if bool_decide (Exec_Dir e = "") then Ok targetRoot
     else
       d ← from_option (Append targetRoot (Exec_Dir e))
                       "Handler.Exec.Dir outside the target-level root";
       _ ← require_dir d;
       Ok d);
  let timeout := if bool_decide (Exec_Timeout e = "")
                 then DefaultCmdTimeout else Exec_Timeout e in
  parsed ← from_option (ParseDuration timeout) "failed to parse Timeout";
  Ok (set_Exec e (Exec_Cmd e) dir timeout parsed).

Definition finalizeHandler (targetRoot : string) (h : Handler) : result Handler :=
  es ← mapM_result (finalizeExec targetRoot) (Handler_Exec h);
  Ok (set_Handler_Exec h es).

Definition set_Handler (t : Target) (hs : list Handler) : Target :=
  {| Target_Debounce := Target_Debounce t;
     Target_Downstream := Target_Downstream t;
     Target_Exclude := Target_Exclude t;
     Target_Handler := hs;
     Target_Id := Target_Id t;
     Target_Include := Target_Include t;
     Target_Label := Target_Label t;
     Target_Root := Target_Root t;
     Target_Tree := Target_Tree t;
     Target_Upstream := Target_Upstream t;
     Target_debounce := Target_debounce t |}.

Definition finalizeHandlers (t : Target) : result Target :=
  hs ← mapM_result (finalizeHandler (Target_Root t)) (Target_Handler t);
  Ok (set_Handler t hs).

(** The third loop: direct descendants, by position in [all]. *)
Definition downstreamOf (all : list Target) (t : Target) : list nat :=
  concat (imap (fun o other =>
                  if bool_decide (Target_Id other = Target_Id t) then []
                  else flat_map (fun id => if bool_decide (id = Target_Id t)
                                           then [o] else [])
                                (Target_Upstream other))
               all).

Definition set_Downstream (t : Target) (ds : list nat) : Target :=
  {| Target_Debounce := Target_Debounce t;
     Target_Downstream := ds;
     Target_Exclude := Target_Exclude t;
     Target_Handler := Target_Handler t;
     Target_Id := Target_Id t;
     Target_Include := Target_Include t;
     Target_Label := Target_Label t;
     Target_Root := Target_Root t;
     Target_Tree := Target_Tree t;
     Target_Upstream := Target_Upstream t;
     Target_debounce := Target_debounce t |}.

Definition linkDownstream (all : list Target) (t : Target) : result Target :=
  let ds := downstreamOf all t in
  _ ← fail_if (bool_decide (length (Target_Handler t) = 0)
               && bool_decide (length ds = 0))
              "target cannot have 0 handlers unless it has at least 1 downstream";
  Ok (set_Downstream t ds).

(** The fourth loop: [uniqueTargetId], from ids to positions in [all]. *)
Fixpoint uniqueIds (n : nat) (all : list Target) (seen : gmap string nat)
    : result (gmap string nat) :=
  match all with
  | [] => Ok seen
  | t :: rest =>
      _ ← fail_if (bool_decide (is_Some (seen !! Target_Id t)))
                  "target has an Id that is already used";
      uniqueIds (S n) rest (<[Target_Id t := n]> seen)
  end.

Definition treeItem (t : Target) : TargetTree :=
  {| Tree_Id := Target_Id t;
     Tree_Label := Target_Label t;
     Tree_Handler := Target_Handler t |}.

(** [VisitDownstream] with the visitor of the fifth loop: the tree items
    of everything downstream of the targets at [ds], in pre-order.  The
    recursion follows [Downstream] pointers and is bounded by [fuel]. *)
Fixpoint VisitDownstream (fuel : nat) (all : list Target) (ds : list nat)
    : result (list TargetTree) :=
  match fuel with
  | 0 => OutOfFuel
  | S fuel' =>
      match ds with
      | [] => Ok []
      | d :: rest =>
          match all !! d with
          | None => Err "dangling downstream"
          | Some t =>
              below ← VisitDownstream fuel' all (Target_Downstream t);
              others ← VisitDownstream fuel' all rest;
              Ok (treeItem t :: below ++ others)
          end
      end
  end.

Definition set_Tree (t : Target) (tree : list TargetTree) : Target :=
  {| Target_Debounce := Target_Debounce t;
     Target_Downstream := Target_Downstream t;
     Target_Exclude := Target_Exclude t;
     Target_Handler := Target_Handler t;
     Target_Id := Target_Id t;
     Target_Include := Target_Include t;
     Target_Label := Target_Label t;
     Target_Root := Target_Root t;
     Target_Tree := tree;
     Target_Upstream := Target_Upstream t;
     Target_debounce := Target_debounce t |}.

Definition buildTree (fuel : nat) (all : list Target) (t : Target) : result Target :=
  below ← VisitDownstream fuel all (Target_Downstream t);
  Ok (set_Tree t (treeItem t :: below)).

(** The last loop: [startTarget]. *)
Definition autoStart (all : list Target) (uniqueTargetId : gmap string nat)
    (id : string) : result Target :=
  n ← from_option (uniqueTargetId !! id) "cannot auto-start target: Id not found";
  from_option (all !! n) "cannot auto-start target: Id not found".

(** [FinalizeConfig]: the finalized targets and configuration. *)
Definition FinalizeConfig (fuel : nat) (all : list Target) (c : Config)
    : result (list Target * Config) :=
  _ ← fail_if (negb (bool_decide (Session_File c = ""))
               && negb (CreateFileAll (Session_File c)))
              "failed to init log file";
  let cool := if bool_decide (Cooldown (Global c) = "")
              then DefaultCooldown else Cooldown (Global c) in
  parsed ← from_option (ParseDuration cool) "failed to parse Cooldown";
  let global := mkGlobalConfig cool (Global_Exclude (Global c)) parsed in
  all ← finalizeTargets c ∅ all;
  all ← mapM_result finalizeHandlers all;
  all ← mapM_result (linkDownstream all) all;
  uniqueTargetId ← uniqueIds 0 all ∅;
  all ← mapM_result (buildTree fuel all) all;
  start ← mapM_result (autoStart all uniqueTargetId) (AutoStartTarget c);
  Ok (all, mkConfig (Session_File c) global (Config_Target c) (Template c)
                    (AutoStartTarget c) start).









End Finalize.
End Cfg.

(** ** More of the dispatcher ([dispatch.go], [sync/slice.go]) *)

Module Run.

(** The events the tree loop of [runTarget] can produce itself; the
    [TreePass], the deferred deletes and the recovered panic come after it. *)
Definition in_loop (e : Emit) : bool :=
  match e with
  | TreePassCh _ | PanicCh _ | CtxDelete _ => false
  | _ => true
  end.

Definition is_panic (e : Emit) : bool :=
  match e with PanicCh _ => true | _ => false end.

(** The number of events of a kind in a trace. *)
Definition count (kind : Emit -> bool) (tr : list Emit) : nat :=
  length (List.filter kind tr).

(** The target an event is about, by id. *)
Definition about (e : Emit) : option string :=
  match e with
  | TargetStartCh s | TargetFailCh s => Some (Status_TargetId s)
  | TargetPassCh p => Some (Pass_TargetId p)
  | CtxStore id | CtxDelete id => Some id
  | _ => None
  end.

(** The first loop of the Ingress goroutine of [Start]:
    [for _, t := range req.Tree { v, found := d.targetCtx.Load(t.Id); if found { c.Cancel() } }]. *)
Definition cancelStale (tree : list TargetTree) (d : Dispatch.Dispatcher)
    : Dispatch.Dispatcher :=
  foldl (fun d t =>
           match Dispatch.targetCtx d !! Tree_Id t with
           | Some c => Dispatch.invoke c d
           | None => d
           end) d tree.

(** [enqueueStatus]: the [pending] status offered on [TargetStartCh] and
    the queue after [queue.Append]. *)
Definition pendingStatus (queueItem : ExecRequest) : Status :=
  {| Status_Cause := TargetPending;
     Status_Cmd := "";
     Status_Downstream := [];
     Status_Err := "";
     Status_HandlerLabel := "";
     Status_Include := mkGlob "" "";
     Status_Op := "";
     Status_Path := "";
     Status_Pid := [];
     Status_Stderr := "";
     Status_Stdout := "";
     Status_TargetId := Req_TargetId queueItem;
     Status_TargetLabel := Req_TargetLabel queueItem;
     Status_UpstreamTargetLabel := "" |}.

Definition enqueueStatus (queue : list ExecRequest) (queueItem : ExecRequest)
    : Status * list ExecRequest :=
  (pendingStatus queueItem, Dispatch.Slice_Append queue queueItem).

(** The ticker case: [queue.PopFirst()], as often as there are ticks; the
    requests handed to [runTargetCh], in order, and the queue left. *)
Fixpoint ticks (n : nat) (queue : list ExecRequest)
    : list ExecRequest * list ExecRequest :=
  match n with
  | 0 => ([], queue)
  | S n' =>
      match Dispatch.Slice_PopFirst queue with
      | (Some first, rest) =>
          let '(dequeued, remaining) := ticks n' rest in
          (first :: dequeued, remaining)
      | (None, rest) => ticks n' rest
      end
  end.

(** [targetCtx] after the stores and deletes of a trace, from any map. *)
Definition replay_from (treeCtx : nat) (m : gmap string Dispatch.TargetContext)
    (tr : list Emit) : gmap string Dispatch.TargetContext :=
  foldl (fun m e =>
           match e with
           | CtxStore id => <[id := Dispatch.mkTargetContext treeCtx treeCtx]> m
           | CtxDelete id => delete id m
           | _ => m
           end) m tr.

(** An event of the tree loop that is about one of the targets [ids]. *)
Definition within (ids : list string) (e : Emit) : Prop :=
  in_loop e = true /\ forall id, about e = Some id -> id ∈ ids.

(** A bound on the steps the two goroutines of the replacement loop can
    still take, for a queue that never held more than [len] requests. *)
Definition iter_rank (len : nat) (it : Dispatch.IterPc) : nat :=
  match it with
  | Dispatch.ItLock => len + 4
  | Dispatch.ItSend index => len - index + 3
  | Dispatch.ItClose => 2
  | Dispatch.ItUnlock => 1
  | Dispatch.ItDone => 0
  end.

Definition ingress_rank (ing : Dispatch.IngressPc) : nat :=
  match ing with
  | Dispatch.InRecv _ => 4
  | Dispatch.InLock _ => 3
  | Dispatch.InDelete _ => 2
  | Dispatch.InUnlock => 1
  | Dispatch.InAfter => 0
  end.

Definition rank (len : nat) (s : Dispatch.Sys) : nat :=
  iter_rank len (Dispatch.iter s) + ingress_rank (Dispatch.ingress s).

End Run.

(** ** The replacement loop while debounced requests are enqueued *)

(** [Dispatch.step] has the two goroutines of the loop.  The callback of
    [time.Debounce] runs in a goroutine of its own and ends in
    [queue.Append], which takes the same mutex; so while the loop runs,
    any number of such goroutines can be on their way into [Append]. *)
Module Appends.
Import Dispatch.

(** Who holds the mutex of the slice. *)
Inductive Holder := HIterator | HIngress | HAppender.

(** The goroutine inside [Slice.Append]. *)
Inductive AppendPc :=
| ApAppend (item : ExecRequest)  (* holding the lock, at [append(s.items, item)] *)
| ApUnlock.                      (* at the deferred [s.Unlock()] *)

Record Sys := mkSys {
  items : list ExecRequest;
  lock : option Holder;
  chan_closed : bool;
  iter : IterPc;
  ingress : IngressPc;
  (* the requests of the debounce goroutines at [s.Lock()] in [Append] *)
  waiting : list ExecRequest;
  appender : option AppendPc
}.

(** One step of the iterator, of the Ingress goroutine, of both at the
    rendezvous, or of a goroutine in [Append]: it takes the mutex when it
    is free, appends its request, and releases the mutex. *)
Inductive step (req : ExecRequest) : Sys -> Sys -> Prop :=
| iter_lock its cl ing w ap :
    step req (mkSys its None cl ItLock ing w ap)
             (mkSys its (Some HIterator) cl (iter_at its 0) ing w ap)
| rendezvous its lk cl index item n w ap :
    its !! index = Some item ->
    step req (mkSys its lk cl (ItSend index) (InRecv n) w ap)
             (mkSys its lk cl (iter_at its (S index)) (on_item req item n) w ap)
| iter_close its lk cl ing w ap :
    step req (mkSys its lk cl ItClose ing w ap)
             (mkSys its lk true ItUnlock ing w ap)
| iter_unlock its lk cl ing w ap :
    step req (mkSys its lk cl ItUnlock ing w ap)
             (mkSys its None cl ItDone ing w ap)
| range_end its lk it n w ap :
    step req (mkSys its lk true it (InRecv n) w ap)
             (mkSys its lk true it InAfter w ap)
| ingress_lock its cl it n w ap :
    step req (mkSys its None cl it (InLock n) w ap)
             (mkSys its (Some HIngress) cl it (InDelete n) w ap)
| ingress_delete its lk cl it n w ap :
    step req (mkSys its lk cl it (InDelete n) w ap)
             (mkSys (Slice_Delete its n) lk cl it InUnlock w ap)
| ingress_unlock its lk cl it w ap :
    step req (mkSys its lk cl it InUnlock w ap)
             (mkSys its None cl it InAfter w ap)
| append_lock its cl it ing w1 item w2 :
    step req (mkSys its None cl it ing (w1 ++ item :: w2) None)
             (mkSys its (Some HAppender) cl it ing (w1 ++ w2) (Some (ApAppend item)))
| append_item its lk cl it ing w item :
    step req (mkSys its lk cl it ing w (Some (ApAppend item)))
             (mkSys (Slice_Append its item) lk cl it ing w (Some ApUnlock))
| append_unlock its lk cl it ing w :
    step req (mkSys its lk cl it ing w (Some ApUnlock))
             (mkSys its None cl it ing w None).

(** The two goroutines alone, as [Dispatch.step] has them. *)
Definition holder (o : Owner) : Holder :=
  match o with
  | Iterator => HIterator
  | Ingress => HIngress
  end.

Definition alone (s : Dispatch.Sys) : Sys :=
  mkSys (Dispatch.items s) (holder <$> Dispatch.lock s) (Dispatch.chan_closed s)
        (Dispatch.iter s) (Dispatch.ingress s) [] None.

(** The state right after [queue.Iter()] returned its channel, with the
    requests [pend] on their way into [Append]. *)
Definition start (queue pend : list ExecRequest) : Sys :=
  mkSys queue None false ItLock (InRecv 0) pend None.

(** A state in which no goroutine can move. *)
Definition stuck (req : ExecRequest) (s : Sys) : Prop :=
  forall s', ~ step req s s'.

(** The loop has been left, the iterator is done, the channel closed, the
    mutex free and every [Append] over: the queue is [queue]. *)
Definition finished (queue : list ExecRequest) : Sys :=
  mkSys queue None true ItDone InAfter [] None.

(** The iterator holds the mutex and waits for a receiver of the item
    behind position [at_]; the Ingress goroutine waits for the mutex inside
    [queue.Delete(at_)]. *)
Definition deadlocked (at_ : nat) (s : Sys) : Prop :=
  lock s = Some HIterator /\ chan_closed s = false
  /\ iter s = ItSend (S at_) /\ ingress s = InLock (Z.of_nat at_)
  /\ appender s = None.

(** The request of the goroutine inside [Append] that is not yet in the
    queue. *)
Definition held (s : Sys) : list ExecRequest :=
  match appender s with
  | Some (ApAppend item) => [item]
  | _ => []
  end.

(** A bound on the steps still to come, for a queue that will never hold
    more than [len] requests. *)
Definition rank (len : nat) (s : Sys) : nat :=
  Run.iter_rank len (iter s) + Run.ingress_rank (ingress s)
  + 3 * length (waiting s)
  + match appender s with
    | Some (ApAppend _) => 2
    | Some ApUnlock => 1
    | None => 0
    end.

(** The length the queue can still reach. *)
Definition room (s : Sys) : nat :=
  length (items s) + length (held s) + length (waiting s).

(** The mutex is held by a goroutine inside [Append] exactly when there
    is one. *)
Definition exclusive (s : Sys) : Prop :=
  match appender s with
  | Some _ => lock s = Some HAppender
  | None => lock s <> Some HAppender
  end.

(** The mutex is free or with a goroutine inside [Append]. *)
Definition unclaimed (s : Sys) : Prop :=
  lock s <> Some HIterator /\ lock s <> Some HIngress.

(** A request for another target than that of [req]. *)
Definition other (req r : ExecRequest) : Prop :=
  Req_TargetId r <> Req_TargetId req.

(** The states of the loop when neither the queue nor a pending [Append]
    has a request for the target of the new request; [app] is what has
    been appended so far. *)
Definition passing_inv (req : ExecRequest) (queue pend : list ExecRequest)
    (s : Sys) : Prop :=
  exists app,
    items s = queue ++ app
    /\ app ++ held s ++ waiting s ≡ₚ pend
    /\ exclusive s
    /\ match iter s, ingress s with
       | ItLock, InRecv _ => chan_closed s = false /\ unclaimed s
       | ItSend i, InRecv _ =>
           i < length (items s) /\ chan_closed s = false
           /\ lock s = Some HIterator
       | ItClose, InRecv _ => chan_closed s = false /\ lock s = Some HIterator
       | ItUnlock, (InRecv _ | InAfter) =>
           chan_closed s = true /\ lock s = Some HIterator
       | ItDone, (InRecv _ | InAfter) => chan_closed s = true /\ unclaimed s
       | _, _ => False
       end.

(** The states of the loop over the queue [front ++ [older]], where
    [older] is the only request in it for the target of the new request. *)
Definition replacing_inv (front : list ExecRequest) (older : ExecRequest)
    (pend : list ExecRequest) (s : Sys) : Prop :=
  let at_ := length front in
  exists app,
    app ++ held s ++ waiting s ≡ₚ pend
    /\ exclusive s
    /\ match iter s, ingress s with
       | ItLock, InRecv n =>
           n = 0%Z /\ items s = front ++ older :: app
           /\ chan_closed s = false /\ unclaimed s
       | ItSend i, InRecv n =>
           i <= at_ /\ n = Z.of_nat i /\ items s = front ++ older :: app
           /\ chan_closed s = false /\ lock s = Some HIterator
       | ItSend i, InLock n =>
           i = S at_ /\ n = Z.of_nat at_ /\ items s = front ++ older :: app
           /\ app <> []
           /\ chan_closed s = false /\ lock s = Some HIterator
       | ItClose, InLock n =>
           n = Z.of_nat at_ /\ items s = front ++ older :: app
           /\ chan_closed s = false /\ lock s = Some HIterator
       | ItUnlock, InLock n =>
           n = Z.of_nat at_ /\ items s = front ++ older :: app
           /\ chan_closed s = true /\ lock s = Some HIterator
       | ItDone, InLock n =>
           n = Z.of_nat at_ /\ items s = front ++ older :: app
           /\ chan_closed s = true /\ unclaimed s
       | ItDone, InDelete n =>
           n = Z.of_nat at_ /\ items s = front ++ older :: app
           /\ chan_closed s = true /\ lock s = Some HIngress
       | ItDone, InUnlock =>
           items s = front ++ app
           /\ chan_closed s = true /\ lock s = Some HIngress
       | ItDone, InAfter =>
           items s = front ++ app /\ chan_closed s = true /\ unclaimed s
       | _, _ => False
       end.

End Appends.

(** ** The command parser ([shell.go]) *)

(** [shellwords.Parser.Parse] of the go-shellwords library, which is not
    part of this repository: the words of the line and the [Position] the
    parser is left with ([-1], or the index at which it stopped); [None] is
    an error. *)
Class ShellEnv := {
  shellwords_Parse : string -> option (list string * Z)
}.

Module Shell.
Section Parse.
Context `{ShellEnv}.

(** [s[n:]]. *)
Definition from (n : nat) (s : string) : string :=
  String.substring n (String.length s - n) s.

(** The loop of [Parse], bounded by [fuel]; [args] is what has been
    appended so far.  [s[parser.Position]] panics outside of the string. *)
Fixpoint loop (fuel : nat) (s : string) (args : list (list string))
    : result (list (list string)) :=
  match fuel with
  | 0 => OutOfFuel
  | S fuel' =>
      match shellwords_Parse s with
      | None => Err "failed to parse"
      | Some (parsed, Position) =>
          if bool_decide (length parsed = 0) then Ok args
          else
            let args := args ++ [parsed] in
            if bool_decide (Position = (-1)%Z) then Ok args
            else if bool_decide (0 <= Position)%Z then
              match String.get (Z.to_nat Position) s with
              | None => Err "index out of range"
              | Some c =>
                  if bool_decide (c = "|"%char)
                  then loop fuel' (from (Z.to_nat (Position + 1)) s) args
                  else loop fuel' s args
              end
            else Err "index out of range"
      end
  end.

(** [Parse]. *)
Definition Parse (fuel : nat) (s : string) : result (list (list string)) :=
  loop fuel s [].

(** [Parse] returns on [s], with the arguments [r] or, for [None], with
    an error. *)
Definition returns (s : string) (r : option (list (list string))) : Prop :=
  exists fuel,
    match Parse fuel s, r with
    | Ok args, Some args' => args = args'
    | Err _, None => True
    | _, _ => False
    end.

End Parse.
End Shell.

(** ** The calls of [cage_shell.Parse] in a run of [runTarget] *)

Module Calls.
Section Calls.
Context `{ExecEnv} `{ShellEnv}.

(** On the expanded command of every exec of the tree of [req],
    [cage_shell.Parse] returns, and [ExecEnv]'s [Parse] is what it
    returns.  A run that meets a command on which it loops never gets
    past that call and has no trace. *)
Definition returning (req : ExecRequest) : Prop :=
  forall t h e cmdExpanded,
    t ∈ Req_Tree req -> h ∈ Tree_Handler t -> e ∈ Handler_Exec h ->
    ExecuteBuffered (Exec_Cmd e) (Dispatch.tmplData req t h) = Some cmdExpanded ->
    Shell.returns cmdExpanded (Parse cmdExpanded).

End Calls.
End Calls.

(** ** The [run] sub-command ([cmd/boone/run]) *)

Module RunCmd.

(** The request [Handler.run] sends for the matched target. *)
Definition request (match_ : Target) : ExecRequest :=
  {| Req_Cause := "run";
     Req_Debounce := 0;
     Req_Event := mkEvent "" 0%N;
     Req_Include := mkGlob "" "";
     Req_Tree := Target_Tree match_;
     Req_TargetId := Target_Id match_;
     Req_TargetLabel := Target_Label match_ |}.

(** The two goroutines that wait on [TreePassCh] and on [TargetFailCh]:
    the exit code of the process after a trace of the dispatcher, [None]
    when neither has received anything.  [NewDispatcher] is given a nil
    [panicCh], so the value of a panic goes nowhere. *)
Fixpoint exits (tr : list Emit) : option Z :=
  match tr with
  | [] => None
  | TreePassCh _ :: _ => Some 0%Z
  | TargetFailCh status :: _ =>
      Some (if bool_decide (Status_Err status <> "") then 1%Z else 0%Z)
  | _ :: rest => exits rest
  end.

End RunCmd.

(** ** Concrete inputs

    A small configuration and environment on which the functions above can
    be evaluated. *)

Module Demo.

(** Templates expand to themselves, a command is one pipeline stage, and
    the second executor call exits non-zero. *)
Definition exec_env : ExecEnv :=
  {| ExecuteBuffered := fun cmd _ => Some cmd;
     Parse := fun cmd => Some [[cmd]];
     filepath_Dir := fun _ => "/proj";
     Buffered := fun calls _ =>
       if bool_decide (calls = 1)
       then mkExecOutcome "" "FAIL" [4242%Z] (Some "exit status 1") None
       else mkExecOutcome "ok" "" [4241%Z] None None |}.

(** The same, but the second call is cut short by its context. *)
Definition cancel_env : ExecEnv :=
  {| ExecuteBuffered := fun cmd _ => Some cmd;
     Parse := fun cmd => Some [[cmd]];
     filepath_Dir := fun _ => "/proj";
     Buffered := fun calls _ =>
       if bool_decide (calls = 1)
       then mkExecOutcome "" "" [4242%Z] (Some "signal: killed")
                          (Some "context canceled")
       else mkExecOutcome "ok" "" [4241%Z] None None |}.

(** The same, but the second call returns no error after its context has
    passed its deadline. *)
Definition timeout_env : ExecEnv :=
  {| ExecuteBuffered := fun cmd _ => Some cmd;
     Parse := fun cmd => Some [[cmd]];
     filepath_Dir := fun _ => "/proj";
     Buffered := fun calls _ =>
       if bool_decide (calls = 1)
       then mkExecOutcome "" "" [4242%Z] None (Some "context deadline exceeded")
       else mkExecOutcome "ok" "" [4241%Z] None None |}.

Definition build : TargetTree :=
  mkTargetTree "build" "Build" [mkHandler "make" [mkExec "make" "/proj" "15m" [] 900]].

Definition test : TargetTree :=
  mkTargetTree "test" "Test"
    [mkHandler "unit" [mkExec "go test" "/proj" "15m" [] 900;
                       mkExec "go vet" "/proj" "15m" [] 900];
     mkHandler "lint" [mkExec "golint" "/proj" "15m" [] 900]].

Definition deploy : TargetTree :=
  mkTargetTree "deploy" "Deploy" [mkHandler "push" [mkExec "push" "/proj" "15m" [] 900]].

Definition include : Glob := mkGlob "/proj/**/*.go" "/proj".

Definition req : ExecRequest :=
  {| Req_Cause := "watcher";
     Req_Debounce := 0;
     Req_Event := mkEvent "/proj/main.go" Write;
     Req_Include := include;
     Req_Tree := [build; test; deploy];
     Req_TargetId := "build";
     Req_TargetLabel := "Build" |}.

(** A request queued for the target with the given id. *)
Definition queued (id : string) : ExecRequest :=
  {| Req_Cause := "resume";
     Req_Debounce := 0;
     Req_Event := mkEvent "" 0%N;
     Req_Include := mkGlob "" "";
     Req_Tree := [];
     Req_TargetId := id;
     Req_TargetLabel := id |}.

(** The dispatcher while the first exec of the second member of the tree
    runs under context 7: [runTarget] is five steps into its trace. *)
Definition running : Dispatch.Dispatcher :=
  Dispatch.mkDispatcher
    (Dispatch.replay 7 (take 5 (Dispatch.runTarget (H := exec_env) req)))
    false [].

(** A filesystem with a new file in a directory nobody watches yet, and
    a matcher that accepts every path. *)
Definition watch_env : WatchEnv :=
  {| watch_Exists := fun path =>
       if bool_decide (path = "/proj/new/x.go") then Found (mkFileInfo false 12)
       else if bool_decide (path = "/proj/b.go") then Found (mkFileInfo false 12)
       else if bool_decide (path = "/proj/pkg") then Found (mkFileInfo true 0)
       else Missing;
     PathMatchAny := fun input => Some (mkMatchAnyOutput true "/proj/**/*.go" "");
     watch_Dir := fun path =>
       if bool_decide (path = "/proj/new/x.go") then "/proj/new" else "/proj";
     watch_Abs := fun path => Some path;
     fsnotify_Add := fun _ => true |}.

(** The same filesystem with a file below the directory "/proj/pkg". *)
Definition tree_env : WatchEnv :=
  {| watch_Exists := fun path =>
       if bool_decide (path = "/proj/pkg/a.go") then Found (mkFileInfo false 7)
       else if bool_decide (path = "/proj/b.go") then Found (mkFileInfo false 12)
       else if bool_decide (path = "/proj/pkg") then Found (mkFileInfo true 0)
       else Missing;
     PathMatchAny := fun input =>
       Some (mkMatchAnyOutput (bool_decide (Match_Name input <> "/proj/pkg"))
                              "/proj/**/*.go" "");
     watch_Dir := fun path =>
       if bool_decide (path = "/proj/pkg/a.go") then "/proj/pkg" else "/proj";
     watch_Abs := fun path => Some path;
     fsnotify_Add := fun _ => true |}.

(** The operation bits as the fsnotify library declares them. *)
Definition fsnotify_ops : FsnotifyOps :=
  {| fsnotify_Create := 1; fsnotify_Write := 2;
     fsnotify_Remove := 4; fsnotify_Rename := 8 |}.

Definition target : Target :=
  {| Target_Debounce := "15s";
     Target_Downstream := [];
     Target_Exclude := [];
     Target_Handler := Tree_Handler build;
     Target_Id := "build";
     Target_Include := [include];
     Target_Label := "Build";
     Target_Root := "/proj";
     Target_Tree := [build];
     Target_Upstream := [];
     Target_debounce := 15 |}.

(** The watcher of [target]: it watches the root and knows one file. *)
Definition watcher : Watch.Watcher :=
  Watch.mkWatcher target
    (<["/proj" := include]> (<["/proj/main.go" := include]> ∅))
    ["/proj"].

(** A glob library that finds nothing for the include pattern, although
    the exclusion patterns match whatever they are asked about. *)
Definition glob_env : GlobEnv :=
  {| doublestar_Glob := fun pattern => Some [];
     doublestar_PathMatch := fun pattern name => Some true;
     FileAncestor := fun name root => Some [root];
     glob_Abs := fun path => Some path |}.

(** A glob library that finds one file for every pattern; every
    exclusion pattern matches it. *)
Definition match_env : GlobEnv :=
  {| doublestar_Glob := fun pattern => Some ["/proj/file.go"];
     doublestar_PathMatch := fun pattern name => Some true;
     FileAncestor := fun name root => Some [root];
     glob_Abs := fun path => Some path |}.

Definition session_old : list Byte.byte := [Byte.x01; Byte.x02; Byte.x03; Byte.x04; Byte.x05].
Definition session_new : list Byte.byte := [Byte.x09; Byte.x08].

(** A session file written by an earlier, longer session. *)
Definition files : gmap string (list Byte.byte) := {[ "/data/session" := session_old ]}.

Definition status (id : string) (cause : TargetStatus) : Status :=
  mkStatus cause "" [] "" "" (mkGlob "" "") "" "" [] "" "" id id "".

(** Every directory exists, durations parse, templates expand to
    themselves, and paths are joined with a slash. *)
Definition config_env : ConfigEnv :=
  {| CreateFileAll := fun _ => true;
     ParseDuration := fun _ => Some 15%Z;
     ExpandFromStringMap := fun _ s => Some s;
     config_Abs := fun path => Some path;
     IsAbs := fun path => String.prefix "/" path;
     config_Exists := fun _ => Found (mkFileInfo true 0);
     Append := fun base path => Some (base +:+ "/" +:+ path) |}.

Definition raw_target : Target :=
  {| Target_Debounce := "";
     Target_Downstream := [];
     Target_Exclude := [mkGlob "vendor/**" ""];
     Target_Handler :=
       [mkHandler "make" [mkExec "make" "" "" [] 0; mkExec "make test" "cmd" "1m" [] 0]];
     Target_Id := "";
     Target_Include := [mkGlob "**/*.go" ""; mkGlob "*.md" "docs"];
     Target_Label := "Build";
     Target_Root := "/proj";
     Target_Tree := [];
     Target_Upstream := [];
     Target_debounce := 0 |}.

(** Two linked targets that are downstream of each other. *)
Definition cyclic : list Target :=
  [ {| Target_Debounce := "15s"; Target_Downstream := [1]; Target_Exclude := [];
       Target_Handler := Tree_Handler build; Target_Id := "build";
       Target_Include := []; Target_Label := "Build"; Target_Root := "/proj";
       Target_Tree := []; Target_Upstream := ["test"]; Target_debounce := 15 |};
    {| Target_Debounce := "15s"; Target_Downstream := [0]; Target_Exclude := [];
       Target_Handler := Tree_Handler test; Target_Id := "test";
       Target_Include := []; Target_Label := "Test"; Target_Root := "/proj";
       Target_Tree := []; Target_Upstream := ["build"]; Target_debounce := 15 |} ].

(** A configuration of two targets, the second downstream of the first
    and started automatically. *)
Definition chain_targets : list Target :=
  [ {| Target_Debounce := ""; Target_Downstream := []; Target_Exclude := [];
       Target_Handler := [mkHandler "make" [mkExec "make" "" "" [] 0]];
       Target_Id := "build"; Target_Include := [mkGlob "**/*.go" ""];
       Target_Label := "Build"; Target_Root := "/proj";
       Target_Tree := []; Target_Upstream := []; Target_debounce := 0 |};
    {| Target_Debounce := "1s"; Target_Downstream := []; Target_Exclude := [];
       Target_Handler := [mkHandler "unit" [mkExec "go test" "cmd" "1m" [] 0]];
       Target_Id := "test"; Target_Include := [];
       Target_Label := "Test"; Target_Root := "/proj";
       Target_Tree := []; Target_Upstream := ["build"]; Target_debounce := 0 |} ].

Definition chain_config : Config :=
  {| Session_File := "";
     Global := mkGlobalConfig "" [] 0;
     Config_Target := chain_targets;
     Template := ∅;
     AutoStartTarget := ["test"];
     startTarget := [] |}.

(** A word splitter that stops at the operator of "a ; b" and of
    "a | b", and reads any other line as one word. *)
Definition shell_env : ShellEnv :=
  {| shellwords_Parse := fun s =>
       if bool_decide (s = "a ; b") then Some (["a"], 2%Z)
       else if bool_decide (s = "a | b") then Some (["a"], 2%Z)
       else Some ([s], (-1)%Z) |}.

Definition raw_config : Config :=
  {| Session_File := "/data/session";
     Global := mkGlobalConfig "" [mkGlob "**/.git" ""] 0;
     Config_Target := [raw_target];
     Template := ∅;
     AutoStartTarget := [];
     startTarget := [] |}.

End Demo.

(** * Theorems *)

(** ** [runTarget]: fail-fast and the failure status *)

Section RunTargetFacts.
Context `{ExecEnv}.
Import Dispatch.

Lemma calm_nil : calm [].
Proof. constructor. Qed.

Lemma calm_app tr1 tr2 : calm tr1 -> calm tr2 -> calm (tr1 ++ tr2).
Proof. unfold calm. intros. by apply Forall_app. Qed.

Lemma passes_app tr1 tr2 : passes (tr1 ++ tr2) = passes tr1 ++ passes tr2.
Proof. unfold passes. apply omap_app. Qed.

Lemma stores_app tr1 tr2 : stores (tr1 ++ tr2) = stores tr1 ++ stores tr2.
Proof. unfold stores. apply omap_app. Qed.

Lemma passes_store id tr : passes (CtxStore id :: tr) = passes tr.
Proof. done. Qed.

Lemma stores_store id tr : stores (CtxStore id :: tr) = id :: stores tr.
Proof. done. Qed.

Lemma inner_nil : inner [].
Proof. by split; [apply calm_nil|]. Qed.

Lemma inner_app tr1 tr2 : inner tr1 -> inner tr2 -> inner (tr1 ++ tr2).
Proof.
  intros (Hc1 & Hp1 & Hs1) (Hc2 & Hp2 & Hs2). split; [by apply calm_app|].
  by rewrite passes_app, stores_app, Hp1, Hp2, Hs1, Hs2.
Qed.

Lemma stopped_app t passed stored tr1 tr2 :
  calm tr1 -> stopped t passed stored tr2 ->
  stopped t (passes tr1 ++ passed) (stores tr1 ++ stored) (tr1 ++ tr2).
Proof.
  intros Hc (pre & l & h & c & m & st & -> & Hpre & Hp & Hs & Hid & Hcause).
  exists (tr1 ++ pre), l, h, c, m, st.
  rewrite <- app_assoc. split; [done|].
  split; [by apply calm_app|]. by rewrite passes_app, stores_app, Hp, Hs.
Qed.

Lemma runExec_shape req t h e calls :
  quiet_or_stopped t (runExec req t h e calls).
Proof.
  unfold runExec.
  destruct (ExecuteBuffered _ _) as [cmdExpanded|]; [|apply inner_nil].
  destruct (Parse cmdExpanded) as [cmdParsed|]; [|apply inner_nil].
  destruct (final_err (Buffered calls cmdParsed)) as [msg|] eqn:Herr; simpl.
  - eexists [TargetStartCh _], _, _, _, _, _. split; [reflexivity|].
    split; [by repeat constructor|]. split; [done|]. split; [done|]. split; [done|].
    simpl. unfold failCause. destruct (out_ctxErr _); [by right | by left].
  - split; [|done]. by repeat constructor.
Qed.

Lemma quiet_or_stopped_seq t tr (r : list Emit * Flow) :
  inner tr -> quiet_or_stopped t r ->
  quiet_or_stopped t (let '(tr', fl') := r in (tr ++ tr', fl')).
Proof.
  intros Hin. destruct r as [tr' [calls'| |msg]]; simpl.
  - by apply inner_app.
  - intros Hs. destruct Hin as (Hc & Hp & Hst).
    pose proof (stopped_app t [] [] tr tr' Hc Hs) as Hs'.
    by rewrite Hp, Hst in Hs'.
  - by apply inner_app.
Qed.

Lemma runExecs_shape req t h es calls :
  quiet_or_stopped t (runExecs req t h es calls).
Proof.
  revert calls. induction es as [|e es IH]; intros calls; simpl.
  - apply inner_nil.
  - pose proof (runExec_shape req t h e calls) as He.
    destruct (runExec req t h e calls) as [tr [calls'| |msg]]; [|done|done].
    by apply (quiet_or_stopped_seq t tr).
Qed.

Lemma runHandlers_shape req t hs calls :
  quiet_or_stopped t (runHandlers req t hs calls).
Proof.
  revert calls. induction hs as [|h hs IH]; intros calls; simpl.
  - apply inner_nil.
  - pose proof (runExecs_shape req t h (Handler_Exec h) calls) as He.
    destruct (runExecs req t h (Handler_Exec h) calls) as [tr [calls'| |msg]];
      [|done|done].
    by apply (quiet_or_stopped_seq t tr).
Qed.

(** The three ways the tree loop ends.  The ids stored are those of the
    targets reached; the targets passed are those in front of a failure. *)
Lemma runTree_shape req ts calls :
  match runTree req ts calls with
  | (tr, Next _) =>
      calm tr /\ passes tr = map Tree_Id ts /\ stores tr = map Tree_Id ts
  | (tr, Return) =>
      exists done t rest,
        ts = done ++ t :: rest
        /\ stopped t (map Tree_Id done) (map Tree_Id (done ++ [t])) tr
  | (tr, Panicked _) => calm tr
  end.
Proof.
  revert calls. induction ts as [|t ts IH]; intros calls; simpl.
  - by split; [apply calm_nil|].
  - pose proof (runHandlers_shape req t (Tree_Handler t) calls) as Hh.
    destruct (runHandlers req t (Tree_Handler t) calls) as [tr [calls'| |msg]].
    + destruct Hh as (Hc & Hp & Hs). specialize (IH calls').
      set (head := CtxStore (Tree_Id t) :: tr ++ [TargetPassCh (mkTargetPass (Tree_Id t))]).
      assert (Hhead : calm head).
      { apply (calm_app [_]); [by repeat constructor|].
        apply calm_app; [done|]. by repeat constructor. }
      assert (Hpass : passes head = [Tree_Id t]).
      { unfold head. by rewrite passes_store, passes_app, Hp. }
      assert (Hstore : stores head = [Tree_Id t]).
      { unfold head. by rewrite stores_store, stores_app, Hs. }
      destruct (runTree req ts calls') as [tr' [calls''| |msg]];
        replace (CtxStore (Tree_Id t) :: tr ++ TargetPassCh (mkTargetPass (Tree_Id t)) :: tr')
          with (head ++ tr')
          by (unfold head; simpl; by rewrite <- app_assoc).
      * destruct IH as (Hc' & Hp' & Hs'). split; [by apply calm_app|].
        by rewrite passes_app, stores_app, Hpass, Hstore, Hp', Hs'.
      * destruct IH as (done & t0 & rest & -> & Hstop).
        exists (t :: done), t0, rest. split; [done|].
        pose proof (stopped_app t0 _ _ head tr' Hhead Hstop) as Hstop'.
        by rewrite Hpass, Hstore in Hstop'.
      * by apply calm_app.
    + exists [], t, ts. split; [done|].
      pose proof (stopped_app t [] [] [CtxStore (Tree_Id t)] tr) as Hstop.
      apply Hstop; [by repeat constructor|done].
    + destruct Hh as (Hc & _). apply (calm_app [_]); [by repeat constructor|done].
Qed.

(** The first failed executor call of a trace is where it is. *)
Lemma first_error_finish pre0 a r pre b post :
  calm pre0 -> Forall (fun e => is_error_finish e = false) r ->
  is_error_finish b = true ->
  pre0 ++ a :: r = pre ++ b :: post ->
  pre = pre0 /\ b = a /\ post = r.
Proof.
  intros Hc Hr Hb. revert pre. induction Hc as [|x pre0 Hx Hc IH]; intros pre Heq.
  - destruct pre as [|e pre]; simpl in Heq.
    + by inversion Heq.
    + inversion Heq; subst. apply Forall_app in Hr as [_ Hr].
      inversion Hr; congruence.
  - destruct pre as [|e pre]; simpl in Heq.
    + inversion Heq; subst. destruct Hx as (_ & Hx & _). congruence.
    + inversion Heq; subst. destruct (IH pre) as (-> & -> & ->); done.
Qed.

Lemma calm_no_error_finish tr e :
  calm tr -> e ∈ tr -> is_error_finish e = false.
Proof.
  intros Hc Hin. unfold calm in Hc. rewrite Forall_forall in Hc.
  by destruct (Hc e Hin) as (_ & ? & _).
Qed.

Lemma deletes_quiet tr :
  Forall (fun e => is_fail e = false /\ is_start e = false
                   /\ is_error_finish e = false /\ is_treepass e = false)
         (deletes tr)
  /\ passes (deletes tr) = [].
Proof.
  unfold deletes. induction (reverse (stores tr)) as [|id ids [IH1 IH2]]; simpl.
  - by split.
  - split; [by constructor|done].
Qed.

Lemma filter_is_fail_none tr :
  Forall (fun e => is_fail e = false) tr -> List.filter is_fail tr = [].
Proof. induction 1 as [|e l He _ IH]; simpl; [done|]. by rewrite He. Qed.

(** C1 (fail-fast).  Whenever an exec of the tree finishes with a non-nil
    error, all [runTarget] does afterwards is to offer one status with cause
    [failed] or [canceled] for the target of that exec and to run the
    deferred deletes of the targets it had reached: nothing is started after
    the failure, no failure status was offered before it, the targets
    reported as passed are exactly the tree members in front of the failing
    one, and no [TreePass] is offered. *)
Theorem runTarget_fail_fast req pre post label handler cmd msg :
  runTarget req = pre ++ LogFinished label handler cmd (Some msg) :: post ->
  exists st done t rest,
    Req_Tree req = done ++ t :: rest
    /\ post = TargetFailCh st
                :: map CtxDelete (reverse (map Tree_Id (done ++ [t])))
    /\ Status_TargetId st = Tree_Id t
    /\ (Status_Cause st = TargetFailed \/ Status_Cause st = TargetCanceled)
    /\ Forall (fun e => is_fail e = false) pre
    /\ length (List.filter is_fail (runTarget req)) = 1
    /\ Forall (fun e => is_start e = false) post
    /\ passes (runTarget req) = map Tree_Id done
    /\ Forall (fun e => is_treepass e = false) (runTarget req).
Proof.
  unfold runTarget. pose proof (runTree_shape req (Req_Tree req) 0) as Hshape.
  destruct (runTree req (Req_Tree req) 0) as [tr [calls| |pmsg]]; intros Heq.
  - destruct Hshape as [Hc _]. exfalso.
    assert (Hin : LogFinished label handler cmd (Some msg)
                  ∈ tr ++ [TreePassCh (mkTreePass (Req_TargetId req))] ++ deletes tr).
    { rewrite Heq. apply elem_of_app. right. apply elem_of_cons. by left. }
    apply elem_of_app in Hin as [Hin|Hin].
    + by apply (calm_no_error_finish _ _ Hc) in Hin.
    + apply elem_of_cons in Hin as [?|Hin]; [done|].
      destruct (deletes_quiet tr) as [Hq _]. rewrite Forall_forall in Hq.
      by destruct (Hq _ Hin) as (_ & _ & ? & _).
  - destruct Hshape as (done & t & rest & Htree & Hs).
    destruct Hs as (pre0 & l0 & h0 & c0 & m0 & st & -> & Hc & Hp & Hst & Hid & Hcause).
    destruct (deletes_quiet (pre0 ++ [LogFinished l0 h0 c0 (Some m0); TargetFailCh st]))
      as [Hq Hqp].
    assert (Hdel : deletes (pre0 ++ [LogFinished l0 h0 c0 (Some m0); TargetFailCh st])
                   = map CtxDelete (reverse (map Tree_Id (done ++ [t])))).
    { unfold deletes. by rewrite stores_app, Hst, app_nil_r. }
    rewrite <- app_assoc in Heq. simpl in Heq.
    apply first_error_finish in Heq as (-> & _ & ->); [|done| |done].
    2:{ constructor; [done|]. eapply Forall_impl; [exact Hq|]. by intros e (_ & _ & ? & _). }
    assert (Hfails : Forall (fun e => is_fail e = false) pre0).
    { eapply Forall_impl; [exact Hc|]. by intros e (? & _). }
    exists st, done, t, rest. split; [done|]. split; [by rewrite Hdel|].
    split; [done|]. split; [done|]. split; [done|]. split.
    { rewrite !List.filter_app, (filter_is_fail_none pre0 Hfails). simpl.
      rewrite filter_is_fail_none; [done|].
      eapply Forall_impl; [exact Hq|]. by intros e (? & _). }
    split.
    { constructor; [done|]. eapply Forall_impl; [exact Hq|]. by intros e (_ & ? & _). }
    split.
    { by rewrite !passes_app, Hp, Hqp, !app_nil_r. }
    apply Forall_app. split.
    { apply Forall_app. split; [|by repeat constructor].
      eapply Forall_impl; [exact Hc|]. by intros e (_ & _ & ?). }
    eapply Forall_impl; [exact Hq|]. by intros e (_ & _ & _ & ?).
  - exfalso.
    assert (Hin : LogFinished label handler cmd (Some msg)
                  ∈ tr ++ deletes tr ++ [PanicCh pmsg]).
    { rewrite Heq. apply elem_of_app. right. apply elem_of_cons. by left. }
    apply elem_of_app in Hin as [Hin|Hin].
    + by apply (calm_no_error_finish _ _ Hshape) in Hin.
    + apply elem_of_app in Hin as [Hin|Hin].
      * destruct (deletes_quiet tr) as [Hq _]. rewrite Forall_forall in Hq.
        by destruct (Hq _ Hin) as (_ & _ & ? & _).
      * by apply list_elem_of_singleton in Hin.
Qed.

Lemma started_app tr tr' : started (tr ++ tr') = started tr + started tr'.
Proof. unfold started. by rewrite List.filter_app, length_app. Qed.

Lemma silent_started tr : silent tr -> started tr = 0.
Proof.
  unfold started. induction 1 as [|e tr [He _] _ IH]; simpl; [done|].
  by rewrite He.
Qed.

Lemma silent_no_fail_next tr : silent tr -> no_fail_next tr.
Proof. intros Hs st. destruct Hs as [|e tr [_ He] _]; simpl; [done|]. by intros [= ->]. Qed.

Lemma no_fail_next_app tr tr' :
  no_fail_next tr -> no_fail_next tr' -> no_fail_next (tr ++ tr').
Proof. intros Ht Ht' st. destruct tr; simpl; [apply Ht'|apply (Ht st)]. Qed.

Lemma reported_app req t h cmd o rest more :
  reported req t h cmd o rest -> no_fail_next more ->
  reported req t h cmd o (rest ++ more).
Proof.
  intros (Hc & Hm & Hn) Hmore. split_and!.
  - intros c Hctx. destruct (Hc c Hctx) as (post & ->). by exists (post ++ more).
  - intros m Hctx Herr. destruct (Hm m Hctx Herr) as (post & ->). by exists (post ++ more).
  - intros Hctx Herr. destruct (Hn Hctx Herr) as (rest' & -> & Hrest').
    exists (rest' ++ more). split; [done|]. by apply no_fail_next_app.
Qed.

(** Where an element of a concatenation lies. *)
Lemma app_eq_cons_inv {A} (l1 l2 pre rest : list A) x :
  l1 ++ l2 = pre ++ x :: rest ->
  (exists mid, l1 = pre ++ x :: mid /\ rest = mid ++ l2)
  \/ (exists mid, pre = l1 ++ mid /\ l2 = mid ++ x :: rest).
Proof.
  revert pre. induction l1 as [|a l1 IH]; intros pre; simpl.
  - intros ->. right. by exists pre.
  - destruct pre as [|b pre]; simpl; intros [= -> Heq].
    + left. by exists l1.
    + destruct (IH _ Heq) as [(mid & -> & ->)|(mid & -> & ->)].
      * left. by exists mid.
      * right. by exists mid.
Qed.

Lemma shows_mono req (execs execs' : TargetTree -> Handler -> Exec -> Prop) calls r :
  (forall t h e, execs t h e -> execs' t h e) ->
  shows req execs calls r -> shows req execs' calls r.
Proof.
  intros Hsub (Ha & Hb & Hc & Hd). split_and!; try done.
  intros pre s rest Heq.
  destruct (Ha pre s rest Heq) as (t & h & e & c & p & He & Hrest).
  exists t, h, e, c, p. split; [by apply Hsub|done].
Qed.

Lemma shows_silent req execs calls tr :
  silent tr -> shows req execs calls (tr, Next calls).
Proof.
  intros Hs. split_and!; simpl.
  - intros pre s rest ->. unfold silent in Hs.
    apply Forall_app in Hs as [_ Hs]. apply Forall_cons in Hs as [[? _] _]. done.
  - intros calls' [= <-]. rewrite silent_started by done. lia.
  - by apply silent_no_fail_next.
  - intros st Hin. unfold silent in Hs. rewrite Forall_forall in Hs. by destruct (Hs _ Hin).
Qed.

Lemma shows_app req execs calls calls' tr tr' fl :
  shows req execs calls (tr, Next calls') ->
  shows req execs calls' (tr', fl) ->
  shows req execs calls (tr ++ tr', fl).
Proof.
  intros (Ha & Hb & Hc & Hd) (Ha' & Hb' & Hc' & Hd'). simpl in *.
  specialize (Hb _ eq_refl). subst calls'. split_and!; simpl.
  - intros pre s rest Heq.
    apply app_eq_cons_inv in Heq as [(mid & -> & ->)|(mid & -> & ->)].
    + destruct (Ha pre s mid eq_refl) as (t & h & e & c & p & ? & ? & ? & ? & Hr).
      exists t, h, e, c, p. split_and!; try done. by apply reported_app.
    + destruct (Ha' mid s rest eq_refl) as (t & h & e & c & p & ? & ? & ? & ? & Hr).
      exists t, h, e, c, p. split_and!; try done.
      by rewrite started_app, Nat.add_assoc.
  - intros calls'' Hfl. rewrite (Hb' _ Hfl), started_app. lia.
  - by apply no_fail_next_app.
  - intros st [Hin|Hin]%elem_of_app.
    + destruct (Hd st Hin) as (pre & s & l & hl & c & m & post & ->).
      exists pre, s, l, hl, c, m, (post ++ tr'). by rewrite <- !app_assoc.
    + destruct (Hd' st Hin) as (pre & s & l & hl & c & m & post & ->).
      exists (tr ++ pre), s, l, hl, c, m, post. by rewrite <- !app_assoc.
Qed.

(** A loop that has left by [return] or [panic] and the deferred calls
    that follow it. *)
Lemma shows_then_silent req execs calls tr fl more :
  shows req execs calls (tr, fl) -> silent more ->
  shows req execs calls (tr ++ more, fl).
Proof.
  intros (Ha & Hb & Hc & Hd) Hs. simpl in *. split_and!; simpl.
  - intros pre s rest Heq.
    apply app_eq_cons_inv in Heq as [(mid & -> & ->)|(mid & -> & ->)].
    + destruct (Ha pre s mid eq_refl) as (t & h & e & c & p & ? & ? & ? & ? & Hr).
      exists t, h, e, c, p. split_and!; try done.
      apply reported_app; [done|]. by apply silent_no_fail_next.
    + unfold silent in Hs.
      apply Forall_app in Hs as [_ Hs]. apply Forall_cons in Hs as [[? _] _]. done.
  - intros calls' Hfl. rewrite (Hb _ Hfl), started_app, (silent_started more) by done. lia.
  - apply no_fail_next_app; [done|]. by apply silent_no_fail_next.
  - intros st [Hin|Hin]%elem_of_app.
    + destruct (Hd st Hin) as (pre & s & l & hl & c & m & post & ->).
      exists pre, s, l, hl, c, m, (post ++ more). by rewrite <- !app_assoc.
    + unfold silent in Hs. rewrite Forall_forall in Hs. by destruct (Hs _ Hin).
Qed.


Lemma runExec_shows req t h e calls :
  shows req (fun t' h' e' => t' = t /\ h' = h /\ e' = e) calls
        (runExec req t h e calls).
Proof.
  unfold runExec. fold (tmplData req t h).
  destruct (ExecuteBuffered _ _) as [cmdExpanded|] eqn:Hexp;
    [|split_and!; simpl; try done;
      [by intros [|??] ?? ?|by intros ? ?%elem_of_nil]].
  destruct (Parse cmdExpanded) as [cmdParsed|] eqn:Hparse;
    [|split_and!; simpl; try done;
      [by intros [|??] ?? ?|by intros ? ?%elem_of_nil]].
  set (o := Buffered calls cmdParsed).
  assert (Hhere : forall pre s rest tl,
            Forall (fun x => is_start x = false) tl ->
            TargetStartCh (startStatus req t h) :: tl = pre ++ TargetStartCh s :: rest ->
            pre = [] /\ s = startStatus req t h /\ rest = tl).
  { intros pre s rest tl Htl Heq. destruct pre as [|x pre]; simpl in Heq.
    - by injection Heq as <- <-.
    - injection Heq as _ ->. apply Forall_app in Htl as [_ Htl].
      by apply Forall_cons in Htl as [? _]. }
  unfold final_err. destruct (out_ctxErr o) as [c|] eqn:Hctx;
    [|destruct (out_err o) as [m|] eqn:Herr]; simpl.
  - split_and!; simpl; try done.
    + intros pre s rest Heq. apply Hhere in Heq as (-> & -> & ->); [|by repeat constructor].
      exists t, h, e, cmdExpanded, cmdParsed. split_and!; try done.
      unfold started; simpl. rewrite Nat.add_0_r. fold o. split_and!.
      * intros c' Hc'. rewrite Hctx in Hc'. injection Hc' as <-. by exists [].
      * intros m Hc'. by rewrite Hctx in Hc'.
      * intros Hc'. by rewrite Hctx in Hc'.
    + intros st Hin. exists []. simpl.
      rewrite !elem_of_cons, elem_of_nil in Hin.
      destruct Hin as [?|[?|[[= ->]|[]]]]; try done. by eexists _, _, _, _, _, [].
  - split_and!; simpl; try done.
    + intros pre s rest Heq. apply Hhere in Heq as (-> & -> & ->); [|by repeat constructor].
      exists t, h, e, cmdExpanded, cmdParsed. split_and!; try done.
      unfold started; simpl. rewrite Nat.add_0_r. fold o. split_and!.
      * intros c' Hc'. by rewrite Hctx in Hc'.
      * intros m' _ Hm'. rewrite Herr in Hm'. injection Hm' as <-. by exists [].
      * intros _ Hm'. by rewrite Herr in Hm'.
    + intros st Hin. exists []. simpl.
      rewrite !elem_of_cons, elem_of_nil in Hin.
      destruct Hin as [?|[?|[[= ->]|[]]]]; try done. by eexists _, _, _, _, _, [].
  - split_and!; simpl; try done.
    + intros pre s rest Heq. apply Hhere in Heq as (-> & -> & ->); [|by repeat constructor].
      exists t, h, e, cmdExpanded, cmdParsed. split_and!; try done.
      unfold started; simpl. rewrite Nat.add_0_r. fold o. split_and!.
      * intros c' Hc'. by rewrite Hctx in Hc'.
      * intros m' _ Hm'. by rewrite Herr in Hm'.
      * intros _ _. by exists [].
    + intros calls' [= <-]. unfold started; simpl. lia.
    + intros st Hin. rewrite !elem_of_cons, elem_of_nil in Hin.
      by destruct Hin as [?|[?|[]]].
Qed.

(** Takes a fact about part of the execs to the execs of the goal. *)
Ltac widen H :=
  match goal with
  | |- shows ?req ?P _ _ => apply (shows_mono req _ P) in H
  end.

Lemma runExecs_shows req t h es calls :
  shows req (fun t' h' e' => t' = t /\ h' = h /\ e' ∈ es) calls
        (runExecs req t h es calls).
Proof.
  revert calls. induction es as [|e es IH]; intros calls; simpl.
  - apply shows_silent. constructor.
  - pose proof (runExec_shows req t h e calls) as He.
    widen He.
    2:{ intros t' h' e' (-> & -> & ->). split_and!; [done..|]. apply elem_of_cons. by left. }
    destruct (runExec req t h e calls) as [tr [calls'| |msg]]; [|done|done].
    specialize (IH calls'). widen IH.
    2:{ intros t' h' e' (-> & -> & Hin). split_and!; [done..|]. apply elem_of_cons. by right. }
    destruct (runExecs req t h es calls') as [tr' fl']. by eapply shows_app.
Qed.

Lemma runHandlers_shows req t hs calls :
  shows req (fun t' h' e' => t' = t /\ h' ∈ hs /\ e' ∈ Handler_Exec h') calls
        (runHandlers req t hs calls).
Proof.
  revert calls. induction hs as [|h hs IH]; intros calls; simpl.
  - apply shows_silent. constructor.
  - pose proof (runExecs_shows req t h (Handler_Exec h) calls) as He.
    widen He.
    2:{ intros t' h' e' (-> & -> & Hin). split_and!; [done| |done]. apply elem_of_cons. by left. }
    destruct (runExecs req t h (Handler_Exec h) calls) as [tr [calls'| |msg]]; [|done|done].
    specialize (IH calls'). widen IH.
    2:{ intros t' h' e' (-> & Hh & Hin). split_and!; [done| |done]. apply elem_of_cons. by right. }
    destruct (runHandlers req t hs calls') as [tr' fl']. by eapply shows_app.
Qed.

Lemma runTree_shows req ts calls :
  shows req (fun t h e => t ∈ ts /\ h ∈ Tree_Handler t /\ e ∈ Handler_Exec h) calls
        (runTree req ts calls).
Proof.
  revert calls. induction ts as [|t ts IH]; intros calls; simpl.
  - apply shows_silent. constructor.
  - pose proof (runHandlers_shows req t (Tree_Handler t) calls) as He.
    widen He.
    2:{ intros t' h' e' (-> & Hh & Hin). split_and!; [|done..]. apply elem_of_cons. by left. }
    assert (Hstore : forall fl tr,
              shows req (fun t0 h e => t0 ∈ t :: ts /\ h ∈ Tree_Handler t0
                                       /\ e ∈ Handler_Exec h) calls (tr, fl) ->
              shows req (fun t0 h e => t0 ∈ t :: ts /\ h ∈ Tree_Handler t0
                                       /\ e ∈ Handler_Exec h) calls
                    (CtxStore (Tree_Id t) :: tr, fl)).
    { intros fl tr Htr. apply (shows_app _ _ calls calls [CtxStore (Tree_Id t)] tr); [|done].
      apply shows_silent. by repeat constructor. }
    destruct (runHandlers req t (Tree_Handler t) calls) as [tr [calls'| |msg]];
      [|by apply Hstore..].
    specialize (IH calls'). widen IH.
    2:{ intros t' h' e' (Ht & Hh & Hin). split_and!; [|done..]. apply elem_of_cons. by right. }
    destruct (runTree req ts calls') as [tr' fl']. apply Hstore.
    eapply shows_app; [exact He|].
    apply (shows_app _ _ calls' calls' [TargetPassCh (mkTargetPass (Tree_Id t))] tr'); [|done].
    apply shows_silent. by repeat constructor.
Qed.

Lemma deletes_silent tr : silent (deletes tr).
Proof. unfold deletes, silent. apply Forall_fmap, Forall_true. done. Qed.

Lemma runTarget_shows req :
  exists fl,
    shows req (fun t h e => t ∈ Req_Tree req /\ h ∈ Tree_Handler t
                            /\ e ∈ Handler_Exec h) 0 (runTarget req, fl).
Proof.
  unfold runTarget. pose proof (runTree_shows req (Req_Tree req) 0) as Ht.
  destruct (runTree req (Req_Tree req) 0) as [tr [calls| |pmsg]].
  - exists (Next calls). apply shows_then_silent; [done|].
    constructor; [done|]. apply deletes_silent.
  - exists Return. apply shows_then_silent; [done|]. apply deletes_silent.
  - exists (Panicked pmsg). apply shows_then_silent; [done|].
    apply Forall_app. split; [apply deletes_silent|by repeat constructor].
Qed.

(** C2 (failure status).  Every exec [runTarget] runs shows its start
    status, and what follows is decided by the outcome of the executor
    call that exec makes, on its own parsed command.  If the per-command
    context reports an error, that error replaces the executor's error,
    also when the executor returned none: the log record carries it and
    the failure status has it as [Err], with [Cause] [canceled].  If the
    context reports none and the executor returned an error, the failure
    status has that error and [Cause] [failed].  If neither did, no
    failure status follows.  And every failure status of the trace is the
    one that follows the start status and the log record of such an
    exec. *)
Theorem runTarget_failure_status req :
  (forall pre s rest,
     runTarget req = pre ++ TargetStartCh s :: rest ->
     exists t h e cmdExpanded cmdParsed,
       t ∈ Req_Tree req /\ h ∈ Tree_Handler t /\ e ∈ Handler_Exec h
       /\ s = startStatus req t h
       /\ ExecuteBuffered (Exec_Cmd e) (tmplData req t h) = Some cmdExpanded
       /\ Parse cmdExpanded = Some cmdParsed
       /\ let o := Buffered (started pre) cmdParsed in
          let finished := LogFinished (Tree_Label t) (Handler_Label h) cmdExpanded in
          (forall c, out_ctxErr o = Some c ->
             exists st post,
               rest = finished (Some c) :: TargetFailCh st :: post
               /\ st = failStatus req t h cmdExpanded o c
               /\ Status_Cause st = TargetCanceled /\ Status_Err st = c)
          /\ (forall m, out_ctxErr o = None -> out_err o = Some m ->
                exists st post,
                  rest = finished (Some m) :: TargetFailCh st :: post
                  /\ st = failStatus req t h cmdExpanded o m
                  /\ Status_Cause st = TargetFailed /\ Status_Err st = m)
          /\ (out_ctxErr o = None -> out_err o = None ->
                exists rest',
                  rest = finished None :: rest'
                  /\ forall st, head rest' <> Some (TargetFailCh st)))
  /\ (forall st,
        TargetFailCh st ∈ runTarget req ->
        exists pre s label handler cmd msg post,
          runTarget req
          = pre ++ TargetStartCh s :: LogFinished label handler cmd (Some msg)
                :: TargetFailCh st :: post).
Proof.
  destruct (runTarget_shows req) as (fl & Ha & _ & _ & Hd). simpl in *.
  split; [|exact Hd].
  intros pre s rest Heq.
  destruct (Ha pre s rest Heq) as (t & h & e & c & p & (? & ? & ?) & ? & ? & ? & Hc & Hm & Hn).
  exists t, h, e, c, p. split_and!; try done.
  - intros c' Hctx. destruct (Hc c' Hctx) as (post & ->).
    eexists _, post. split_and!; try done. simpl. unfold failCause. by rewrite Hctx.
  - intros m Hctx Herr. destruct (Hm m Hctx Herr) as (post & ->).
    eexists _, post. split_and!; try done. simpl. unfold failCause. by rewrite Hctx.
Qed.

End RunTargetFacts.

(** C1 at a concrete run: the first exec of the second target fails, six
    steps into the trace. *)
Lemma runTarget_fail_fast_witness :
  let tr := Dispatch.runTarget (H := Demo.exec_env) Demo.req in
  tr !! 6 = Some (LogFinished "Test" "unit" "go test" (Some "exit status 1"))
  /\ exists st done t rest,
       Req_Tree Demo.req = done ++ t :: rest
       /\ drop 7 tr = TargetFailCh st
                        :: map CtxDelete (reverse (map Tree_Id (done ++ [t])))
       /\ Status_TargetId st = Tree_Id t
       /\ (Status_Cause st = TargetFailed \/ Status_Cause st = TargetCanceled)
       /\ Forall (fun e => Dispatch.is_fail e = false) (take 6 tr)
       /\ length (List.filter Dispatch.is_fail tr) = 1
       /\ Forall (fun e => Dispatch.is_start e = false) (drop 7 tr)
       /\ Dispatch.passes tr = map Tree_Id done
       /\ Forall (fun e => Dispatch.is_treepass e = false) tr.
Proof.
  intros tr. split; [reflexivity|].
  apply (runTarget_fail_fast (H := Demo.exec_env) Demo.req (take 6 tr) (drop 7 tr)
           "Test" "unit" "go test" "exit status 1").
  reflexivity.
Defined.

(** C2 at a concrete run: the second executor call returns no error, but
    its context has timed out. *)
Lemma runTarget_failure_status_witness :
  let tr := Dispatch.runTarget (H := Demo.timeout_env) Demo.req in
  let unit := mkHandler "unit" [mkExec "go test" "/proj" "15m" [] 900;
                                mkExec "go vet" "/proj" "15m" [] 900] in
  let pre := take 5 tr in
  let s := Dispatch.startStatus Demo.req Demo.test unit in
  let rest := drop 6 tr in
  tr = pre ++ TargetStartCh s :: rest
  /\ out_err (Buffered (ExecEnv := Demo.timeout_env) 1 [["go test"]]) = None
  /\ (exists st, tr !! 7 = Some (TargetFailCh st)
                 /\ Status_Cause st = TargetCanceled
                 /\ Status_Err st = "context deadline exceeded")
  /\ exists t h e cmdExpanded cmdParsed,
       t ∈ Req_Tree Demo.req /\ h ∈ Tree_Handler t /\ e ∈ Handler_Exec h
       /\ s = Dispatch.startStatus Demo.req t h
       /\ ExecuteBuffered (ExecEnv := Demo.timeout_env) (Exec_Cmd e)
            (Dispatch.tmplData (H := Demo.timeout_env) Demo.req t h)
          = Some cmdExpanded
       /\ Parse (ExecEnv := Demo.timeout_env) cmdExpanded = Some cmdParsed
       /\ let o := Buffered (ExecEnv := Demo.timeout_env)
                     (Dispatch.started pre) cmdParsed in
          let finished := LogFinished (Tree_Label t) (Handler_Label h) cmdExpanded in
          (forall c, out_ctxErr o = Some c ->
             exists st post,
               rest = finished (Some c) :: TargetFailCh st :: post
               /\ st = Dispatch.failStatus Demo.req t h cmdExpanded o c
               /\ Status_Cause st = TargetCanceled /\ Status_Err st = c)
          /\ (forall m, out_ctxErr o = None -> out_err o = Some m ->
                exists st post,
                  rest = finished (Some m) :: TargetFailCh st :: post
                  /\ st = Dispatch.failStatus Demo.req t h cmdExpanded o m
                  /\ Status_Cause st = TargetFailed /\ Status_Err st = m)
          /\ (out_ctxErr o = None -> out_err o = None ->
                exists rest',
                  rest = finished None :: rest'
                  /\ forall st, head rest' <> Some (TargetFailCh st)).
Proof.
  intros tr unit pre s rest.
  split; [reflexivity|]. split; [reflexivity|].
  split; [eexists; split; [reflexivity|]; split; reflexivity|].
  apply (proj1 (runTarget_failure_status (H := Demo.timeout_env) Demo.req) pre s rest).
  reflexivity.
Defined.

(** ** [Dispatcher.Stop] *)

Section StopFacts.
Import Dispatch.




(** When a run is over, its deferred deletes have emptied [targetCtx]. *)
Example replay_whole_run :
  replay 7 (runTarget (H := Demo.exec_env) Demo.req) = ∅
  /\ replay 7 (runTarget (H := Demo.cancel_env) Demo.req) = ∅.
Proof. by vm_compute. Qed.


End StopFacts.


(** ** The queue replacement loop of [Dispatcher.Start] *)

Section DedupFacts.
Import Dispatch.

Variable req : ExecRequest.



Section Position.
(** The queue holds [older], the first request for the target of [req],
    after [front]. *)
Variables (front back : list ExecRequest) (older : ExecRequest).
Hypothesis front_other :
  Forall (fun r => Req_TargetId r <> Req_TargetId req) front.
Hypothesis older_same : Req_TargetId older = Req_TargetId req.

Let queue := front ++ older :: back.

Lemma iter_at_front i : i <= length front -> iter_at queue i = ItSend i.
Proof.
  intros Hi. unfold iter_at, queue. rewrite bool_decide_eq_true_2; [done|].
  rewrite length_app; simpl. lia.
Qed.

Lemma on_item_front i item n :
  i < length front -> queue !! i = Some item ->
  on_item req item n = InRecv (n + 1).
Proof.
  intros Hi Hitem. unfold queue in Hitem. rewrite lookup_app_l in Hitem by done.
  unfold on_item. rewrite bool_decide_eq_false_2; [done|].
  rewrite Forall_forall in front_other. apply front_other.
  by eapply list_elem_of_lookup_2.
Qed.

Lemma on_item_older item n :
  queue !! length front = Some item -> on_item req item n = InLock n.
Proof.
  unfold queue. rewrite list_lookup_middle by done. intros [= <-].
  unfold on_item. by rewrite bool_decide_eq_true_2.
Qed.

Abbreviation blocked_inv := (Dispatch.blocked_inv (length front) queue).
Abbreviation deadlock := (Dispatch.deadlock (length front) queue).

(** Over [front] the two goroutines move in lockstep. *)
Lemma walk_front i :
  i <= length front ->
  rtc (step req)
    (mkSys queue (Some Iterator) false (ItSend i) (InRecv (Z.of_nat i)))
    (mkSys queue (Some Iterator) false (ItSend (length front))
           (InRecv (Z.of_nat (length front)))).
Proof.
  intros Hi. remember (length front - i) as k eqn:Hk.
  revert i Hi Hk. induction k as [|k IH]; intros i Hi Hk.
  - by replace i with (length front) by lia.
  - destruct (lookup_lt_is_Some_2 queue i) as [item Hitem].
    { unfold queue. rewrite length_app. simpl. lia. }
    eapply rtc_l; [by apply step_rendezvous|].
    rewrite iter_at_front by lia.
    rewrite (on_item_front i item) by (done || lia).
    replace (Z.of_nat i + 1)%Z with (Z.of_nat (S i)) by lia.
    apply IH; lia.
Qed.

Lemma reach_older :
  rtc (step req) (dedup_start queue)
    (mkSys queue (Some Iterator) false (iter_at queue (S (length front)))
           (InLock (Z.of_nat (length front)))).
Proof.
  eapply rtc_l; [apply step_iter_lock|]. rewrite iter_at_front by lia.
  etrans; [apply (walk_front 0); lia|].
  apply rtc_once.
  rewrite <- (on_item_older older (Z.of_nat (length front))).
  - apply step_rendezvous. unfold queue. by rewrite list_lookup_middle.
  - unfold queue. by rewrite list_lookup_middle.
Qed.

(** When [older] is the last request of the queue, the loop removes it
    and keeps the others in order. *)
Lemma dedup_last_replaced :
  back = [] ->
  rtc (step req) (dedup_start queue) (mkSys front None true ItDone InAfter).
Proof.
  intros Hback. etrans; [apply reach_older|].
  assert (Hend : iter_at queue (S (length front)) = ItClose).
  { unfold iter_at, queue. rewrite Hback, bool_decide_eq_false_2; [done|].
    rewrite length_app; simpl. lia. }
  rewrite Hend.
  eapply rtc_l; [apply step_iter_close|].
  eapply rtc_l; [apply step_iter_unlock|].
  eapply rtc_l; [apply step_ingress_lock|].
  eapply rtc_l; [apply step_ingress_delete|].
  eapply rtc_l; [apply step_ingress_unlock|].
  replace (Slice_Delete queue (Z.of_nat (length front))) with front; [done|].
  unfold Slice_Delete, queue. rewrite Hback.
  rewrite !bool_decide_eq_true_2; [|rewrite length_app; simpl; lia|lia].
  simpl. rewrite Nat2Z.id.
  rewrite take_app_length.
  rewrite drop_ge by (rewrite length_app; simpl; lia).
  by rewrite app_nil_r.
Qed.

Hypothesis back_nonempty : back <> [].

Lemma iter_at_behind : iter_at queue (S (length front)) = ItSend (S (length front)).
Proof.
  unfold iter_at, queue. rewrite bool_decide_eq_true_2; [done|].
  rewrite length_app; simpl. destruct back; [done|]. simpl. lia.
Qed.

Lemma blocked_inv_start : blocked_inv (dedup_start queue).
Proof. split; [done|]. split; [done|]. left. done. Qed.

Lemma blocked_inv_step s s' : blocked_inv s -> step req s s' -> blocked_inv s'.
Proof.
  intros (Hitems & Hopen & Hpc) Hstep.
  destruct Hstep as [| ? ? ? ? item ? Hitem | | | | | |]; simpl in *; subst;
    destruct Hpc as [(? & ? & ?)|[(i & Hi & ? & ? & ?)|(? & ? & ?)]];
    simplify_eq.
  - split; [done|]. split; [done|]. right; left. exists 0.
    rewrite iter_at_front by lia. split_and!; [lia|done..].
  - split; [done|]. split; [done|].
    destruct (decide (i = length front)) as [->|Hne].
    + right; right. rewrite iter_at_behind.
      by rewrite (on_item_older item).
    + right; left. exists (S i). rewrite iter_at_front by lia.
      assert (Hlt : i < length front) by lia.
      rewrite (on_item_front i item _ Hlt Hitem).
      split_and!; [lia|done|simpl; f_equal; lia|done].
Qed.

Lemma blocked_inv_rtc s : rtc (step req) (dedup_start queue) s -> blocked_inv s.
Proof.
  intros Hrtc.
  eapply (rtc_ind_r (R := step req)
            (fun s => Dispatch.blocked_inv (length front) queue s));
    [apply blocked_inv_start| |exact Hrtc].
  intros y z _ Hstep Hinv. by eapply blocked_inv_step.
Qed.

(** With something behind [older], the loop never ends and the queue
    never changes, whatever the schedule. *)
Lemma dedup_never_completes s :
  rtc (step req) (dedup_start queue) s ->
  ingress s <> InAfter /\ items s = queue.
Proof.
  intros Hrtc. apply blocked_inv_rtc in Hrtc as (Hitems & _ & Hpc).
  split; [|done].
  destruct Hpc as [(? & -> & ?)|[(i & ? & ? & -> & ?)|(? & -> & ?)]]; done.
Qed.

Lemma deadlock_stuck : stuck req deadlock.
Proof. intros s' Hstep. inversion Hstep. Qed.

(** With something behind [older], the loop runs into the deadlock. *)
Lemma dedup_reaches_deadlock : rtc (step req) (dedup_start queue) deadlock.
Proof. unfold Dispatch.deadlock. rewrite <- iter_at_behind. apply reach_older. Qed.

End Position.
End DedupFacts.

(** C3 on the code.  The queue holds a request for "build" and, behind it,
    one for "test"; a newer request for "build" arrives.  The iterator
    goroutine keeps the slice's mutex while it waits to hand over the second
    item, the Ingress goroutine waits for that mutex inside [queue.Delete]:
    nothing can move any more, under no schedule does the loop end, and the
    older request is still in the queue. *)
Theorem dedup_deadlocks_behind_older :
  let queue := [Demo.queued "build"; Demo.queued "test"] in
  let newer := Demo.queued "build" in
  Dispatch.run newer 10 (Dispatch.dedup_start queue) = Dispatch.deadlock 0 queue
  /\ Dispatch.stuck newer (Dispatch.deadlock 0 queue)
  /\ (forall s, rtc (Dispatch.step newer) (Dispatch.dedup_start queue) s ->
                Dispatch.ingress s <> Dispatch.InAfter
                /\ Dispatch.items s = queue).
Proof.
  intros queue newer. split; [reflexivity|]. split.
  - apply (deadlock_stuck newer [] [Demo.queued "test"] (Demo.queued "build")).
  - apply (dedup_never_completes newer [] [Demo.queued "test"] (Demo.queued "build"));
      [constructor|reflexivity|discriminate].
Qed.

(** The same loop with the older request at the end of the queue: it is
    removed and the request in front of it stays. *)
Example dedup_replaces_last :
  rtc (Dispatch.step (Demo.queued "build"))
    (Dispatch.dedup_start [Demo.queued "test"; Demo.queued "build"])
    (Dispatch.mkSys [Demo.queued "test"] None true Dispatch.ItDone Dispatch.InAfter).
Proof.
  apply (dedup_last_replaced (Demo.queued "build") [Demo.queued "test"] []
           (Demo.queued "build")); [|reflexivity..].
  repeat constructor. discriminate.
Qed.

(** ** [Watcher.Event] *)

Section WatcherFacts.
Context `{WatchEnv}.
Import Watch.

(** An event that is neither a [Write] nor a [Create] returns at the
    first [if]. *)
Lemma Event_dropped w event :
  Event_Op event <> Write -> Event_Op event <> Create ->
  Event w event = quiet w.
Proof.
  intros Hw Hc. unfold Event.
  by rewrite (bool_decide_eq_true_2 _ Hw), (bool_decide_eq_true_2 _ Hc).
Qed.

(** C8, as the code has it.  An [ExecRequest] is sent for [Create] and
    [Write] events only; a [Rename] or [Remove] event is dropped before any
    bookkeeping: the path index and the watch list stay as they were,
    nothing is sent or offered, nothing panics. *)
Theorem Event_only_create_write w event :
  (sent (Event w event) <> [] ->
   Event_Op event = Create \/ Event_Op event = Write)
  /\ (Event_Op event = Rename \/ Event_Op event = Remove ->
      Event w event = mkOutcome w [] [] None).
Proof.
  split.
  - intros Hsent.
    destruct (decide (Event_Op event = Create)) as [|Hc]; [by left|].
    destruct (decide (Event_Op event = Write)) as [|Hw]; [by right|].
    by rewrite Event_dropped in Hsent.
  - intros [Hop|Hop]; apply Event_dropped; rewrite Hop; done.
Qed.

(** C10.  A [Create] event whose parent directory is not in the path
    index changes nothing: no watch is added, no association is stored,
    and no [ExecRequest] is sent, whatever the matcher says of the path.
    Nothing is reported either, unless [os.Stat] or the matcher itself
    fails. *)
Theorem Event_create_unknown_parent w event :
  Event_Op event = Create ->
  W_include w !! watch_Dir (Event_Path event) = None ->
  after (Event w event) = w
  /\ sent (Event w event) = []
  /\ offered (Event w event) = []
  /\ (panicked (Event w event) <> None ->
      (exists msg, watch_Exists (Event_Path event) = ExistsErr msg)
      \/ MatchPath (W_Target w) (Event_Path event) = None).
Proof.
  intros Hop Hdir. unfold Event. rewrite Hop. simpl.
  destruct (watch_Exists (Event_Path event)) as [msg| |fi]; simpl.
  - split_and!; try done. intros _. left. by exists msg.
  - by split_and!.
  - destruct (MatchPath (W_Target w) (Event_Path event)) as [matchRes|]; simpl.
    + rewrite Hdir. by split_and!.
    + split_and!; try done. intros _. by right.
Qed.

End WatcherFacts.

(** C10 at a new file that matches the include pattern, in a directory the
    watcher does not know. *)
Lemma Event_create_unknown_parent_witness :
  let event := mkEvent "/proj/new/x.go" Create in
  let out := Watch.Event (H := Demo.watch_env) Demo.watcher event in
  Match <$> Watch.MatchPath (H := Demo.watch_env) Demo.target "/proj/new/x.go"
  = Some true
  /\ Watch.after out = Demo.watcher
  /\ Watch.sent out = []
  /\ Watch.offered out = []
  /\ (Watch.panicked out <> None ->
      (exists msg, watch_Exists (WatchEnv := Demo.watch_env) "/proj/new/x.go"
                   = ExistsErr msg)
      \/ Watch.MatchPath (H := Demo.watch_env) Demo.target "/proj/new/x.go" = None).
Proof.
  split; [reflexivity|].
  apply (Event_create_unknown_parent (H := Demo.watch_env) Demo.watcher
           (mkEvent "/proj/new/x.go" Create)); reflexivity.
Defined.

(** The same file created in the watched root is stored and triggers the
    target. *)
Example Event_create_known_parent :
  let out := Watch.Event (H := Demo.watch_env) Demo.watcher
               (mkEvent "/proj/b.go" Create) in
  Watch.W_include (Watch.after out) !! "/proj/b.go" = Some Demo.include
  /\ Watch.W_paths (Watch.after out) = ["/proj"]
  /\ Req_TargetId <$> Watch.sent out = ["build"].
Proof. by vm_compute. Qed.

(** C8 as stated fails.  After a [Remove] (or a [Rename]) of a file the
    watcher knows, the path index still holds the file and the watch list is
    the same: the watch set is not updated. *)
Lemma Event_remove_keeps_watch_set :
  let removed := Watch.Event (H := Demo.watch_env) Demo.watcher
                   (mkEvent "/proj/main.go" Remove) in
  let renamed := Watch.Event (H := Demo.watch_env) Demo.watcher
                   (mkEvent "/proj/main.go" Rename) in
  Watch.W_include Demo.watcher !! "/proj/main.go" = Some Demo.include
  /\ Watch.W_include (Watch.after removed) !! "/proj/main.go" = Some Demo.include
  /\ Watch.after removed = Demo.watcher
  /\ Watch.after renamed = Demo.watcher.
Proof. by vm_compute. Qed.

(** ** [GetTargetGlob] *)

Section GlobFacts.
Context `{GlobEnv}.
Import File.

Lemma targetGlob_no_match i exclude root :
  glob_Abs (Root i) = Some root ->
  doublestar_Glob (Pattern i) = Some [] ->
  targetGlob i exclude
  = Some (mkGlobAnyOutput {[ root := mkGlob (Pattern i) root ]} ∅).
Proof.
  intros Habs Hglob. unfold targetGlob, GlobAny. rewrite Habs. simpl.
  rewrite Hglob. simpl. rewrite map_to_list_empty. simpl.
  rewrite map_size_empty. simpl. by rewrite insert_empty.
Qed.

Lemma GetTargetGlob_lookup include exclude list n i :
  GetTargetGlob include exclude = Some list ->
  include !! n = Some i ->
  exists out, targetGlob i exclude = Some out /\ list !! n = Some out.
Proof.
  revert list n. induction include as [|i0 include IH]; intros list n; simpl; [done|].
  destruct (targetGlob i0 exclude) as [out0|] eqn:Hout; [|done].
  destruct (GetTargetGlob include exclude) as [list'|]; [|done].
  intros [= <-]. destruct n as [|n]; simpl.
  - intros [= <-]. by exists out0.
  - intros Hn. by apply IH.
Qed.

(** C7.  When the glob library finds no path for an inclusion pattern,
    the output of [GetTargetGlob] for that inclusion maps its absolute
    root, and nothing else, to the inclusion [Glob], whatever the
    exclusion patterns are and whatever they match. *)
Theorem GetTargetGlob_no_match include exclude list n i :
  GetTargetGlob include exclude = Some list ->
  include !! n = Some i ->
  doublestar_Glob (Pattern i) = Some [] ->
  exists root,
    glob_Abs (Root i) = Some root
    /\ Out_Include <$> list !! n = Some {[ root := mkGlob (Pattern i) root ]}.
Proof.
  intros Hlist Hi Hglob.
  destruct (GetTargetGlob_lookup _ _ _ _ _ Hlist Hi) as (out & Hout & Hn).
  destruct (glob_Abs (Root i)) as [root|] eqn:Habs.
  - exists root. split; [done|].
    rewrite (targetGlob_no_match i exclude root Habs Hglob) in Hout.
    injection Hout as <-. by rewrite Hn.
  - unfold targetGlob in Hout. by rewrite Habs in Hout.
Qed.

End GlobFacts.

(** C7 at an empty root, with exclusion patterns that match everything. *)
Lemma GetTargetGlob_no_match_witness :
  exists root,
    glob_Abs (GlobEnv := Demo.glob_env) (Root Demo.include) = Some root
    /\ Out_Include <$>
         default [] (File.GetTargetGlob (H := Demo.glob_env) [Demo.include]
                       [mkGlob "/proj/**" "/proj"]) !! 0
       = Some {[ root := mkGlob (Pattern Demo.include) root ]}.
Proof.
  apply (GetTargetGlob_no_match (H := Demo.glob_env) [Demo.include]
           [mkGlob "/proj/**" "/proj"] _ 0 Demo.include); reflexivity.
Defined.

(** ** [EncodeToFile] *)

Section GobFacts.
Import Gob.

Lemma write_over_shorter old data :
  length old <= length data -> write_over old data = data.
Proof.
  intros Hlen. unfold write_over. rewrite drop_ge by done. apply app_nil_r.
Qed.

(** What an attempt leaves in the file: the bytes the file accepted,
    followed by the previous bytes behind them. *)
Lemma EncodeToFile_in_place bytes accepted fs name :
  (EncodeToFile true (Some bytes) accepted fs name).1 !! name
  = Some (write_over (default [] (fs !! name)) (take accepted bytes)).
Proof.
  unfold EncodeToFile, OpenFile; simpl.
  destruct (fs !! name) as [old|] eqn:Hold; case_bool_decide; simpl;
    rewrite ?lookup_insert_eq, ?Hold; done.
Qed.

(** C6, as the code has it.  [EncodeToFile] writes into the session file
    itself, from offset 0.  If the file cannot be opened its bytes are
    untouched; if the whole encoding is written over previous contents
    that are not longer than it (or over a missing file), the file holds
    exactly the complete encoding. *)
Theorem EncodeToFile_complete bytes accepted fs name :
  length (default [] (fs !! name)) <= length bytes ->
  length bytes <= accepted ->
  EncodeToFile true (Some bytes) accepted fs name
  = (<[name := bytes]> fs, None)
  /\ forall encoding accepted',
       (EncodeToFile false encoding accepted' fs name).1 = fs.
Proof.
  intros Hold Hall. split; [|done].
  unfold EncodeToFile, OpenFile; simpl.
  rewrite take_ge by done.
  rewrite bool_decide_eq_true_2 by done.
  destruct (fs !! name) as [old|] eqn:Hfs; simpl in *.
  - rewrite Hfs; simpl. by rewrite write_over_shorter.
  - rewrite lookup_insert_eq; simpl. rewrite insert_insert_eq.
    by rewrite write_over_shorter by (simpl; lia).
Qed.

End GobFacts.

(** C6 at the first write of a session file. *)
Lemma EncodeToFile_complete_witness :
  Gob.EncodeToFile true (Some Demo.session_new) 2 ∅ "/data/session"
  = (<["/data/session" := Demo.session_new]> ∅, None)
  /\ forall encoding accepted',
       (Gob.EncodeToFile false encoding accepted' ∅ "/data/session").1 = ∅.
Proof.
  apply (EncodeToFile_complete Demo.session_new 2 ∅ "/data/session");
    vm_compute; lia.
Defined.

(** C6 as stated fails.  A complete, successful write of a session that
    encodes to fewer bytes than the file holds leaves the new bytes followed
    by the tail of the previous ones; and a write that fails after two bytes
    leaves those two bytes in front of the previous ones.  Either way the
    file holds neither the new encoding nor its previous contents. *)
Lemma EncodeToFile_mixes_old_and_new :
  let shorter := Gob.EncodeToFile true (Some Demo.session_new) 2 Demo.files
                   "/data/session" in
  let failed := Gob.EncodeToFile true (Some (Demo.session_new ++ Demo.session_new))
                  2 Demo.files "/data/session" in
  shorter.2 = None
  /\ shorter.1 !! "/data/session"
     = Some [Byte.x09; Byte.x08; Byte.x03; Byte.x04; Byte.x05]
  /\ shorter.1 !! "/data/session" <> Some Demo.session_new
  /\ shorter.1 !! "/data/session" <> Demo.files !! "/data/session"
  /\ failed.2 <> None
  /\ failed.1 !! "/data/session" <> Some (Demo.session_new ++ Demo.session_new)
  /\ failed.1 !! "/data/session" <> Demo.files !! "/data/session".
Proof. by vm_compute. Qed.

(** ** Session resume *)

Section ResumeFacts.
Import Root.

Lemma reclassify_id status :
  Status_TargetId (reclassify status) = Status_TargetId status
  /\ Status_TargetLabel (reclassify status) = Status_TargetLabel status.
Proof. unfold reclassify. by destruct (_ || _). Qed.

(** After the first [if], the cause is [started] exactly for the statuses
    that were in flight. *)
Lemma reclassify_started status :
  Status_Cause (reclassify status) = TargetStarted <-> in_flight status = true.
Proof.
  unfold reclassify, in_flight.
  repeat case_bool_decide; simpl; split; try done; intros; congruence.
Qed.

Lemma reclassify_resumed status :
  in_flight status = true ->
  set_Cause (reclassify status) TargetResumed = set_Cause status TargetResumed.
Proof. intros _. unfold reclassify. by destruct (_ || _). Qed.

Lemma reclassify_other status :
  in_flight status = false -> reclassify status = status.
Proof.
  unfold reclassify, in_flight. intros Hf.
  repeat case_bool_decide; simpl in *; done.
Qed.

Lemma scanTargets_spec targets status :
  scanTargets targets (reclassify status)
  = match target_of targets status with
    | Some t =>
        if in_flight status
        then (set_Cause status TargetResumed, true,
              Some (resumeRequest (set_Cause status TargetResumed) t))
        else (status, true, None)
    | None => (reclassify status, false, None)
    end.
Proof.
  unfold target_of. destruct (reclassify_id status) as [Hid _].
  induction targets as [|t targets IH]; simpl; [done|].
  rewrite Hid. case_bool_decide as Ht; case_decide; try done; simpl.
  - destruct (in_flight status) eqn:Hf.
    + rewrite bool_decide_eq_true_2 by by apply reclassify_started.
      by rewrite reclassify_resumed.
    + rewrite bool_decide_eq_false_2.
      * by rewrite reclassify_other.
      * rewrite reclassify_started. congruence.
  - rewrite IH. by destruct (list_find _ targets) as [[n t']|].
Qed.

(** C5.  The statuses seeded at startup are those of the decoded session
    whose target id is in the configuration, in order, with cause
    [resumed] when they were started, resumed or pending and unchanged
    otherwise; exactly those in-flight ones give a request with cause
    "resume" that carries the target's tree; a status whose target id is
    not in the configuration gives neither.  Before the lookup, every
    in-flight status has been set back to [started]. *)
Theorem resume_spec targets statuses :
  (resume targets statuses).2 = omap (seeded targets) statuses
  /\ (resume targets statuses).1 = omap (resumed targets) statuses
  /\ Forall (fun r => Req_Cause r = "resume") (resume targets statuses).1
  /\ Forall (fun status => in_flight status = true ->
                           Status_Cause (reclassify status) = TargetStarted)
            statuses.
Proof.
  assert (Hboth : (resume targets statuses).2 = omap (seeded targets) statuses
                  /\ (resume targets statuses).1 = omap (resumed targets) statuses).
  { induction statuses as [|status statuses [IH2 IH1]]; simpl; [done|].
    rewrite scanTargets_spec. unfold seeded, resumed.
    destruct (resume targets statuses) as [reqs seed]; simpl in *.
    destruct (target_of targets status) as [t|]; [|by subst].
    destruct (in_flight status); simpl; by subst. }
  destruct Hboth as [H2 H1]. split; [done|]. split; [done|]. split.
  - rewrite H1. apply Forall_forall. intros r Hr.
    apply list_elem_of_omap in Hr as (status & _ & Hr). unfold resumed in Hr.
    destruct (target_of targets status); [|done].
    destruct (in_flight status); [|done]. by injection Hr as <-.
  - apply Forall_forall. intros status _ Hf. by apply reclassify_started.
Qed.

End ResumeFacts.

(** The resume rule on a session with a pending, a failed and an orphaned
    status. *)
Example resume_session :
  Root.resume [Demo.target]
    [Demo.status "build" TargetPending; Demo.status "gone" TargetStarted]
  = ([Root.resumeRequest (Demo.status "build" TargetResumed) Demo.target],
     [Demo.status "build" TargetResumed])
  /\ Root.resume [Demo.target] [Demo.status "build" TargetFailed]
     = ([], [Demo.status "build" TargetFailed]).
Proof. by vm_compute. Qed.

(** ** [FinalizeConfig] *)

Section ConfigFacts.
Context `{ConfigEnv}.
Import Cfg.

Lemma bind_Ok {A B} (e : result A) (k : A -> result B) r :
  mbind k e = Ok r -> exists a, e = Ok a /\ k a = Ok r.
Proof. destruct e as [a| |]; simpl; [|done..]. intros Hk. by exists a. Qed.

Lemma fail_if_Ok cond msg u : fail_if cond msg = Ok u -> cond = false.
Proof. by destruct cond. Qed.

Lemma from_option_Ok {A} (o : option A) msg a : from_option o msg = Ok a -> o = Some a.
Proof. destruct o; simpl; congruence. Qed.














End ConfigFacts.


(** What [FinalizeConfig] makes of the roots and directories of a target. *)
Example FinalizeConfig_resolves :
  match Cfg.FinalizeConfig (H := Demo.config_env) 3 [Demo.raw_target] Demo.raw_config with
  | Ok ([t], c) =>
      Target_Root t = "/proj"
      /\ Root <$> Target_Include t = ["/proj"; "/proj/docs"]
      /\ Pattern <$> Target_Exclude t = ["/proj/vendor/**"; "/proj/**/.git"]
      /\ Exec_Dir <$> (Target_Handler t ≫= Handler_Exec) = ["/proj"; "/proj/cmd"]
      /\ Tree_Id <$> Target_Tree t = ["auto-generated Id: [Build][/proj]"]
  | _ => False
  end.
Proof. by vm_compute. Qed.


(** ** More on [runTarget] and the Ingress goroutine *)

Section RunFacts.
Context `{ExecEnv}.
Import Dispatch Run.

Lemma within_mono ids ids' tr :
  (forall id, id ∈ ids -> id ∈ ids') ->
  Forall (within ids) tr -> Forall (within ids') tr.
Proof.
  intros Hsub Hf. eapply Forall_impl; [exact Hf|].
  intros e [Hl Ha]. split; [done|]. eauto.
Qed.

Lemma runExec_within req t h e calls :
  Forall (within [Tree_Id t]) (runExec req t h e calls).1.
Proof.
  unfold runExec.
  destruct (ExecuteBuffered _ _) as [cmdExpanded|]; [|constructor].
  destruct (Parse cmdExpanded) as [cmdParsed|]; [|constructor].
  destruct (final_err (Buffered calls cmdParsed)) as [msg|]; simpl;
    repeat (apply List.Forall_cons;
            [split; [done|];
             simpl; intros ? ?; simplify_eq; by apply list_elem_of_singleton|]);
    apply List.Forall_nil.
Qed.

Lemma runExecs_within req t h es calls :
  Forall (within [Tree_Id t]) (runExecs req t h es calls).1.
Proof.
  revert calls. induction es as [|e es IH]; intros calls; simpl; [constructor|].
  pose proof (runExec_within req t h e calls) as He.
  destruct (runExec req t h e calls) as [tr [calls'| |msg]]; [|done|done].
  specialize (IH calls'). destruct (runExecs req t h es calls') as [tr' fl'].
  by apply Forall_app.
Qed.

Lemma runHandlers_within req t hs calls :
  Forall (within [Tree_Id t]) (runHandlers req t hs calls).1.
Proof.
  revert calls. induction hs as [|h hs IH]; intros calls; simpl; [constructor|].
  pose proof (runExecs_within req t h (Handler_Exec h) calls) as He.
  destruct (runExecs req t h (Handler_Exec h) calls) as [tr [calls'| |msg]];
    [|done|done].
  specialize (IH calls'). destruct (runHandlers req t hs calls') as [tr' fl'].
  by apply Forall_app.
Qed.

Lemma runTree_within req ts calls :
  Forall (within (map Tree_Id ts)) (runTree req ts calls).1.
Proof.
  revert calls. induction ts as [|t ts IH]; intros calls; simpl; [constructor|].
  pose proof (runHandlers_within req t (Tree_Handler t) calls) as Hh.
  assert (Hhere : forall id, id ∈ [Tree_Id t] -> id ∈ Tree_Id t :: map Tree_Id ts).
  { intros id ->%list_elem_of_singleton. apply elem_of_cons. by left. }
  assert (Hself : within (Tree_Id t :: map Tree_Id ts) (CtxStore (Tree_Id t))).
  { split; [done|]. intros id [= <-]. apply elem_of_cons. by left. }
  destruct (runHandlers req t (Tree_Handler t) calls) as [tr [calls'| |msg]];
    simpl in *.
  - specialize (IH calls'). destruct (runTree req ts calls') as [tr' fl'].
    simpl in *. constructor; [done|]. apply Forall_app. split.
    + by eapply within_mono.
    + constructor.
      * split; [done|]. intros id [= <-]. apply elem_of_cons. by left.
      * eapply within_mono; [|exact IH]. intros id Hid. apply elem_of_cons. by right.
  - constructor; [done|]. by eapply within_mono.
  - constructor; [done|]. by eapply within_mono.
Qed.

Lemma count_app kind tr1 tr2 : count kind (tr1 ++ tr2) = count kind tr1 + count kind tr2.
Proof. unfold count. by rewrite List.filter_app, length_app. Qed.

Lemma count_none kind tr :
  Forall (fun e => kind e = false) tr -> count kind tr = 0.
Proof.
  unfold count. induction 1 as [|e l He _ IH]; simpl; [done|]. by rewrite He.
Qed.

Lemma count_deletes kind tr :
  (forall id, kind (CtxDelete id) = false) -> count kind (deletes tr) = 0.
Proof.
  intros Hk. apply count_none. unfold deletes. apply Forall_fmap, Forall_true.
  intros id. apply Hk.
Qed.

Lemma calm_counts tr :
  calm tr -> count is_fail tr = 0 /\ count is_treepass tr = 0.
Proof.
  intros Hc. split; apply count_none; eapply Forall_impl; try exact Hc.
  - by intros e (? & _).
  - by intros e (_ & _ & ?).
Qed.

Lemma within_no_panic ids tr : Forall (within ids) tr -> count is_panic tr = 0.
Proof.
  intros Hw. apply count_none. eapply Forall_impl; [exact Hw|].
  intros e [Hl _]. by destruct e.
Qed.

(** X1.  A run of [runTarget] in which [cage_shell.Parse] returns on the
    command of every exec, with the results the run goes by, has exactly
    one of three outcomes: a [TreePass], one failure status, or a
    recovered panic.  A [TreePass] is offered only after every member of
    the tree passed, in tree order, and the value of a panic is the last
    thing the run offers. *)
Theorem runTarget_outcome `{ShellEnv} req :
  Calls.returning req ->
  count is_fail (runTarget req) + count is_treepass (runTarget req)
  + count is_panic (runTarget req) = 1
  /\ (count is_treepass (runTarget req) = 1 ->
      passes (runTarget req) = map Tree_Id (Req_Tree req))
  /\ (count is_panic (runTarget req) = 1 ->
      exists msg, last (runTarget req) = Some (PanicCh msg)).
Proof.
  intros _. unfold runTarget.
  pose proof (runTree_shape req (Req_Tree req) 0) as Hshape.
  pose proof (runTree_within req (Req_Tree req) 0) as Hwithin.
  destruct (runTree req (Req_Tree req) 0) as [tr [calls| |pmsg]]; simpl in Hwithin.
  - destruct Hshape as (Hc & Hp & _). destruct (calm_counts _ Hc) as [Hf Ht].
    rewrite !count_app, Hf, Ht, (within_no_panic _ _ Hwithin).
    rewrite !count_deletes by done. split; [done|]. split; [|done].
    intros _. rewrite !passes_app, Hp.
    destruct (deletes_quiet tr) as [_ ->]. by rewrite !app_nil_r.
  - destruct Hshape as (done & t & rest & _ & Hs).
    destruct Hs as (pre & l & h & c & m & st & -> & Hc & _).
    destruct (calm_counts _ Hc) as [Hf Ht].
    apply Forall_app in Hwithin as [Hwithin _].
    rewrite !count_app, Hf, Ht, (within_no_panic _ _ Hwithin).
    rewrite !count_deletes by done. by split.
  - destruct (calm_counts _ Hshape) as [Hf Ht].
    rewrite !count_app, Hf, Ht, (within_no_panic _ _ Hwithin).
    rewrite !count_deletes by done. split; [done|]. split; [done|].
    intros _. exists pmsg. by rewrite app_assoc, last_snoc.
Qed.

Lemma replay_is_from treeCtx tr : replay treeCtx tr = replay_from treeCtx ∅ tr.
Proof. done. Qed.

Lemma replay_from_app treeCtx m tr1 tr2 :
  replay_from treeCtx m (tr1 ++ tr2)
  = replay_from treeCtx (replay_from treeCtx m tr1) tr2.
Proof. unfold replay_from. apply foldl_app. Qed.

(** In the tree loop entries are only added: a key is there afterwards
    exactly if it was there before or has been stored. *)
Lemma replay_from_loop treeCtx ids m tr k :
  Forall (within ids) tr ->
  replay_from treeCtx m tr !! k
  = if decide (k ∈ stores tr) then Some (mkTargetContext treeCtx treeCtx) else m !! k.
Proof.
  intros Hw. revert m. induction Hw as [|e tr [Hl _] _ IH]; intros m.
  - simpl. done.
  - change (e :: tr) with ([e] ++ tr). rewrite replay_from_app, IH, stores_app.
    destruct e as [| | | | | |id|id]; try done. simpl.
    destruct (decide (k ∈ stores tr)) as [Hk|Hk],
             (decide (k ∈ id :: stores tr)) as [Hk'|Hk']; try done.
    + exfalso. apply Hk', elem_of_cons. by right.
    + apply elem_of_cons in Hk' as [->|?]; [|done]. by rewrite lookup_insert_eq.
    + rewrite lookup_insert_ne; [done|]. intros ->. apply Hk', elem_of_cons. by left.
Qed.

(** The deferred deletes remove their keys and nothing else. *)
Lemma replay_from_deletes treeCtx m ids k :
  replay_from treeCtx m (map CtxDelete ids) !! k
  = if decide (k ∈ ids) then None else m !! k.
Proof.
  revert m. induction ids as [|id ids IH]; intros m.
  - simpl. done.
  - change (map CtxDelete (id :: ids)) with ([CtxDelete id] ++ map CtxDelete ids).
    rewrite replay_from_app, IH. simpl.
    destruct (decide (k ∈ ids)) as [Hk|Hk],
             (decide (k ∈ id :: ids)) as [Hk'|Hk']; try done.
    + exfalso. apply Hk', elem_of_cons. by right.
    + apply elem_of_cons in Hk' as [->|?]; [|done]. by rewrite lookup_delete_eq.
    + rewrite lookup_delete_ne; [done|]. intros ->. apply Hk', elem_of_cons. by left.
Qed.

(** X2.  However [runTarget] ends (tree pass, failure or panic), the
    deferred deletes have removed every entry it stored: a [targetCtx] that
    was empty before the run is empty after it. *)
Theorem runTarget_clears_targetCtx treeCtx req :
  replay treeCtx (runTarget req) = ∅.
Proof.
  rewrite replay_is_from. unfold runTarget.
  pose proof (runTree_within req (Req_Tree req) 0) as Hw.
  destruct (runTree req (Req_Tree req) 0) as [tr fl]; simpl in Hw.
  assert (Hdel : forall (m : gmap string TargetContext) k,
             replay_from treeCtx (replay_from treeCtx m tr) (deletes tr) !! k
             = if decide (k ∈ stores tr) then None else m !! k).
  { intros m k. unfold deletes. rewrite replay_from_deletes.
    rewrite (replay_from_loop _ _ _ _ _ Hw).
    destruct (decide (k ∈ reverse (stores tr))) as [Hk|Hk],
             (decide (k ∈ stores tr)) as [Hk'|Hk']; try done; exfalso.
    - by rewrite elem_of_reverse in Hk.
    - by rewrite elem_of_reverse in Hk. }
  apply map_eq. intros k. rewrite lookup_empty.
  destruct fl as [calls| |pmsg].
  - rewrite replay_from_app. rewrite (replay_from_app _ _ [_]). simpl.
    rewrite Hdel. by case_decide.
  - rewrite replay_from_app, Hdel. by case_decide.
  - rewrite replay_from_app, replay_from_app. simpl.
    rewrite Hdel. by case_decide.
Qed.

(** X3.  Every status a run offers, every pass it reports and every key it
    stores into or deletes from [targetCtx] belongs to a member of the
    request's tree. *)
Theorem runTarget_about_tree req e id :
  e ∈ runTarget req -> about e = Some id -> id ∈ map Tree_Id (Req_Tree req).
Proof.
  unfold runTarget.
  pose proof (runTree_within req (Req_Tree req) 0) as Hw.
  destruct (runTree req (Req_Tree req) 0) as [tr fl]; simpl in Hw.
  assert (Hloop : e ∈ tr -> about e = Some id -> id ∈ map Tree_Id (Req_Tree req)).
  { intros Hin Ha. rewrite Forall_forall in Hw. destruct (Hw e Hin) as [_ Hid]. eauto. }
  assert (Hdel : e ∈ deletes tr -> about e = Some id -> id ∈ map Tree_Id (Req_Tree req)).
  { unfold deletes. intros (id' & -> & Hid)%list_elem_of_fmap [= <-].
    rewrite elem_of_reverse in Hid. unfold stores in Hid.
    apply list_elem_of_omap in Hid as (e' & He' & Hs).
    rewrite Forall_forall in Hw. destruct (Hw e' He') as [_ Hid].
    apply Hid. by destruct e'; simplify_eq. }
  destruct fl as [calls| |pmsg]; rewrite ?elem_of_app, ?elem_of_cons, ?elem_of_nil.
  - intros [?|[[->|?]|?]]; by eauto.
  - intros [?|?]; by eauto.
  - intros [?|[?|[->|[]]]]; by eauto.
Qed.

End RunFacts.

Lemma demo_returning :
  Calls.returning (H := Demo.exec_env) (H0 := Demo.shell_env) Demo.req.
Proof.
  intros t h e cmd Ht Hh He [= <-]. exists 1.
  cbn in Ht. rewrite !elem_of_cons, elem_of_nil in Ht.
  destruct Ht as [->|[->|[->|[]]]]; cbn in Hh;
    rewrite ?elem_of_cons, elem_of_nil in Hh;
    repeat (destruct Hh as [->|Hh]); try done; cbn in He;
    rewrite ?elem_of_cons, elem_of_nil in He;
    repeat (destruct He as [->|He]); try done.
Qed.

(** X1 at a run whose second executor call fails. *)
Lemma runTarget_outcome_witness :
  let tr := Dispatch.runTarget (H := Demo.exec_env) Demo.req in
  Run.count Dispatch.is_fail tr + Run.count Dispatch.is_treepass tr
  + Run.count Run.is_panic tr = 1
  /\ (Run.count Dispatch.is_treepass tr = 1 ->
      Dispatch.passes tr = map Tree_Id (Req_Tree Demo.req))
  /\ (Run.count Run.is_panic tr = 1 -> exists msg, last tr = Some (PanicCh msg)).
Proof.
  apply (runTarget_outcome (H := Demo.exec_env) (H0 := Demo.shell_env) Demo.req).
  apply demo_returning.
Defined.

(** X3 on the failure status of the demo run, which is about "test". *)
Lemma runTarget_about_tree_witness :
  "test" ∈ map Tree_Id (Req_Tree Demo.req).
Proof.
  apply (runTarget_about_tree (H := Demo.exec_env) Demo.req
           (TargetFailCh
              (Dispatch.failStatus Demo.req Demo.test
                 (mkHandler "unit" []) "go test"
                 (mkExecOutcome "" "FAIL" [4242%Z] (Some "exit status 1") None)
                 "exit status 1"))
           "test").
  - vm_compute. do 7 right. left.
  - reflexivity.
Defined.

(** ** The replacement loop under every schedule *)

Section LoopFacts.
Import Dispatch Run.

Variable req : ExecRequest.

Lemma Slice_Delete_length {A} (l : list A) idx :
  length (Slice_Delete l idx) <= length l.
Proof.
  unfold Slice_Delete. destruct (_ && _); [|done].
  rewrite length_app, length_take, length_drop. lia.
Qed.









End LoopFacts.


(** ** The replacement loop and [queue.Append] *)

Section AppendFacts.
Import Dispatch Appends.
Variable req : ExecRequest.

(** Every step uses up some of the rank, appends included. *)
Lemma append_rank_step len s s' :
  step req s s' -> room s <= len ->
  rank len s' < rank len s /\ room s' <= len.
Proof.
  intros Hstep Hlen.
  destruct Hstep as [| ? ? ? index item ? ? ? Hitem | | | | | its ? ? ? n | | | |];
    unfold rank, room, held in *; simpl in *.
  - unfold iter_at. case_bool_decide; simpl; lia.
  - apply lookup_lt_Some in Hitem. unfold iter_at, on_item.
    repeat case_bool_decide; simpl; lia.
  - lia.
  - lia.
  - lia.
  - lia.
  - pose proof (Slice_Delete_length its n). lia.
  - lia.
  - rewrite !length_app in *. simpl in *. lia.
  - unfold Slice_Append. rewrite length_app. simpl. lia.
  - lia.
Qed.

Lemma append_nsteps_rank len n s s' :
  nsteps (step req) n s s' -> room s <= len ->
  n + rank len s' <= rank len s.
Proof.
  induction 1 as [|n x y z Hstep _ IH]; intros Hlen; [lia|].
  destruct (append_rank_step len x y Hstep Hlen) as [Hlt Hlen']. specialize (IH Hlen'). lia.
Qed.

(** X4.  The replacement loop cannot go on forever, also while debounced
    requests are enqueued: from the moment [queue.Iter()] has returned,
    the iterator, the Ingress goroutine and the goroutines on their way
    into [queue.Append] together take at most
    [length queue + 4 * length pend + 8] steps, whatever the queue holds
    and however they are scheduled. *)
Theorem dedup_bounded queue pend n s :
  nsteps (step req) n (start queue pend) s ->
  n <= length queue + 4 * length pend + 8.
Proof.
  intros Hn. apply (append_nsteps_rank (length queue + length pend)) in Hn.
  - unfold rank in Hn; simpl in Hn. lia.
  - unfold room; simpl. lia.
Qed.


Lemma passing_inv_start queue pend : passing_inv req queue pend (start queue pend).
Proof.
  exists []. unfold exclusive, unclaimed, held; simpl.
  rewrite app_nil_r. split_and!; done.
Qed.

(** What has been appended comes from the pending requests. *)
Lemma appended_other pend app hd w :
  Forall (other req) pend -> app ++ hd ++ w ≡ₚ pend -> Forall (other req) app.
Proof. intros Hp Hperm. rewrite <- Hperm in Hp. by apply Forall_app in Hp as [? _]. Qed.

(** Closes the cases of an invariant after a step. *)
Ltac settle app :=
  destruct_and?; exists app; unfold iter_at, on_item;
  repeat case_bool_decide; simpl in *;
  split_and?; try done; try lia; try congruence.

Lemma passing_inv_step queue pend s s' :
  Forall (other req) queue -> Forall (other req) pend ->
  passing_inv req queue pend s -> step req s s' -> passing_inv req queue pend s'.
Proof.
  intros Hq Hp (app & Hitems & Hperm & Hex & Hpc) Hstep.
  pose proof (appended_other _ _ _ _ Hp Hperm) as Happ.
  destruct Hstep as [its cl ing w ap| its lk cl index item n w ap Hitem
                    | its lk cl ing w ap | its lk cl ing w ap
                    | its lk it n w ap | its cl it n w ap
                    | its lk cl it n w ap | its lk cl it w ap
                    | its cl it ing w1 item w2 | its lk cl it ing w item
                    | its lk cl it ing w ];
    unfold passing_inv, exclusive, unclaimed, held in *; simpl in *.
  - destruct ing; try done. destruct ap as [[?|]|]; try done. settle app.
  - destruct Hpc as (Hi & -> & ->). destruct ap as [[?|]|]; try done.
    assert (Hother : other req item).
    { assert (Hall : Forall (other req) its) by (subst its; by apply Forall_app).
      rewrite Forall_forall in Hall. apply Hall. by eapply list_elem_of_lookup_2. }
    unfold other in Hother. settle app.
  - destruct ing; try done; destruct Hpc as (-> & ->); settle app.
  - destruct ing; try done; destruct Hpc as (-> & ->);
      destruct ap as [[?|]|]; try done; settle app.
  - destruct it; try done; settle app; naive_solver.
  - by destruct it.
  - by destruct it.
  - by destruct it.
  - destruct it, ing; try done; settle app.
    all: rewrite <- Hperm; by rewrite Permutation_middle.
  - subst lk. destruct it, ing; try done; destruct_and?; try done.
    all: exists (app ++ [item]); unfold Slice_Append; subst its;
      rewrite <- !app_assoc; split_and!; try done.
  - subst lk. destruct it, ing; try done; settle app.
Qed.


(** A goroutine inside [Append] can always move. *)
Lemma appender_moves its lk cl it ing w ap :
  stuck req (mkSys its lk cl it ing w (Some ap)) -> False.
Proof.
  intros Hstuck. destruct ap as [item|].
  - eapply Hstuck. apply append_item.
  - eapply Hstuck. apply append_unlock.
Qed.

(** So can one at [Lock] when the mutex is free. *)
Lemma waiting_moves its cl it ing item w :
  stuck req (mkSys its None cl it ing (item :: w) None) -> False.
Proof. intros Hstuck. eapply Hstuck. apply (append_lock req _ _ _ _ [] item w). Qed.

Lemma passing_inv_stuck queue pend s :
  passing_inv req queue pend s -> stuck req s ->
  exists app, app ≡ₚ pend /\ s = finished (queue ++ app).
Proof.
  intros (app & Hitems & Hperm & Hex & Hpc) Hstuck.
  destruct s as [its lk cl it ing w ap].
  unfold exclusive, unclaimed, held in *; simpl in *.
  destruct ap as [ap|]; [by apply appender_moves in Hstuck|].
  destruct it as [|i| | |], ing; try done; destruct_and?; subst.
  - destruct lk as [[| |]|]; try done. exfalso. eapply Hstuck. apply iter_lock.
  - destruct (lookup_lt_is_Some_2 (queue ++ app) i) as [item Hitem]; [done|].
    exfalso. eapply Hstuck. by apply rendezvous.
  - exfalso. eapply Hstuck. apply iter_close.
  - exfalso. eapply Hstuck. apply iter_unlock.
  - exfalso. eapply Hstuck. apply iter_unlock.
  - exfalso. eapply Hstuck. apply range_end.
  - destruct lk as [[| |]|]; try done.
    destruct w as [|item w]; [|by apply waiting_moves in Hstuck].
    exists app. split; [|done]. by rewrite !app_nil_r in Hperm.
Qed.

Lemma passing_inv_rtc queue pend s :
  Forall (other req) queue -> Forall (other req) pend ->
  rtc (step req) (start queue pend) s -> passing_inv req queue pend s.
Proof.
  intros Hq Hp Hrtc.
  eapply (rtc_ind_r (R := step req) (fun s => passing_inv req queue pend s));
    [apply passing_inv_start| |exact Hrtc].
  intros y z _ Hstep Hinv. by eapply passing_inv_step.
Qed.

(** X5.  When neither the queue nor a request on its way into
    [queue.Append] is for the target of the new request, the replacement
    loop ends under every schedule: the steps are bounded, and a state in
    which nothing can move is the one in which the loop has been left.
    Nothing is ever deleted: the queue is at all times the old queue
    followed by requests that have been appended, and in the end by all of
    them. *)
Theorem dedup_no_match queue pend :
  Forall (fun r => Req_TargetId r <> Req_TargetId req) queue ->
  Forall (fun r => Req_TargetId r <> Req_TargetId req) pend ->
  forall n s,
    nsteps (step req) n (start queue pend) s ->
    n <= length queue + 4 * length pend + 8
    /\ (exists app, items s = queue ++ app /\ app ⊆+ pend)
    /\ (stuck req s ->
        exists app, app ≡ₚ pend /\ s = finished (queue ++ app)).
Proof.
  intros Hq Hp n s Hn. split_and!.
  - apply (append_nsteps_rank (length queue + length pend)) in Hn.
    + unfold rank in Hn; simpl in Hn. lia.
    + unfold room; simpl. lia.
  - apply rtc_nsteps_2 in Hn. apply passing_inv_rtc in Hn; [|done..].
    destruct Hn as (app & Hitems & Hperm & _). exists app. split; [done|].
    rewrite <- Hperm. by apply submseteq_inserts_r.
  - apply rtc_nsteps_2 in Hn. apply passing_inv_rtc in Hn; [|done..].
    by apply passing_inv_stuck.
Qed.


Lemma Slice_Delete_middle {A} (front : list A) older back :
  Slice_Delete (front ++ older :: back) (Z.of_nat (length front)) = front ++ back.
Proof.
  unfold Slice_Delete.
  rewrite !bool_decide_eq_true_2; [|rewrite length_app; simpl; lia|lia].
  simpl. rewrite Nat2Z.id, take_app_length. f_equal.
  rewrite cons_middle, app_assoc. apply drop_app_length'.
  rewrite length_app. simpl. lia.
Qed.

Lemma replacing_inv_start front older pend :
  replacing_inv front older pend (start (front ++ [older]) pend).
Proof. exists []. unfold exclusive, unclaimed, held; simpl. split_and!; done. Qed.

Lemma replacing_inv_step front older pend s s' :
  Forall (other req) front ->
  Req_TargetId older = Req_TargetId req ->
  replacing_inv front older pend s -> step req s s' ->
  replacing_inv front older pend s'.
Proof.
  intros Hfront Holder (app & Hperm & Hex & Hpc) Hstep.
  destruct Hstep as [its cl ing w ap| its lk cl index item n w ap Hitem
                    | its lk cl ing w ap | its lk cl ing w ap
                    | its lk it n w ap | its cl it n w ap
                    | its lk cl it n w ap | its lk cl it w ap
                    | its cl it ing w1 item w2 | its lk cl it ing w item
                    | its lk cl it ing w ];
    unfold replacing_inv, exclusive, unclaimed, held in *; simpl in *.
  - destruct ing; try done. destruct ap as [[?|]|]; try done.
    destruct_and?; subst. exists app. unfold iter_at.
    rewrite bool_decide_eq_true_2 by (rewrite length_app; simpl; lia).
    simpl. split_and!; try done. lia.
  - destruct Hpc as (Hi & -> & -> & -> & ->). destruct ap as [[?|]|]; try done.
    exists app. destruct (decide (index = length front)) as [->|Hne].
    + rewrite list_lookup_middle in Hitem by done. simplify_eq.
      unfold on_item. rewrite bool_decide_eq_true_2 by done.
      unfold iter_at. case_bool_decide as Hlen; simpl; split_and!; try done.
      intros ->. rewrite length_app in Hlen. simpl in Hlen. lia.
    + assert (Hlt : index < length front) by lia.
      rewrite lookup_app_l in Hitem by done.
      unfold on_item. rewrite bool_decide_eq_false_2.
      2:{ rewrite Forall_forall in Hfront. apply Hfront.
          by eapply list_elem_of_lookup_2. }
      unfold iter_at.
      rewrite bool_decide_eq_true_2 by (rewrite length_app; simpl; lia).
      simpl. split_and!; try done; lia.
  - destruct ing; try done. settle app.
  - destruct ing; try done. destruct ap as [[?|]|]; settle app.
  - destruct it; try done; destruct_and?; done.
  - destruct it; try done; destruct ap as [[?|]|]; try done; settle app.
  - destruct it; try done. destruct_and?; subst. exists app.
    rewrite Slice_Delete_middle. split_and!; done.
  - destruct it; try done. destruct ap as [[?|]|]; settle app.
  - destruct it, ing; try done; settle app.
    all: rewrite <- Hperm; by rewrite Permutation_middle.
  - subst lk. destruct it, ing; try done; destruct_and?; try done.
    all: exists (app ++ [item]); unfold Slice_Append; subst its;
      rewrite <- ?app_assoc; simpl; split_and!; try done.
  - subst lk. destruct it, ing; try done; settle app.
Qed.


Lemma replacing_inv_rtc front older pend s :
  Forall (other req) front ->
  Req_TargetId older = Req_TargetId req ->
  rtc (step req) (start (front ++ [older]) pend) s ->
  replacing_inv front older pend s.
Proof.
  intros Hfront Holder Hrtc.
  eapply (rtc_ind_r (R := step req) (fun s => replacing_inv front older pend s));
    [apply replacing_inv_start| |exact Hrtc].
  intros y z _ Hstep Hinv. by eapply replacing_inv_step.
Qed.

Lemma replacing_inv_stuck front older pend s :
  replacing_inv front older pend s -> stuck req s ->
  (exists app, app ≡ₚ pend /\ s = finished (front ++ app))
  \/ (deadlocked (length front) s
      /\ exists app, app <> [] /\ items s = front ++ older :: app
                     /\ app ++ waiting s ≡ₚ pend).
Proof.
  intros (app & Hperm & Hex & Hpc) Hstuck.
  destruct s as [its lk cl it ing w ap].
  unfold exclusive, unclaimed, held, deadlocked in *; simpl in *.
  destruct ap as [ap|]; [by apply appender_moves in Hstuck|].
  destruct it as [|i| | |], ing; try done; destruct_and?; subst.
  - destruct lk as [[| |]|]; try done. exfalso. eapply Hstuck. apply iter_lock.
  - destruct (lookup_lt_is_Some_2 (front ++ older :: app) i) as [item Hitem].
    { rewrite length_app. simpl. lia. }
    exfalso. eapply Hstuck. by apply rendezvous.
  - right. split; [done|]. by exists app.
  - exfalso. eapply Hstuck. apply iter_close.
  - exfalso. eapply Hstuck. apply iter_unlock.
  - destruct lk as [[| |]|]; try done. exfalso. eapply Hstuck. apply ingress_lock.
  - exfalso. eapply Hstuck. apply ingress_delete.
  - exfalso. eapply Hstuck. apply ingress_unlock.
  - destruct lk as [[| |]|]; try done.
    destruct w as [|item w]; [|by apply waiting_moves in Hstuck].
    left. exists app. split; [|done]. by rewrite !app_nil_r in Hperm.
Qed.

(** The iterator hands the Ingress goroutine the requests in front of the
    older one, then the older one, and goes on to the next item. *)
Lemma handover front older app w i :
  Forall (other req) front ->
  Req_TargetId older = Req_TargetId req ->
  app <> [] -> i <= length front ->
  rtc (step req)
      (mkSys (front ++ older :: app) (Some HIterator) false
             (ItSend i) (InRecv (Z.of_nat i)) w None)
      (mkSys (front ++ older :: app) (Some HIterator) false
             (ItSend (S (length front))) (InLock (Z.of_nat (length front))) w None).
Proof.
  intros Hfront Holder Happ Hi.
  remember (length front - i) as k eqn:Hk. revert i Hi Hk.
  induction k as [|k IH]; intros i Hi Hk.
  - assert (i = length front) as -> by lia.
    apply rtc_once.
    pose proof (rendezvous req (front ++ older :: app) (Some HIterator) false
                  (length front) older (Z.of_nat (length front)) w None) as Hstep.
    unfold iter_at, on_item in Hstep.
    rewrite bool_decide_eq_true_2 in Hstep.
    2:{ rewrite length_app. destruct app; [done|]. simpl. lia. }
    rewrite bool_decide_eq_true_2 in Hstep by done.
    apply Hstep. by apply list_lookup_middle.
  - assert (Hlt : i < length front) by lia.
    destruct (lookup_lt_is_Some_2 front i Hlt) as [item Hitem].
    eapply rtc_l; [|apply (IH (S i)); lia].
    pose proof (rendezvous req (front ++ older :: app) (Some HIterator) false
                  i item (Z.of_nat i) w None) as Hstep.
    unfold iter_at, on_item in Hstep.
    rewrite bool_decide_eq_true_2 in Hstep by (rewrite length_app; simpl; lia).
    rewrite bool_decide_eq_false_2 in Hstep.
    2:{ rewrite Forall_forall in Hfront. apply Hfront.
        by eapply list_elem_of_lookup_2. }
    replace (Z.of_nat (S i)) with (Z.of_nat i + 1)%Z by lia.
    apply Hstep. by rewrite lookup_app_l.
Qed.

(** An [Append] that takes the mutex before the iterator leaves the older
    request with an item behind it. *)
Lemma append_first front older item pend :
  Forall (other req) front ->
  Req_TargetId older = Req_TargetId req ->
  rtc (step req) (start (front ++ [older]) (item :: pend))
      (mkSys (front ++ older :: [item]) (Some HIterator) false
             (ItSend (S (length front))) (InLock (Z.of_nat (length front)))
             pend None).
Proof.
  intros Hfront Holder.
  eapply rtc_l; [apply (append_lock req _ _ _ _ [] item pend)|].
  eapply rtc_l; [apply append_item|].
  eapply rtc_l; [apply append_unlock|].
  eapply rtc_l; [apply iter_lock|].
  unfold Slice_Append. rewrite <- app_assoc. simpl.
  unfold iter_at. rewrite bool_decide_eq_true_2 by (rewrite length_app; simpl; lia).
  apply (handover front older [item] pend 0); try done. lia.
Qed.

Lemma deadlocked_stuck s at_ : deadlocked at_ s -> stuck req s.
Proof.
  destruct s as [its lk cl it ing w ap]. intros (? & ? & ? & ? & ?) s' Hstep.
  simpl in *. subst. inversion Hstep.
Qed.

(** X6.  When the only request for the target of the new request is the
    last entry of the queue, the steps of the replacement loop are bounded
    and it ends in one of two ways.  Either the loop is left with that
    entry removed, the entries in front of it kept in order and the
    appended requests behind them; or an [Append] took the mutex before
    the iterator did, so that the entry is no longer the last one, and the
    iterator, holding the mutex, waits for a receiver while the Ingress
    goroutine waits for the mutex inside [queue.Delete].  With no request
    on its way into [Append] the loop always ends in the first way; with
    one, the second way can happen. *)
Theorem dedup_last_match front older pend :
  Forall (fun r => Req_TargetId r <> Req_TargetId req) front ->
  Req_TargetId older = Req_TargetId req ->
  (forall n s,
     nsteps (step req) n (start (front ++ [older]) pend) s ->
     n <= length front + 4 * length pend + 9
     /\ (stuck req s ->
         (exists app, app ≡ₚ pend /\ s = finished (front ++ app))
         \/ (deadlocked (length front) s
             /\ exists app, app <> [] /\ items s = front ++ older :: app
                            /\ app ++ waiting s ≡ₚ pend))
     /\ (pend = [] -> stuck req s -> s = finished front))
  /\ (pend <> [] ->
      exists s, rtc (step req) (start (front ++ [older]) pend) s
                /\ deadlocked (length front) s /\ stuck req s
                /\ older ∈ items s).
Proof.
  intros Hfront Holder. split.
  - intros n s Hn.
    assert (Hstuck : stuck req s ->
              (exists app, app ≡ₚ pend /\ s = finished (front ++ app))
              \/ (deadlocked (length front) s
                  /\ exists app, app <> [] /\ items s = front ++ older :: app
                                 /\ app ++ waiting s ≡ₚ pend)).
    { apply replacing_inv_stuck. apply replacing_inv_rtc; [done..|].
      by eapply rtc_nsteps_2. }
    split_and!; [|done|].
    + apply (append_nsteps_rank (length front + 1 + length pend)) in Hn.
      * unfold rank in Hn; simpl in Hn. lia.
      * unfold room; simpl. rewrite length_app. simpl. lia.
    + intros -> Hs. destruct (Hstuck Hs) as [(app & Happ & ->)|(_ & app & Hne & _ & Happ)].
      * apply Permutation_nil_r in Happ as ->. by rewrite app_nil_r.
      * apply Permutation_nil_r, app_eq_nil in Happ as [-> _]. done.
  - intros Hpend. destruct pend as [|item pend]; [done|].
    eexists. split; [by apply append_first|].
    assert (Hd : deadlocked (length front)
                   (mkSys (front ++ [older; item]) (Some HIterator) false
                      (ItSend (S (length front)))
                      (InLock (Z.of_nat (length front))) pend None)) by done.
    split_and!; [done|by eapply deadlocked_stuck|].
    simpl. apply elem_of_app. right. apply elem_of_cons. by left.
Qed.


(** With no [Append] under way, the steps are those of the two goroutines
    alone. *)
Lemma step_alone s t :
  step req (alone s) t <-> exists s', t = alone s' /\ Dispatch.step req s s'.
Proof.
  destruct s as [its lk cl it ing]. unfold alone; simpl. split.
  - intros Hstep. inversion Hstep; subst; simpl in *.
    + destruct lk; [done|].
      by exists (Dispatch.mkSys its (Some Iterator) cl (iter_at its 0) ing); split; [|constructor].
    + eexists (Dispatch.mkSys its lk cl _ _). split; [done|]. by constructor.
    + eexists (Dispatch.mkSys its lk true _ _). split; [done|]. by constructor.
    + eexists (Dispatch.mkSys its None cl _ _). split; [done|]. by constructor.
    + eexists (Dispatch.mkSys its lk true _ _). split; [done|]. by constructor.
    + destruct lk; [done|].
      eexists (Dispatch.mkSys its (Some Ingress) cl _ _). split; [done|]. by constructor.
    + eexists (Dispatch.mkSys _ lk cl _ _). split; [done|]. by constructor.
    + eexists (Dispatch.mkSys its None cl _ _). split; [done|]. by constructor.
    + by destruct w1.
  - intros (s' & -> & Hstep). inversion Hstep; subst; simpl; by constructor.
Qed.

End AppendFacts.

(** A run in which a request for "deploy" is appended before the iterator
    takes the mutex. *)
Lemma demo_append_run :
  nsteps (Appends.step (Demo.queued "build")) 9
    (Appends.start [Demo.queued "test"] [Demo.queued "deploy"])
    (Appends.finished [Demo.queued "test"; Demo.queued "deploy"]).
Proof.
  eapply nsteps_l;
    [apply (Appends.append_lock _ _ _ _ _ [] (Demo.queued "deploy") [])|].
  eapply nsteps_l; [apply Appends.append_item|].
  eapply nsteps_l; [apply Appends.append_unlock|].
  eapply nsteps_l; [apply Appends.iter_lock|].
  eapply nsteps_l;
    [apply (Appends.rendezvous _ _ _ _ 0 (Demo.queued "test")); reflexivity|].
  eapply nsteps_l;
    [apply (Appends.rendezvous _ _ _ _ 1 (Demo.queued "deploy")); reflexivity|].
  eapply nsteps_l; [apply Appends.iter_close|].
  eapply nsteps_l; [apply Appends.iter_unlock|].
  eapply nsteps_l; [apply Appends.range_end|].
  apply nsteps_O.
Qed.

(** X4 on that run. *)
Lemma dedup_bounded_witness :
  9 <= length [Demo.queued "test"] + 4 * length [Demo.queued "deploy"] + 8.
Proof.
  apply (dedup_bounded (Demo.queued "build") [Demo.queued "test"]
           [Demo.queued "deploy"] 9
           (Appends.finished [Demo.queued "test"; Demo.queued "deploy"])).
  apply demo_append_run.
Defined.

(** X5 on that run: a queue with a request for "test" while one for
    "deploy" is enqueued, and a new request for "build". *)
Lemma dedup_no_match_witness :
  let s := Appends.finished [Demo.queued "test"; Demo.queued "deploy"] in
  9 <= length [Demo.queued "test"] + 4 * length [Demo.queued "deploy"] + 8
  /\ (exists app, Appends.items s = [Demo.queued "test"] ++ app
                  /\ app ⊆+ [Demo.queued "deploy"])
  /\ (Appends.stuck (Demo.queued "build") s ->
      exists app, app ≡ₚ [Demo.queued "deploy"]
                  /\ s = Appends.finished ([Demo.queued "test"] ++ app)).
Proof.
  apply (dedup_no_match (Demo.queued "build") [Demo.queued "test"]
           [Demo.queued "deploy"]).
  - repeat constructor. simpl. discriminate.
  - repeat constructor. simpl. discriminate.
  - apply demo_append_run.
Defined.

(** X6 on the queue "test", "build" while a request for "deploy" is
    enqueued, and a new request for "build". *)
Lemma dedup_last_match_witness :
  let newer := Demo.queued "build" in
  let front := [Demo.queued "test"] in
  let older := Demo.queued "build" in
  let pend := [Demo.queued "deploy"] in
  (forall n s,
     nsteps (Appends.step newer) n (Appends.start (front ++ [older]) pend) s ->
     n <= length front + 4 * length pend + 9
     /\ (Appends.stuck newer s ->
         (exists app, app ≡ₚ pend /\ s = Appends.finished (front ++ app))
         \/ (Appends.deadlocked (length front) s
             /\ exists app, app <> []
                            /\ Appends.items s = front ++ older :: app
                            /\ app ++ Appends.waiting s ≡ₚ pend))
     /\ (pend = [] -> Appends.stuck newer s -> s = Appends.finished front))
  /\ (pend <> [] ->
      exists s, rtc (Appends.step newer) (Appends.start (front ++ [older]) pend) s
                /\ Appends.deadlocked (length front) s
                /\ Appends.stuck newer s
                /\ older ∈ Appends.items s).
Proof.
  intros newer front older pend.
  apply (dedup_last_match newer front older pend).
  - repeat constructor. simpl. discriminate.
  - reflexivity.
Defined.


(** ** The Ingress goroutine: cancellation, the queue, [Stop] *)

Section IngressFacts.
Context `{ExecEnv}.
Import Dispatch Run.

Lemma cancelStale_eq tree d :
  cancelStale tree d
  = mkDispatcher (targetCtx d) (done_closed d)
      (canceled d ++ omap (fun t => Cancel <$> targetCtx d !! Tree_Id t) tree).
Proof.
  revert d. induction tree as [|t tree IH]; intros d.
  - destruct d. simpl. by rewrite app_nil_r.
  - unfold cancelStale in *. simpl. rewrite IH.
    destruct (targetCtx d !! Tree_Id t) as [c|] eqn:Hc; simpl.
    + by rewrite <- app_assoc.
    + done.
Qed.

(** X8.  While a tree is in its loop under the context [treeCtx], the
    first loop of the Ingress goroutine invokes that context's cancel
    function once for every member of the incoming request's tree that the
    running tree has reached so far, and for no other member; it removes no
    entry from [targetCtx]. *)
Theorem cancelStale_running treeCtx req n tree d :
  let tr := take n (runTree req (Req_Tree req) 0).1 in
  targetCtx d = replay treeCtx tr ->
  targetCtx (cancelStale tree d) = targetCtx d
  /\ done_closed (cancelStale tree d) = done_closed d
  /\ canceled (cancelStale tree d)
     = canceled d
       ++ replicate (length (filter (fun t => Tree_Id t ∈ stores tr) tree)) treeCtx.
Proof.
  intros tr Hd. rewrite cancelStale_eq. simpl. split; [done|]. split; [done|].
  f_equal. rewrite Hd.
  assert (Hw : Forall (within (map Tree_Id (Req_Tree req))) tr).
  { apply Forall_take, runTree_within. }
  rewrite replay_is_from.
  induction tree as [|t tree IH]; [done|].
  rewrite filter_cons. simpl.
  rewrite (replay_from_loop _ _ _ _ _ Hw).
  destruct (decide (Tree_Id t ∈ stores tr)); simpl; by rewrite <- IH.
Qed.

Lemma Range_first (entries : list (string * TargetContext)) d :
  Range (fun _ c d' => (invoke c d', false)) entries d
  = match entries with
    | [] => d
    | (_, c) :: _ => invoke c d
    end.
Proof. by destruct entries as [|[k c] rest]. Qed.

(** X9.  A [Stop] that returns has closed [done], has left every entry of
    [targetCtx] in place and has invoked at most one cancel function; every
    later [Stop] panics, because it closes [done] again. *)
Theorem Stop_once entries entries' d d' :
  Stop entries d = Some d' ->
  done_closed d = false
  /\ done_closed d' = true
  /\ targetCtx d' = targetCtx d
  /\ (exists called, canceled d' = canceled d ++ called /\ length called <= 1)
  /\ Stop entries' d' = None.
Proof.
  unfold Stop. destruct (done_closed d) eqn:Hopen; [done|].
  rewrite Range_first. intros [= <-]. split; [done|].
  destruct entries as [|[k c] rest]; simpl.
  - split_and!; try done. exists []. rewrite app_nil_r. split; [done|]. simpl. lia.
  - split_and!; try done. exists [Cancel c]. split; [done|]. simpl. lia.
Qed.

(** X10.  The queue is first in, first out: after any number of
    [enqueueStatus] calls, [n] ticks dequeue the first [n] requests of the
    queue in the order in which they were appended and leave the others;
    ticks on an empty queue dequeue nothing. *)
Theorem ticks_fifo n queue reqs :
  ticks n (foldl (fun q r => (enqueueStatus q r).2) queue reqs)
  = (take n (queue ++ reqs), drop n (queue ++ reqs)).
Proof.
  assert (Happend : foldl (fun q r => (enqueueStatus q r).2) queue reqs = queue ++ reqs).
  { revert queue. induction reqs as [|r reqs IH]; intros queue; simpl.
    - by rewrite app_nil_r.
    - rewrite IH. unfold Slice_Append. by rewrite <- app_assoc. }
  rewrite Happend. generalize (queue ++ reqs) as q. clear.
  induction n as [|n IH]; intros q; simpl; [done|].
  destruct q as [|first rest]; simpl.
  - rewrite IH. by rewrite take_nil, drop_nil.
  - by rewrite IH.
Qed.

(** X11.  [Slice.Delete] with an index inside the slice removes the item
    at that index and nothing else: the items in front keep their place, the
    items behind move down by one.  With any other index, negative ones
    included, the slice is left as it is. *)
Theorem Slice_Delete_spec {A} (l : list A) (idx : Z) :
  if bool_decide (0 <= idx < Z.of_nat (length l))%Z
  then S (length (Slice_Delete l idx)) = length l
       /\ forall i, Slice_Delete l idx !! i
                    = if bool_decide (i < Z.to_nat idx) then l !! i else l !! S i
  else Slice_Delete l idx = l.
Proof.
  unfold Slice_Delete. case_bool_decide as Hin.
  - rewrite !bool_decide_eq_true_2 by lia. simpl. split.
    + rewrite length_app, length_take, length_drop. lia.
    + intros i. case_bool_decide as Hi.
      * rewrite lookup_app_l by (rewrite length_take; lia).
        by rewrite lookup_take_lt.
      * rewrite lookup_app_r by (rewrite length_take; lia).
        rewrite length_take, lookup_drop. f_equal. lia.
  - destruct (bool_decide (-1 < idx)%Z) eqn:H1,
             (bool_decide (idx < Z.of_nat (length l))%Z) eqn:H2; simpl; try done.
    apply bool_decide_eq_true in H1, H2. lia.
Qed.

End IngressFacts.

(** X8 at the state in which the second member of the demo tree runs: a
    request whose tree is "test", "deploy" cancels the run once, for "test";
    "deploy" has not been reached. *)
Lemma cancelStale_running_witness :
  Dispatch.targetCtx (Run.cancelStale [Demo.test; Demo.deploy] Demo.running)
  = Dispatch.targetCtx Demo.running
  /\ Dispatch.done_closed (Run.cancelStale [Demo.test; Demo.deploy] Demo.running)
     = Dispatch.done_closed Demo.running
  /\ Dispatch.canceled (Run.cancelStale [Demo.test; Demo.deploy] Demo.running)
     = [] ++ replicate 1 7.
Proof.
  apply (cancelStale_running (H := Demo.exec_env) 7 Demo.req 5
           [Demo.test; Demo.deploy] Demo.running).
  reflexivity.
Defined.

(** X9 on the running demo dispatcher. *)
Lemma Stop_once_witness :
  Dispatch.done_closed Demo.running = false
  /\ Dispatch.done_closed
       (Dispatch.mkDispatcher (Dispatch.targetCtx Demo.running) true [7]) = true
  /\ Dispatch.targetCtx
       (Dispatch.mkDispatcher (Dispatch.targetCtx Demo.running) true [7])
     = Dispatch.targetCtx Demo.running
  /\ (exists called,
        Dispatch.canceled
          (Dispatch.mkDispatcher (Dispatch.targetCtx Demo.running) true [7])
        = Dispatch.canceled Demo.running ++ called
        /\ length called <= 1)
  /\ Dispatch.Stop []
       (Dispatch.mkDispatcher (Dispatch.targetCtx Demo.running) true [7]) = None.
Proof.
  apply (Stop_once (map_to_list (Dispatch.targetCtx Demo.running)) []
           Demo.running).
  vm_compute. reflexivity.
Defined.

(** ** More on [Watcher.Event] and the filesystem monitor *)

Section WatcherMore.
Context `{WatchEnv}.
Import Watch.

(** X12.  [Event] sends at most one request, and only in this situation:
    the event is a [Create] or a [Write], the path exists and, for a
    [Create], is not a directory, [MatchPath] reports a match, and the path
    index knows the parent directory ([Create]) or the path itself
    ([Write]).  The request carries the [Glob] stored there, the event, and
    the id, label, tree and debounce of the watcher's target. *)
Theorem Event_request_sound w event r :
  r ∈ sent (Event w event) ->
  sent (Event w event) = [r]
  /\ panicked (Event w event) = None
  /\ (Event_Op event = Create \/ Event_Op event = Write)
  /\ exists fi matchRes include,
       watch_Exists (Event_Path event) = Found fi
       /\ (Event_Op event = Create -> fi_IsDir fi = false)
       /\ MatchPath (W_Target w) (Event_Path event) = Some matchRes
       /\ Match matchRes = true
       /\ W_include w !! (if bool_decide (Event_Op event = Create)
                          then watch_Dir (Event_Path event)
                          else Event_Path event) = Some include
       /\ r = request w event include.
Proof.
  unfold Event.
  destruct (bool_decide (Event_Op event ≠ Write)
            && bool_decide (Event_Op event ≠ Create)) eqn:Hops;
    [by intros ?%elem_of_nil|].
  assert (Hcw : Event_Op event = Create \/ Event_Op event = Write).
  { apply andb_false_iff in Hops as [Hop|Hop];
      apply bool_decide_eq_false in Hop; apply dec_stable in Hop; auto. }
  destruct (watch_Exists (Event_Path event)) as [msg| |fi] eqn:Hex;
    [by intros ?%elem_of_nil..|].
  destruct (MatchPath (W_Target w) (Event_Path event)) as [matchRes|] eqn:Hm;
    [|by intros ?%elem_of_nil].
  destruct (bool_decide (Event_Op event = Create)) eqn:Hop.
  - destruct (W_include w !! watch_Dir (Event_Path event)) as [include|] eqn:Hinc;
      [|by intros ?%elem_of_nil].
    destruct (fi_IsDir fi) eqn:Hdir.
    { destruct (Match matchRes || bool_decide (Matched_Exclude matchRes = ""));
        [destruct (AddPath w (Event_Path event))|]; by intros ?%elem_of_nil. }
    simpl. destruct (Match matchRes) eqn:Hmatch; [|by intros ?%elem_of_nil].
    intros ->%list_elem_of_singleton. split_and!; try done.
    exists fi, matchRes, include. by split_and!.
  - destruct (W_include w !! Event_Path event) as [include|] eqn:Hinc;
      [|by intros ?%elem_of_nil].
    simpl. destruct (Match matchRes) eqn:Hmatch; [|by intros ?%elem_of_nil].
    intros ->%list_elem_of_singleton. split_and!; try done.
    exists fi, matchRes, include. split_and!; try done.
    intros HC. apply bool_decide_eq_false in Hop. done.
Qed.

(** X13.  [Event] never forgets: whatever the event, the target stays the
    same, the watch list only gains at most one path at its end, every path
    of the path index stays in it, and only the entry of the event's own
    path can be new or changed.  When the call panics, the watcher is as it
    was. *)
Theorem Event_watch_set_grows w event :
  W_Target (after (Event w event)) = W_Target w
  /\ (exists added, W_paths (after (Event w event)) = W_paths w ++ added
                    /\ length added <= 1)
  /\ (forall k, is_Some (W_include w !! k) ->
                is_Some (W_include (after (Event w event)) !! k))
  /\ (forall k, k <> Event_Path event ->
                W_include (after (Event w event)) !! k = W_include w !! k)
  /\ (panicked (Event w event) <> None -> after (Event w event) = w).
Proof.
  assert (Hsame : forall o, after o = w ->
            W_Target (after o) = W_Target w
            /\ (exists added, W_paths (after o) = W_paths w ++ added
                              /\ length added <= 1)
            /\ (forall k, is_Some (W_include w !! k) ->
                          is_Some (W_include (after o) !! k))
            /\ (forall k, k <> Event_Path event ->
                          W_include (after o) !! k = W_include w !! k)
            /\ (panicked o <> None -> after o = w)).
  { intros o ->. split_and!; try done. exists []. rewrite app_nil_r. split; [done|]. simpl. lia. }
  assert (Hstore : forall g k, is_Some (W_include w !! k) ->
            is_Some (<[Event_Path event := g]> (W_include w) !! k)).
  { intros g k Hk. destruct (decide (k = Event_Path event)) as [->|Hne].
    - rewrite lookup_insert_eq. by eexists.
    - by rewrite lookup_insert_ne. }
  unfold Event.
  destruct (_ && _); [by apply Hsame|].
  destruct (watch_Exists (Event_Path event)) as [msg| |fi]; [by apply Hsame..|].
  destruct (MatchPath (W_Target w) (Event_Path event)) as [matchRes|];
    [|by apply Hsame].
  destruct (bool_decide (Event_Op event = Create)).
  - destruct (W_include w !! watch_Dir (Event_Path event)) as [include|];
      [|by apply Hsame].
    destruct (fi_IsDir fi).
    + destruct (Match matchRes || bool_decide (Matched_Exclude matchRes = ""));
        [|by apply Hsame].
      unfold AddPath. destruct (watch_Abs (Event_Path event)) as [abs|];
        [|by apply Hsame].
      destruct (fsnotify_Add abs); [|by apply Hsame]. simpl.
      split_and!; try done.
      * exists [abs]. split; [done|]. simpl. lia.
      * apply Hstore.
      * intros k Hk. by rewrite lookup_insert_ne.
    + simpl. split_and!; try done.
      * exists []. rewrite app_nil_r. split; [done|]. simpl. lia.
      * apply Hstore.
      * intros k Hk. by rewrite lookup_insert_ne.
  - destruct (W_include w !! Event_Path event); by apply Hsame.
Qed.

(** X14.  A [Write] to a path the path index does not hold is ignored,
    whatever [MatchPath] says of it.  Once the [Create] of a file in a
    known directory has been handled, a [Write] to that file is answered
    like the [Create] was: with one request that carries the directory's
    [Glob] when the path matches, with none otherwise. *)
Theorem Event_create_then_write w path fi matchRes include :
  watch_Exists path = Found fi -> fi_IsDir fi = false ->
  MatchPath (W_Target w) path = Some matchRes ->
  W_include w !! watch_Dir path = Some include ->
  let created := Event w (mkEvent path Create) in
  (W_include w !! path = None -> Event w (mkEvent path Write) = quiet w)
  /\ sent created
     = (if Match matchRes then [request w (mkEvent path Create) include] else [])
  /\ W_paths (after created) = W_paths w
  /\ sent (Event (after created) (mkEvent path Write))
     = (if Match matchRes then [request w (mkEvent path Write) include] else []).
Proof.
  intros Hex Hfile Hm Hdir created. unfold created, Event. simpl.
  rewrite Hex, Hm, Hdir, Hfile. simpl.
  rewrite lookup_insert_eq. split_and!; try done.
  - by intros ->.
  - change (W_Target (store w path include)) with (W_Target w).
    by rewrite Hm.
Qed.

(** X15.  A directory created in a known directory is put on the watch
    list and inherits that directory's [Glob], unless an exclusion pattern
    rejected it; no request is sent for it.  A file created in the new
    directory afterwards is then answered with the inherited [Glob]. *)
Theorem Event_new_dir_then_file w dir file fid fif matchDir matchFile include abs :
  watch_Exists dir = Found fid -> fi_IsDir fid = true ->
  MatchPath (W_Target w) dir = Some matchDir ->
  Match matchDir = true \/ Matched_Exclude matchDir = "" ->
  W_include w !! watch_Dir dir = Some include ->
  watch_Abs dir = Some abs -> fsnotify_Add abs = true ->
  watch_Exists file = Found fif -> fi_IsDir fif = false ->
  watch_Dir file = dir ->
  MatchPath (W_Target w) file = Some matchFile ->
  let created := Event w (mkEvent dir Create) in
  sent created = [] /\ offered created = [dir] /\ panicked created = None
  /\ W_paths (after created) = W_paths w ++ [abs]
  /\ W_include (after created) !! dir = Some include
  /\ sent (Event (after created) (mkEvent file Create))
     = (if Match matchFile then [request w (mkEvent file Create) include] else []).
Proof.
  intros Hex Hisdir Hm Hok Hparent Habs Hadd Hexf Hfile Hdir Hmf created.
  unfold created, Event, AddPath. simpl.
  rewrite Hex, Hm, Hparent, Hisdir, Habs, Hadd.
  assert (Hcond : Match matchDir || bool_decide (Matched_Exclude matchDir = "") = true).
  { destruct Hok as [->|Hx]; [done|]. rewrite (bool_decide_eq_true_2 _ Hx).
    by destruct (Match matchDir). }
  rewrite Hcond. simpl. rewrite Hexf, Hmf, Hdir. simpl.
  rewrite lookup_insert_eq, Hfile. by split_and!.
Qed.

End WatcherMore.

Section MonitorFacts.
Context `{WatchEnv} `{FsnotifyOps}.
Import Watch Fsnotify.

(** X16.  An event of the fsnotify library whose operation mask holds the
    [Remove] bits or the [Rename] bits is handed on as a [Remove] or a
    [Rename], whatever other bits (a [Write], a [Create]) the mask holds as
    well, and so it changes no subscribed watcher and sends no request. *)
Theorem monitor_remove_rename_inert subscribers event :
  N.land (Raw_Op event) fsnotify_Remove = fsnotify_Remove
  \/ N.land (Raw_Op event) fsnotify_Rename = fsnotify_Rename ->
  (forall e, filteredEvent event = Some e ->
             Event_Path e = Raw_Name event
             /\ (Event_Op e = Remove \/ Event_Op e = Rename))
  /\ monitor subscribers event = map quiet subscribers.
Proof.
  intros Hbits.
  assert (Hop : filterOp (Raw_Op event) = Remove \/ filterOp (Raw_Op event) = Rename).
  { unfold filterOp. destruct Hbits as [Hb|Hb].
    - left. by rewrite bool_decide_eq_true_2.
    - case_bool_decide; [by left|]. right. by rewrite bool_decide_eq_true_2. }
  assert (Hf : forall e, filteredEvent event = Some e ->
                         Event_Path e = Raw_Name event
                         /\ (Event_Op e = Remove \/ Event_Op e = Rename)).
  { intros e. unfold filteredEvent. case_bool_decide; [done|].
    case_bool_decide; [done|]. by intros [= <-]. }
  split; [done|]. unfold monitor.
  destruct (filteredEvent event) as [e|] eqn:He; [|done].
  destruct (Hf e eq_refl) as [_ Hdrop].
  unfold broadcastEvent. apply map_ext. intros s.
  apply Event_dropped; destruct Hdrop as [-> | ->]; done.
Qed.

End MonitorFacts.

(** X14 on a new file in the watched root of the demo target. *)
Lemma Event_create_then_write_witness :
  let created := Watch.Event (H := Demo.watch_env) Demo.watcher
                   (mkEvent "/proj/b.go" Create) in
  (Watch.W_include Demo.watcher !! "/proj/b.go" = None ->
   Watch.Event (H := Demo.watch_env) Demo.watcher (mkEvent "/proj/b.go" Write)
   = Watch.quiet Demo.watcher)
  /\ Watch.sent created
     = [Watch.request Demo.watcher (mkEvent "/proj/b.go" Create) Demo.include]
  /\ Watch.W_paths (Watch.after created) = Watch.W_paths Demo.watcher
  /\ Watch.sent (Watch.Event (H := Demo.watch_env) (Watch.after created)
                   (mkEvent "/proj/b.go" Write))
     = [Watch.request Demo.watcher (mkEvent "/proj/b.go" Write) Demo.include].
Proof.
  apply (Event_create_then_write (H := Demo.watch_env) Demo.watcher "/proj/b.go"
           (mkFileInfo false 12) (mkMatchAnyOutput true "/proj/**/*.go" "")
           Demo.include); reflexivity.
Defined.

(** X15 on the directory "/proj/pkg", which matches no inclusion pattern
    and no exclusion pattern, and the file "/proj/pkg/a.go". *)
Lemma Event_new_dir_then_file_witness :
  let created := Watch.Event (H := Demo.tree_env) Demo.watcher
                   (mkEvent "/proj/pkg" Create) in
  Watch.sent created = [] /\ Watch.offered created = ["/proj/pkg"]
  /\ Watch.panicked created = None
  /\ Watch.W_paths (Watch.after created) = Watch.W_paths Demo.watcher ++ ["/proj/pkg"]
  /\ Watch.W_include (Watch.after created) !! "/proj/pkg" = Some Demo.include
  /\ Watch.sent (Watch.Event (H := Demo.tree_env) (Watch.after created)
                   (mkEvent "/proj/pkg/a.go" Create))
     = [Watch.request Demo.watcher (mkEvent "/proj/pkg/a.go" Create) Demo.include].
Proof.
  apply (Event_new_dir_then_file (H := Demo.tree_env) Demo.watcher
           "/proj/pkg" "/proj/pkg/a.go"
           (mkFileInfo true 0) (mkFileInfo false 7)
           (mkMatchAnyOutput false "/proj/**/*.go" "")
           (mkMatchAnyOutput true "/proj/**/*.go" "")
           Demo.include "/proj/pkg"); try reflexivity.
  right. reflexivity.
Defined.

(** X12 on the request sent for the new file "/proj/b.go". *)
Lemma Event_request_sound_witness :
  let event := mkEvent "/proj/b.go" Create in
  let r := Watch.request Demo.watcher event Demo.include in
  Watch.sent (Watch.Event (H := Demo.watch_env) Demo.watcher event) = [r]
  /\ Watch.panicked (Watch.Event (H := Demo.watch_env) Demo.watcher event) = None
  /\ (Event_Op event = Create \/ Event_Op event = Write)
  /\ exists fi matchRes include,
       watch_Exists (WatchEnv := Demo.watch_env) (Event_Path event) = Found fi
       /\ (Event_Op event = Create -> fi_IsDir fi = false)
       /\ Watch.MatchPath (H := Demo.watch_env) (Watch.W_Target Demo.watcher)
            (Event_Path event) = Some matchRes
       /\ Match matchRes = true
       /\ Watch.W_include Demo.watcher
            !! (if bool_decide (Event_Op event = Create)
                then watch_Dir (WatchEnv := Demo.watch_env) (Event_Path event)
                else Event_Path event) = Some include
       /\ r = Watch.request Demo.watcher event include.
Proof.
  apply (Event_request_sound (H := Demo.watch_env) Demo.watcher
           (mkEvent "/proj/b.go" Create)
           (Watch.request Demo.watcher (mkEvent "/proj/b.go" Create) Demo.include)).
  vm_compute. left.
Defined.

(** X16 on a mask that holds both [Write] and [Remove]. *)
Lemma monitor_remove_rename_inert_witness :
  (forall e, Fsnotify.filteredEvent (H0 := Demo.fsnotify_ops)
               (mkRawEvent "/proj/main.go" 6) = Some e ->
             Event_Path e = "/proj/main.go"
             /\ (Event_Op e = Remove \/ Event_Op e = Rename))
  /\ Fsnotify.monitor (H := Demo.watch_env) (H0 := Demo.fsnotify_ops)
       [Demo.watcher] (mkRawEvent "/proj/main.go" 6)
     = map Watch.quiet [Demo.watcher].
Proof.
  apply (monitor_remove_rename_inert (H := Demo.watch_env) (H0 := Demo.fsnotify_ops)
           [Demo.watcher] (mkRawEvent "/proj/main.go" 6)).
  left. reflexivity.
Defined.

(** ** More on the glob evaluator *)

Section GlobMore.
Context `{GlobEnv}.
Import File.

(** The inner loop of [GetGlobInclude] adds the entries [paths] does not
    hold yet. *)
Lemma GetGlobInclude_inner (paths m : gmap string Glob) :
  map_fold (fun p include paths =>
              match paths !! p with
              | Some _ => paths
              | None => <[p := include]> paths
              end) paths m
  = paths ∪ m.
Proof.
  apply (map_fold_weak_ind (fun r m => r = paths ∪ m)).
  - by rewrite (right_id_L ∅ (∪)).
  - intros p include m' r Hp ->. apply map_eq. intros k.
    destruct ((paths ∪ m') !! p) as [g|] eqn:Hk.
    + rewrite !lookup_union. destruct (decide (k = p)) as [->|Hne].
      * rewrite lookup_insert_eq.
        rewrite lookup_union, Hp in Hk. rewrite Hp.
        by destruct (paths !! p).
      * by rewrite lookup_insert_ne.
    + apply lookup_union_None in Hk as [Hk _].
      destruct (decide (k = p)) as [->|Hne].
      * rewrite lookup_insert_eq, lookup_union, Hk, lookup_insert_eq. done.
      * rewrite lookup_insert_ne by done.
        rewrite !lookup_union. by rewrite lookup_insert_ne.
Qed.

Lemma GetGlobInclude_from (paths : gmap string Glob) globs p :
  foldl (fun paths glob =>
           map_fold (fun p include paths =>
                       match paths !! p with
                       | Some _ => paths
                       | None => <[p := include]> paths
                       end)
                    paths (Out_Include glob))
        paths globs !! p
  = match paths !! p with
    | Some g => Some g
    | None => head (omap (fun glob => Out_Include glob !! p) globs)
    end.
Proof.
  revert paths. induction globs as [|glob globs IH]; intros paths; simpl.
  - by destruct (paths !! p).
  - rewrite IH, GetGlobInclude_inner, lookup_union.
    destruct (paths !! p) as [g|], (Out_Include glob !! p) as [g'|]; done.
Qed.

(** X17.  In the result of [GetGlobInclude] a path has the [Glob] of the
    first output, in list order, whose [Include] holds the path; a path no
    output holds is not in the result. *)
Theorem GetGlobInclude_first globs p :
  GetGlobInclude globs !! p
  = head (omap (fun glob => Out_Include glob !! p) globs).
Proof. unfold GetGlobInclude. by rewrite GetGlobInclude_from, lookup_empty. Qed.

Lemma sort_matches_excluded include exclude names out :
  Forall (fun name => exists e, first_exclude exclude name = Some (Some e)) names ->
  exists out',
    sort_matches include exclude names out = Some out'
    /\ Out_Include out' = Out_Include out
    /\ forall k, is_Some (Out_Exclude out' !! k)
                 <-> k ∈ names \/ is_Some (Out_Exclude out !! k).
Proof.
  intros Hall. revert out. induction Hall as [|name names [e He] _ IH]; intros out.
  - exists out. split_and!; [done..|]. intros k. rewrite elem_of_nil. tauto.
  - simpl. rewrite He.
    destruct (IH (mkGlobAnyOutput (Out_Include out) (<[name := e]> (Out_Exclude out))))
      as (out' & Hs & Hi & Hk).
    exists out'. split_and!; [done..|]. intros k. rewrite Hk. simpl.
    rewrite elem_of_cons. rewrite lookup_insert_is_Some. split.
    + intros [?|[->|[_ ?]]]; auto.
    + intros [[->|?]|?]; auto.
      destruct (decide (name = k)); auto.
Qed.

(** X18.  When an inclusion pattern has matches and an exclusion pattern
    rejects every one of them, the output of [GetTargetGlob] for that
    inclusion has an empty [Include] (the root is not added, since
    [Exclude] is not empty) and an [Exclude] that holds exactly the
    matches; [GetGlobInclude] of it is empty, which is what makes
    [NewDispatcher] create no watcher. *)
Theorem targetGlob_all_excluded i exclude root names :
  glob_Abs (Root i) = Some root ->
  doublestar_Glob (Pattern i) = Some names ->
  names <> [] ->
  Forall (fun name => exists e, first_exclude exclude name = Some (Some e)) names ->
  exists out,
    GetTargetGlob [i] exclude = Some [out]
    /\ Out_Include out = ∅
    /\ (forall k, is_Some (Out_Exclude out !! k) <-> k ∈ names)
    /\ GetGlobInclude [out] = ∅.
Proof.
  intros Habs Hglob Hne Hall.
  destruct (sort_matches_excluded (mkGlob (Pattern i) root) exclude names
              (mkGlobAnyOutput ∅ ∅) Hall) as (out & Hs & Hi & Hk).
  simpl in Hi.
  assert (Hex : forall k, is_Some (Out_Exclude out !! k) <-> k ∈ names).
  { intros k. rewrite Hk. simpl. rewrite lookup_empty. split; [|by left].
    intros [?|[? ?]]; done. }
  assert (Hsize : size (Out_Exclude out) <> 0).
  { destruct names as [|name names']; [done|].
    intros Hz%map_size_empty_inv. destruct (proj2 (Hex name)) as [g Hg].
    - apply elem_of_cons. by left.
    - by rewrite Hz, lookup_empty in Hg. }
  exists (mkGlobAnyOutput ∅ (Out_Exclude out)). simpl.
  unfold targetGlob, GlobAny. rewrite Habs. simpl. rewrite Hglob, Hs, Hi.
  rewrite map_to_list_empty. simpl.
  rewrite (bool_decide_eq_false_2 _ Hsize), andb_false_r.
  by split_and!.
Qed.

Lemma sort_matches_values include exclude names out out' :
  sort_matches include exclude names out = Some out' ->
  (forall k g, Out_Include out !! k = Some g -> g = include) ->
  forall k g, Out_Include out' !! k = Some g -> g = include.
Proof.
  revert out. induction names as [|name names IH]; intros out; simpl.
  - by intros [= <-].
  - destruct (first_exclude exclude name) as [[e|]|]; [| |done].
    + intros Hs Hv. by apply (IH _ Hs).
    + intros Hs Hv. apply (IH _ Hs). simpl. intros k g.
      rewrite lookup_insert. case_decide; [by intros [= <-]|]. apply Hv.
Qed.

Lemma add_ancestors_values include ancestor (m : gmap string Glob) G :
  include = G ->
  (forall k g, m !! k = Some g -> g = G) ->
  forall k g, add_ancestors include ancestor m !! k = Some g -> g = G.
Proof.
  intros ->. revert m. unfold add_ancestors.
  induction ancestor as [|a ancestor IH]; intros m Hv; simpl; [done|].
  apply IH. intros k g. rewrite lookup_insert. case_decide; [by intros [= <-]|].
  apply Hv.
Qed.

Lemma add_all_ancestors_values entries (m m' : gmap string Glob) G :
  add_all_ancestors entries m = Some m' ->
  Forall (fun e => e.2 = G) entries ->
  (forall k g, m !! k = Some g -> g = G) ->
  forall k g, m' !! k = Some g -> g = G.
Proof.
  revert m. induction entries as [|[name include] entries IH]; intros m; simpl.
  - by intros [= <-].
  - destruct (FileAncestor name (Root include)) as [ancestor|]; [|done].
    intros Ha Hf Hv. apply Forall_cons in Hf as [Hinc Hf]. simpl in Hinc.
    apply (IH _ Ha Hf). by apply add_ancestors_values.
Qed.

Lemma targetGlob_values i exclude out :
  targetGlob i exclude = Some out ->
  exists root,
    glob_Abs (Root i) = Some root
    /\ forall k g, Out_Include out !! k = Some g -> g = mkGlob (Pattern i) root.
Proof.
  unfold targetGlob, GlobAny.
  destruct (glob_Abs (Root i)) as [root|]; [|done]. simpl.
  destruct (doublestar_Glob (Pattern i)) as [names|]; [|done].
  destruct (sort_matches _ exclude names _) as [globOut|] eqn:Hs; [|done].
  destruct (add_all_ancestors _ _) as [inc|] eqn:Ha; [|done].
  assert (Hout : forall k g, Out_Include globOut !! k = Some g
                             -> g = mkGlob (Pattern i) root).
  { apply (sort_matches_values _ _ _ _ _ Hs). simpl. intros k g.
    by rewrite lookup_empty. }
  assert (Hinc : forall k g, inc !! k = Some g -> g = mkGlob (Pattern i) root).
  { apply (add_all_ancestors_values _ _ _ _ Ha); [|done].
    apply Forall_forall. intros [k g] Hkg. simpl.
    apply elem_of_map_to_list in Hkg. by eapply Hout. }
  intros Hres. exists root. split; [done|].
  destruct (_ && _); injection Hres as <-; simpl; [|done].
  intros k g. rewrite lookup_insert. case_decide; [by intros [= <-]|]. apply Hinc.
Qed.

Lemma GetTargetGlob_elem include exclude list out :
  GetTargetGlob include exclude = Some list -> out ∈ list ->
  exists i, i ∈ include /\ targetGlob i exclude = Some out.
Proof.
  revert list. induction include as [|i include IH]; intros list; simpl.
  - intros [= <-]. by intros ?%elem_of_nil.
  - destruct (targetGlob i exclude) as [out0|] eqn:Hout; [|done].
    destruct (GetTargetGlob include exclude) as [list'|]; [|done].
    intros [= <-]. intros [->|Hin]%elem_of_cons.
    + exists i. split; [|done]. apply elem_of_cons. by left.
    + destruct (IH list' eq_refl Hin) as (i' & Hi' & Ht).
      exists i'. split; [|done]. apply elem_of_cons. by right.
Qed.

(** X19.  Every [Glob] in the path index a watcher starts with is one of
    the target's inclusion globs, with its pattern as given and its root
    made absolute: [GetTargetGlob] followed by [GetGlobInclude] associates
    matches, their ancestor directories and empty roots with nothing
    else. *)
Theorem GetGlobInclude_values include exclude list p g :
  GetTargetGlob include exclude = Some list ->
  GetGlobInclude list !! p = Some g ->
  exists i root,
    i ∈ include /\ glob_Abs (Root i) = Some root
    /\ g = mkGlob (Pattern i) root.
Proof.
  intros Hlist. unfold GetGlobInclude.
  rewrite GetGlobInclude_from, lookup_empty.
  intros Hhead%head_Some_elem_of.
  apply list_elem_of_omap in Hhead as (out & Hout & Hp).
  destruct (GetTargetGlob_elem _ _ _ _ Hlist Hout) as (i & Hi & Ht).
  destruct (targetGlob_values _ _ _ Ht) as (root & Habs & Hv).
  exists i, root. split_and!; [done..|]. by eapply Hv.
Qed.

End GlobMore.

(** X18 on the one match "/proj/file.go", rejected by the exclusion
    pattern "/proj/file.*". *)
Lemma targetGlob_all_excluded_witness :
  exists out,
    File.GetTargetGlob (H := Demo.match_env) [Demo.include]
      [mkGlob "/proj/file.*" "/proj"] = Some [out]
    /\ Out_Include out = ∅
    /\ (forall k, is_Some (Out_Exclude out !! k) <-> k ∈ ["/proj/file.go"])
    /\ File.GetGlobInclude [out] = ∅.
Proof.
  apply (targetGlob_all_excluded (H := Demo.match_env) Demo.include
           [mkGlob "/proj/file.*" "/proj"] "/proj" ["/proj/file.go"]).
  - reflexivity.
  - reflexivity.
  - discriminate.
  - constructor; [|constructor]. eexists. reflexivity.
Defined.

(** X19 on the index built for the demo inclusion when the file matches
    and nothing is excluded. *)
Lemma GetGlobInclude_values_witness :
  exists i root,
    i ∈ [Demo.include]
    /\ glob_Abs (GlobEnv := Demo.match_env) (Root i) = Some root
    /\ Demo.include = mkGlob (Pattern i) root.
Proof.
  apply (GetGlobInclude_values (H := Demo.match_env) [Demo.include] []
           (default [] (File.GetTargetGlob (H := Demo.match_env) [Demo.include] []))
           "/proj/file.go" Demo.include).
  - vm_compute. reflexivity.
  - vm_compute. reflexivity.
Defined.

(** ** More on the session file and on resume *)

Section GobMore.
Import Gob.

Lemma write_over_length old data : length old <= length (write_over old data).
Proof. unfold write_over. rewrite length_app, length_drop. lia. Qed.

(** X20.  Whatever happens in [EncodeToFile] (the open fails, the encoder
    rejects the value, the write stops early or goes through), no other
    file is touched and the named file does not get shorter; once the open
    has succeeded the file exists, and when no error is returned the file
    starts with the complete encoding. *)
Theorem EncodeToFile_frame openable encoding accepted fs name :
  let out := EncodeToFile openable encoding accepted fs name in
  (forall other, other <> name -> out.1 !! other = fs !! other)
  /\ length (default [] (fs !! name)) <= length (default [] (out.1 !! name))
  /\ (openable = true -> is_Some (out.1 !! name))
  /\ (out.2 = None ->
      exists bytes, openable = true /\ encoding = Some bytes
                    /\ take (length bytes) (default [] (out.1 !! name)) = bytes).
Proof.
  assert (Hopen : (forall other, other <> name -> OpenFile fs name !! other = fs !! other)
                  /\ is_Some (OpenFile fs name !! name)
                  /\ default [] (OpenFile fs name !! name) = default [] (fs !! name)).
  { unfold OpenFile. destruct (fs !! name) as [old|] eqn:Hold.
    - rewrite Hold. split_and!; [done|by eexists|done].
    - rewrite lookup_insert_eq. split_and!; [|by eexists|done].
      intros other Hne. by rewrite lookup_insert_ne. }
  destruct Hopen as (Hother & Hsome & Hsame).
  unfold EncodeToFile. destruct openable; simpl; [|by split_and!].
  destruct encoding as [bytes|]; simpl.
  - assert (Hframe : (forall other, other <> name ->
                        <[name := write_over (default [] (OpenFile fs name !! name))
                                    (take accepted bytes)]> (OpenFile fs name) !! other
                        = fs !! other)
                     /\ length (default [] (fs !! name))
                        <= length (default []
                             (<[name := write_over (default [] (OpenFile fs name !! name))
                                          (take accepted bytes)]> (OpenFile fs name)
                                !! name))
                     /\ is_Some (<[name := write_over (default [] (OpenFile fs name !! name))
                                            (take accepted bytes)]> (OpenFile fs name)
                                  !! name)).
    { split_and!.
      - intros other Hne. rewrite lookup_insert_ne by done. by apply Hother.
      - rewrite lookup_insert_eq, Hsame. simpl. apply write_over_length.
      - rewrite lookup_insert_eq. by eexists. }
    destruct Hframe as (Hf1 & Hf2 & Hf3).
    case_bool_decide as Hall; simpl; split_and!; try done.
    intros _. exists bytes. split_and!; [done..|].
    rewrite lookup_insert_eq. simpl. unfold write_over.
    rewrite (take_ge bytes) by done. by rewrite take_app_length.
  - split_and!; try done. by rewrite Hsame.
Qed.

End GobMore.

Section ResumeMore.
Import Root.

Lemma resume_omap targets statuses :
  resume targets statuses
  = (omap (resumed targets) statuses, omap (seeded targets) statuses).
Proof.
  induction statuses as [|status statuses IH]; simpl; [done|].
  rewrite scanTargets_spec, IH. unfold seeded, resumed.
  destruct (target_of targets status) as [t|]; [|done].
  by destruct (in_flight status).
Qed.

Lemma omap_step {A B} (f : A -> option B) x l :
  omap f (x :: l) = match f x with Some y => y :: omap f l | None => omap f l end.
Proof. done. Qed.

Lemma seeded_again targets status s' :
  seeded targets status = Some s' ->
  seeded targets s' = Some s' /\ resumed targets s' = resumed targets status.
Proof.
  unfold seeded, resumed.
  destruct (target_of targets status) as [t|] eqn:Ht; [|done].
  destruct (in_flight status) eqn:Hf; intros [= <-].
  - assert (Ht' : target_of targets (set_Cause status TargetResumed) = Some t) by done.
    by rewrite Ht'.
  - by rewrite Ht, Hf.
Qed.

Lemma seeded_None targets status :
  seeded targets status = None -> resumed targets status = None.
Proof.
  unfold seeded, resumed. by destruct (target_of targets status).
Qed.

(** X21.  Resuming is idempotent: a session made of the statuses seeded at
    startup resumes to the same requests and the same seeded statuses as
    the session they came from. *)
Theorem resume_idempotent targets statuses :
  resume targets (resume targets statuses).2 = resume targets statuses.
Proof.
  rewrite !resume_omap. simpl.
  induction statuses as [|status statuses IH]; [done|].
  injection IH as IH1 IH2.
  rewrite !(omap_step _ status).
  destruct (seeded targets status) as [s'|] eqn:Hs.
  - destruct (seeded_again _ _ _ Hs) as [Hs' Hr'].
    rewrite !(omap_step _ s'), Hs', Hr', IH1, IH2. done.
  - rewrite (seeded_None _ _ Hs), IH1, IH2. done.
Qed.

(** X22.  After the resume loop no seeded status is [started] or
    [pending]; the requests are, in order, those of the seeded statuses
    whose cause is [resumed]; and every request names a target of the
    configuration and carries the tree of the first target with that id. *)
Theorem resume_consistent targets statuses :
  Forall (fun status => Status_Cause status <> TargetStarted
                        /\ Status_Cause status <> TargetPending)
         (resume targets statuses).2
  /\ map Req_TargetId (resume targets statuses).1
     = map Status_TargetId
         (filter (fun status => Status_Cause status = TargetResumed)
                 (resume targets statuses).2)
  /\ Forall (fun r => exists n t,
                        list_find (fun t => Target_Id t = Req_TargetId r) targets
                        = Some (n, t)
                        /\ Req_Tree r = Target_Tree t)
            (resume targets statuses).1.
Proof.
  rewrite resume_omap. simpl. split_and!.
  - apply Forall_forall. intros s' (status & _ & Hs)%list_elem_of_omap.
    unfold seeded in Hs. destruct (target_of targets status); [|done].
    destruct (in_flight status) eqn:Hf; injection Hs as <-; [done|].
    unfold in_flight in Hf. repeat case_bool_decide; done.
  - induction statuses as [|status statuses IH]; [done|].
    rewrite !omap_step. unfold seeded at 1, resumed at 1.
    destruct (target_of targets status) as [t|]; [|done].
    destruct (in_flight status) eqn:Hf.
    + rewrite filter_cons_True by done. simpl. by rewrite IH.
    + rewrite filter_cons_False; [done|].
      unfold in_flight in Hf. repeat case_bool_decide; done.
  - apply Forall_forall. intros r (status & _ & Hr)%list_elem_of_omap.
    unfold resumed, target_of in Hr.
    destruct (list_find _ targets) as [[n t]|] eqn:Hfind; [|done]. simpl in Hr.
    destruct (in_flight status); [|done]. injection Hr as <-. simpl.
    by exists n, t.
Qed.

End ResumeMore.

(** ** More on [FinalizeConfig] *)

Section ConfigMore.
Context `{ConfigEnv}.
Import Cfg.

Ltac unpack H :=
  repeat (cbv zeta in H;
          match type of H with
          | mbind _ _ = Ok _ =>
              let a := fresh "a" in
              let Ha := fresh "Ha" in
              apply bind_Ok in H as (a & Ha & H)
          end).

Lemma mapM_result_Forall2 {A B} (f : A -> result B) l l' :
  mapM_result f l = Ok l' -> Forall2 (fun a b => f a = Ok b) l l'.
Proof.
  revert l'. induction l as [|a l IH]; intros l'; simpl.
  - intros [= <-]. constructor.
  - intros (b & Hb & Hrest)%bind_Ok. apply bind_Ok in Hrest as (bs & Hbs & [= <-]).
    constructor; auto.
Qed.

Lemma Forall2_map_eq {A B C} (R : A -> B -> Prop) (g : A -> C) (h : B -> C) l l' :
  (forall a b, R a b -> h b = g a) -> Forall2 R l l' -> map h l' = map g l.
Proof. intros HR. induction 1; simpl; [done|]. f_equal; auto. Qed.

(** The successful passes of [FinalizeConfig], one after the other. *)
Lemma FinalizeConfig_passes fuel all c all' c' :
  FinalizeConfig fuel all c = Ok (all', c') ->
  exists all1 all2 all3 ids parsed,
    finalizeTargets c ∅ all = Ok all1
    /\ mapM_result finalizeHandlers all1 = Ok all2
    /\ mapM_result (linkDownstream all2) all2 = Ok all3
    /\ uniqueIds 0 all3 ∅ = Ok ids
    /\ mapM_result (buildTree fuel all3) all3 = Ok all'
    /\ mapM_result (autoStart all' ids) (AutoStartTarget c) = Ok (startTarget c')
    /\ ParseDuration (if bool_decide (Cooldown (Global c) = "")
                      then DefaultCooldown else Cooldown (Global c)) = Some parsed
    /\ c' = mkConfig (Session_File c)
              (mkGlobalConfig (if bool_decide (Cooldown (Global c) = "")
                               then DefaultCooldown else Cooldown (Global c))
                              (Global_Exclude (Global c)) parsed)
              (Config_Target c) (Template c) (AutoStartTarget c) (startTarget c').
Proof.
  unfold FinalizeConfig. intros Hfin. unpack Hfin. injection Hfin as <- <-.
  match goal with
  | Hp : from_option (ParseDuration _) _ = Ok _ |- _ => apply from_option_Ok in Hp
  end.
  eexists _, _, _, _, _. split_and!; try eassumption. done.
Qed.

(** What the later passes keep of a target. *)
Lemma finalizeHandlers_keeps t t' :
  finalizeHandlers t = Ok t' ->
  Target_Id t' = Target_Id t /\ Target_Label t' = Target_Label t
  /\ Target_Upstream t' = Target_Upstream t /\ Target_Root t' = Target_Root t
  /\ Target_Include t' = Target_Include t /\ Target_Exclude t' = Target_Exclude t
  /\ Target_Debounce t' = Target_Debounce t /\ Target_debounce t' = Target_debounce t.
Proof. unfold finalizeHandlers. intros Hf. unpack Hf. by injection Hf as <-. Qed.

Lemma linkDownstream_keeps all t t' :
  linkDownstream all t = Ok t' ->
  t' = set_Downstream t (downstreamOf all t)
  /\ (Target_Handler t <> [] \/ downstreamOf all t <> []).
Proof.
  unfold linkDownstream. intros Hl. unpack Hl. injection Hl as <-. split; [done|].
  apply fail_if_Ok, andb_false_iff in Ha as [Ha|Ha];
    apply bool_decide_eq_false in Ha.
  - left. by destruct (Target_Handler t).
  - right. by destruct (downstreamOf all t).
Qed.

Lemma buildTree_keeps fuel all t t' :
  buildTree fuel all t = Ok t' ->
  exists below, VisitDownstream fuel all (Target_Downstream t) = Ok below
                /\ t' = set_Tree t (treeItem t :: below).
Proof.
  unfold buildTree. intros Hb. unpack Hb. injection Hb as <-. by eexists.
Qed.

Lemma finalizeTarget_label c uniqueLabel t t' uniqueLabel' :
  finalizeTarget c uniqueLabel t = Ok (t', uniqueLabel') ->
  Target_Label t' <> "" /\ Target_Id t' <> ""
  /\ (Target_Label t' ∉ uniqueLabel)
  /\ uniqueLabel' = {[ Target_Label t' ]} ∪ uniqueLabel.
Proof.
  unfold finalizeTarget. intros Hfin. unpack Hfin.
  injection Hfin as <- <-. simpl.
  repeat match goal with
         | Hf : fail_if (bool_decide _) _ = Ok _ |- _ =>
             apply fail_if_Ok, bool_decide_eq_false in Hf
         end.
  split_and!; try done.
  match goal with
  | |- context [bool_decide (?id = "")] =>
      destruct (bool_decide (id = "")) eqn:Hid
  end.
  - simpl. discriminate.
  - by apply bool_decide_eq_false in Hid.
Qed.

Lemma finalizeTargets_labels c uniqueLabel all all' :
  finalizeTargets c uniqueLabel all = Ok all' ->
  NoDup (map Target_Label all')
  /\ Forall (fun t => (Target_Label t ∉ uniqueLabel)
                      /\ Target_Label t <> "" /\ Target_Id t <> "") all'.
Proof.
  revert uniqueLabel all'. induction all as [|t all IH]; intros uniqueLabel all'; simpl.
  - intros [= <-]. split; constructor.
  - intros Hfin. unpack Hfin. destruct a as [t' uniqueLabel'].
    unpack Hfin. injection Hfin as <-.
    destruct (finalizeTarget_label _ _ _ _ _ Ha) as (Hl & Hi & Hnew & ->).
    destruct (IH _ _ Ha0) as [Hnd Hall]. split.
    + simpl. constructor; [|done].
      intros (t'' & Heq & Hin)%list_elem_of_fmap.
      rewrite Forall_forall in Hall. destruct (Hall t'' Hin) as [Hnot _].
      apply Hnot. rewrite <- Heq. apply elem_of_union. left.
      by apply elem_of_singleton.
    + constructor; [done|]. eapply Forall_impl; [exact Hall|].
      intros t'' (Hnot & ? & ?). split_and!; [|done..].
      intros Hin. apply Hnot, elem_of_union. by right.
Qed.

Lemma uniqueIds_spec n all seen ids :
  uniqueIds n all seen = Ok ids ->
  NoDup (map Target_Id all)
  /\ (forall id k, ids !! id = Some k ->
        seen !! id = Some k
        \/ exists t, n <= k /\ all !! (k - n) = Some t /\ Target_Id t = id)
  /\ (forall id, is_Some (seen !! id) -> is_Some (ids !! id))
  /\ (forall t, t ∈ all -> seen !! Target_Id t = None /\ is_Some (ids !! Target_Id t)).
Proof.
  revert n seen. induction all as [|t all IH]; intros n seen; simpl.
  - intros [= <-]. split_and!; [constructor|by left|done|].
    by intros t ?%elem_of_nil.
  - intros Hu. unpack Hu.
    apply fail_if_Ok, bool_decide_eq_false in Ha.
    assert (Hfresh : seen !! Target_Id t = None).
    { destruct (seen !! Target_Id t) eqn:Hs; [|done]. exfalso. apply Ha. by eexists. }
    destruct (IH _ _ Hu) as (Hnd & Hids & Hkeep & Hall). split_and!.
    + constructor; [|done].
      intros (t' & Heq & Hin)%list_elem_of_fmap.
      destruct (Hall t' Hin) as [Hnone _]. rewrite <- Heq in Hnone.
      by rewrite lookup_insert_eq in Hnone.
    + intros id k Hk. destruct (Hids id k Hk) as [Hseen|(t' & Hle & Ht' & Hid)].
      * rewrite lookup_insert in Hseen. case_decide as Hd.
        -- injection Hseen as <-. right. exists t. split_and!; [lia| |done].
           by rewrite Nat.sub_diag.
        -- by left.
      * right. exists t'. split_and!; [lia| |done].
        replace (k - n) with (S (k - S n)) by lia. done.
    + intros id Hid. apply Hkeep. rewrite lookup_insert. case_decide; [by eexists|done].
    + intros t' [->|Hin]%elem_of_cons.
      * split; [done|]. apply Hkeep. rewrite lookup_insert_eq. by eexists.
      * destruct (Hall t' Hin) as [Hnone Hsome]. split; [|done].
        rewrite lookup_insert in Hnone. by case_decide.
Qed.

(** The labels, ids and upstream lists after the first pass are those of
    the result. *)
Lemma FinalizeConfig_idents all1 all2 all3 all' fuel :
  mapM_result finalizeHandlers all1 = Ok all2 ->
  mapM_result (linkDownstream all2) all2 = Ok all3 ->
  mapM_result (buildTree fuel all3) all3 = Ok all' ->
  map Target_Label all' = map Target_Label all1
  /\ map Target_Id all' = map Target_Id all3
  /\ map Target_Id all3 = map Target_Id all1.
Proof.
  intros H2%mapM_result_Forall2 H3%mapM_result_Forall2 H4%mapM_result_Forall2.
  assert (Hl2 : map Target_Label all2 = map Target_Label all1
                /\ map Target_Id all2 = map Target_Id all1).
  { split; eapply Forall2_map_eq; try exact H2;
      intros a b Hab; by destruct (finalizeHandlers_keeps _ _ Hab) as (? & ? & _). }
  assert (Hl3 : map Target_Label all3 = map Target_Label all2
                /\ map Target_Id all3 = map Target_Id all2).
  { split; eapply Forall2_map_eq; try exact H3;
      intros a b Hab; by destruct (linkDownstream_keeps _ _ _ Hab) as [-> _]. }
  assert (Hl4 : map Target_Label all' = map Target_Label all3
                /\ map Target_Id all' = map Target_Id all3).
  { split; eapply Forall2_map_eq; try exact H4;
      intros a b Hab; by destruct (buildTree_keeps _ _ _ _ Hab) as (below & _ & ->). }
  destruct Hl2 as [Hl2 Hi2], Hl3 as [Hl3 Hi3], Hl4 as [Hl4 Hi4].
  split_and!; congruence.
Qed.

(** X23.  After a successful [FinalizeConfig] there are as many targets as
    before, no two of them share a label or an id, and no label or id is
    empty (a missing id has been generated from label and root). *)
Theorem FinalizeConfig_unique fuel all c all' c' :
  FinalizeConfig fuel all c = Ok (all', c') ->
  length all' = length all
  /\ NoDup (map Target_Label all')
  /\ NoDup (map Target_Id all')
  /\ Forall (fun t => Target_Label t <> "" /\ Target_Id t <> "") all'.
Proof.
  intros (all1 & all2 & all3 & ids & parsed & H1 & H2 & H3 & Hids & H4 & _)
    %FinalizeConfig_passes.
  destruct (FinalizeConfig_idents _ _ _ _ _ H2 H3 H4) as (Hl & Hi & Hi1).
  destruct (finalizeTargets_labels _ _ _ _ H1) as [Hnd Hall].
  destruct (uniqueIds_spec _ _ _ _ Hids) as (Hndi & _).
  split_and!.
  - assert (Hlen1 : length all1 = length all).
    { clear -H1. revert H1. generalize (∅ : gset string) as U. revert all1.
      induction all as [|t all IH]; intros all1 U; simpl.
      - by intros [= <-].
      - intros Hfin. unpack Hfin. destruct a as [t' U']. unpack Hfin.
        injection Hfin as <-. simpl. f_equal. by eapply IH. }
    rewrite <- Hlen1, <- (length_map Target_Label all'), Hl. by rewrite length_map.
  - by rewrite Hl.
  - by rewrite Hi.
  - apply Forall_forall. intros t Ht.
    assert (Hlab : Target_Label t ∈ map Target_Label all1).
    { rewrite <- Hl. apply list_elem_of_fmap. by exists t. }
    assert (Hid : Target_Id t ∈ map Target_Id all1).
    { rewrite <- Hi1, <- Hi. apply list_elem_of_fmap. by exists t. }
    apply list_elem_of_fmap in Hlab as (t1 & -> & Ht1).
    apply list_elem_of_fmap in Hid as (t1' & -> & Ht1').
    rewrite Forall_forall in Hall.
    destruct (Hall t1 Ht1) as (_ & ? & _), (Hall t1' Ht1') as (_ & _ & ?). done.
Qed.

Lemma VisitDownstream_cons fuel all d rest r :
  VisitDownstream (S fuel) all (d :: rest) = Ok r ->
  exists t below others,
    all !! d = Some t
    /\ VisitDownstream fuel all (Target_Downstream t) = Ok below
    /\ VisitDownstream fuel all rest = Ok others
    /\ r = treeItem t :: below ++ others.
Proof.
  simpl. destruct (all !! d) as [t|]; [|done]. intros Hv. unpack Hv.
  injection Hv as <-. by eexists _, _, _.
Qed.

Lemma VisitDownstream_mono fuel fuel' all ds r :
  fuel <= fuel' -> VisitDownstream fuel all ds = Ok r ->
  VisitDownstream fuel' all ds = Ok r.
Proof.
  revert fuel' ds r. induction fuel as [|fuel IH]; intros fuel' ds r Hle; [done|].
  destruct fuel' as [|fuel']; [lia|]. destruct ds as [|d rest]; [done|].
  intros (t & below & others & Ht & Hb & Ho & ->)%VisitDownstream_cons.
  simpl. rewrite Ht.
  assert (Hle' : fuel <= fuel') by lia.
  rewrite (IH fuel' _ below Hle' Hb). simpl.
  by rewrite (IH fuel' _ others Hle' Ho).
Qed.

Lemma VisitDownstream_det fuel1 fuel2 all ds r1 r2 :
  VisitDownstream fuel1 all ds = Ok r1 -> VisitDownstream fuel2 all ds = Ok r2 ->
  r1 = r2.
Proof.
  intros H1 H2.
  apply (VisitDownstream_mono _ (Nat.max fuel1 fuel2)) in H1; [|lia].
  apply (VisitDownstream_mono _ (Nat.max fuel1 fuel2)) in H2; [|lia].
  congruence.
Qed.

Lemma VisitDownstream_no_error fuel all ds msg :
  Forall (fun t => Forall (fun d => d < length all) (Target_Downstream t)) all ->
  Forall (fun d => d < length all) ds ->
  VisitDownstream fuel all ds <> Err msg.
Proof.
  intros Hall. revert ds. induction fuel as [|fuel IH]; intros ds Hds; [done|].
  destruct ds as [|d rest]; [done|]. simpl.
  apply Forall_cons in Hds as [Hd Hrest].
  destruct (lookup_lt_is_Some_2 all d Hd) as [t Ht]. rewrite Ht.
  assert (Hdown : Forall (fun d => d < length all) (Target_Downstream t)).
  { rewrite Forall_forall in Hall. apply Hall. by eapply list_elem_of_lookup_2. }
  pose proof (IH _ Hdown) as Hb. pose proof (IH _ Hrest) as Ho.
  destruct (VisitDownstream fuel all (Target_Downstream t)) as [below|m|]; simpl;
    [|congruence|done].
  destruct (VisitDownstream fuel all rest) as [others|m|]; simpl; [done|congruence|done].
Qed.

(** X24.  [VisitDownstream] does not return when the [Downstream] pointers
    it follows lead into a cycle: whatever depth of recursion is allowed, no
    result and no error comes back.  (The pointers [FinalizeConfig] sets
    never dangle, so the only way out is exhaustion.) *)
Theorem VisitDownstream_cycle (cyc : nat -> Prop) all ds fuel :
  (forall c, cyc c -> exists t c', all !! c = Some t
                                   /\ c' ∈ Target_Downstream t /\ cyc c') ->
  Forall (fun t => Forall (fun d => d < length all) (Target_Downstream t)) all ->
  Forall (fun d => d < length all) ds ->
  (exists d, d ∈ ds /\ cyc d) ->
  VisitDownstream fuel all ds = OutOfFuel.
Proof.
  intros Hcyc Hall Hds Hin.
  assert (Hnot : forall fuel ds r, (exists d, d ∈ ds /\ cyc d) ->
                                   VisitDownstream fuel all ds <> Ok r).
  { clear fuel ds Hds Hin. intros fuel.
    induction fuel as [|fuel IH]; intros ds r (d & Hd & Hc); [done|].
    destruct ds as [|d0 rest]; [by apply elem_of_nil in Hd|].
    intros (t & below & others & Ht & Hb & Ho & _)%VisitDownstream_cons.
    apply elem_of_cons in Hd as [->|Hd].
    - destruct (Hcyc d0 Hc) as (t' & c' & Ht' & Hc' & Hcc).
      rewrite Ht in Ht'. injection Ht' as <-.
      eapply IH; [|exact Hb]. by exists c'.
    - eapply IH; [|exact Ho]. by exists d. }
  pose proof (Hnot fuel ds) as Hok.
  pose proof (fun msg => VisitDownstream_no_error fuel all ds msg Hall Hds) as Herr.
  destruct (VisitDownstream fuel all ds) as [r|msg|]; [|by destruct (Herr msg)|done].
  by destruct (Hok r Hin).
Qed.

(** The trees the last pass builds, by position. *)
Lemma buildTree_lookup fuel all3 all' o t3 :
  mapM_result (buildTree fuel all3) all3 = Ok all' ->
  all3 !! o = Some t3 ->
  exists below,
    VisitDownstream fuel all3 (Target_Downstream t3) = Ok below
    /\ all' !! o = Some (set_Tree t3 (treeItem t3 :: below)).
Proof.
  intros H4%mapM_result_Forall2 Ho.
  destruct (Forall2_lookup_l _ _ _ _ _ H4 Ho) as (t4 & Ho' & Hb).
  apply buildTree_keeps in Hb as (below & Hv & ->). by exists below.
Qed.

Lemma VisitDownstream_trees fuel0 fuel all3 all' ds r :
  mapM_result (buildTree fuel0 all3) all3 = Ok all' ->
  VisitDownstream fuel all3 ds = Ok r ->
  r = concat (omap (fun o => Target_Tree <$> all' !! o) ds).
Proof.
  intros H4. revert ds r. induction fuel as [|fuel IH]; intros ds r; [done|].
  destruct ds as [|d rest]; [by intros [= <-]|].
  intros (t & below & others & Ht & Hb & Ho & ->)%VisitDownstream_cons.
  destruct (buildTree_lookup _ _ _ _ _ H4 Ht) as (below0 & Hb0 & Ht4).
  rewrite omap_step, Ht4. simpl.
  rewrite (VisitDownstream_det _ _ _ _ _ _ Hb0 Hb).
  by rewrite <- (IH _ _ Ho).
Qed.

(** X25.  After a successful [FinalizeConfig] the [Tree] of every target
    is the target's own item followed by the [Tree]s of its direct
    downstream targets, one after the other in [Downstream] order: trees
    compose, so a tree lists the target and then everything downstream of
    it, depth first. *)
Theorem FinalizeConfig_tree fuel all c all' c' :
  FinalizeConfig fuel all c = Ok (all', c') ->
  Forall (fun t =>
            Target_Tree t
            = treeItem t
              :: concat (omap (fun o => Target_Tree <$> all' !! o)
                              (Target_Downstream t))
            /\ Forall (fun o => is_Some (all' !! o)) (Target_Downstream t))
         all'.
Proof.
  intros (all1 & all2 & all3 & ids & parsed & H1 & H2 & H3 & Hids & H4 & _)
    %FinalizeConfig_passes.
  apply Forall_forall. intros t4 Ht4.
  apply list_elem_of_lookup in Ht4 as [o Ho].
  pose proof (mapM_result_Forall2 _ _ _ H4) as HF.
  destruct (Forall2_lookup_r _ _ _ _ _ HF Ho) as (t3 & Ho3 & _).
  destruct (buildTree_lookup _ _ _ _ _ H4 Ho3) as (below & Hv & Ho').
  rewrite Ho in Ho'. injection Ho' as ->. simpl. split.
  - f_equal. by eapply VisitDownstream_trees.
  - clear -Hv H4 HF. revert below Hv.
    generalize (Target_Downstream t3) as ds. generalize fuel at 1 as f.
    induction f as [|f IH]; intros ds below; [done|].
    destruct ds as [|d rest]; [constructor|].
    intros (t & b & others & Ht & Hb & Hothers & ->)%VisitDownstream_cons.
    constructor; [|by eapply IH].
    destruct (Forall2_lookup_l _ _ _ _ _ HF Ht) as (t' & -> & _). by eexists.
Qed.

Lemma upstream_positions T (x : nat) ups o :
  o ∈ flat_map (fun id : string => if bool_decide (id = T) then [x] else []) ups
  <-> o = x /\ T ∈ ups.
Proof.
  induction ups as [|id ups IH]; simpl.
  - rewrite !elem_of_nil. tauto.
  - rewrite elem_of_app, IH, elem_of_cons. case_bool_decide as Hid.
    + rewrite list_elem_of_singleton. subst. tauto.
    + rewrite elem_of_nil. split; [tauto|]. intros [-> [->|?]]; tauto.
Qed.

Lemma downstreamOf_from T (g : nat -> nat) all o :
  o ∈ concat (imap (fun i other =>
                      if bool_decide (Target_Id other = T) then []
                      else flat_map (fun id : string =>
                                       if bool_decide (id = T) then [g i] else [])
                                    (Target_Upstream other))
                   all)
  <-> exists i other, all !! i = Some other /\ o = g i
                      /\ Target_Id other <> T /\ T ∈ Target_Upstream other.
Proof.
  revert g. induction all as [|t all IH]; intros g.
  - simpl. rewrite elem_of_nil. split; [done|]. by intros (i & other & ? & _).
  - rewrite imap_cons. simpl. rewrite elem_of_app.
    rewrite (IH (fun i => g (S i))). split.
    + intros [Hhere|(i & other & Hi & -> & Hne & Hup)].
      * case_bool_decide as Hid; [by apply elem_of_nil in Hhere|].
        apply upstream_positions in Hhere as [-> Hup]. by exists 0, t.
      * by exists (S i), other.
    + intros ([|i] & other & Hi & -> & Hne & Hup); simpl in Hi.
      * injection Hi as <-. left. rewrite bool_decide_eq_false_2 by done.
        by apply upstream_positions.
      * right. by exists i, other.
Qed.

Lemma downstreamOf_elem all t o :
  o ∈ downstreamOf all t
  <-> exists other, all !! o = Some other /\ Target_Id other <> Target_Id t
                    /\ Target_Id t ∈ Target_Upstream other.
Proof.
  unfold downstreamOf.
  rewrite (downstreamOf_from (Target_Id t) (fun i => i)). split.
  - intros (i & other & Hi & -> & ? & ?). by exists other.
  - intros (other & Hi & ? & ?). by exists o, other.
Qed.

(** A target of the result and the target it was after the second pass. *)
Lemma linked_lookup fuel all2 all3 all' o :
  mapM_result (linkDownstream all2) all2 = Ok all3 ->
  mapM_result (buildTree fuel all3) all3 = Ok all' ->
  (forall t4, all' !! o = Some t4 ->
     exists t2 tree,
       all2 !! o = Some t2
       /\ (Target_Handler t2 <> [] \/ downstreamOf all2 t2 <> [])
       /\ t4 = set_Tree (set_Downstream t2 (downstreamOf all2 t2)) tree)
  /\ (forall t2, all2 !! o = Some t2 ->
        exists tree,
          all' !! o = Some (set_Tree (set_Downstream t2 (downstreamOf all2 t2)) tree)).
Proof.
  intros H3%mapM_result_Forall2 H4%mapM_result_Forall2. split.
  - intros t4 Ho.
    destruct (Forall2_lookup_r _ _ _ _ _ H4 Ho) as (t3 & Ho3 & Hb).
    destruct (Forall2_lookup_r _ _ _ _ _ H3 Ho3) as (t2 & Ho2 & Hl).
    apply linkDownstream_keeps in Hl as [-> Hrule].
    apply buildTree_keeps in Hb as (below & _ & ->). by eexists _, _.
  - intros t2 Ho2.
    destruct (Forall2_lookup_l _ _ _ _ _ H3 Ho2) as (t3 & Ho3 & Hl).
    destruct (Forall2_lookup_l _ _ _ _ _ H4 Ho3) as (t4 & Ho4 & Hb).
    apply linkDownstream_keeps in Hl as [-> Hrule].
    apply buildTree_keeps in Hb as (below & _ & ->). by eexists.
Qed.

(** X26.  After a successful [FinalizeConfig] the [Downstream] of a target
    points at exactly the targets with another id that name its id in their
    [Upstream] list, and every target has a handler or a downstream
    target. *)
Theorem FinalizeConfig_downstream fuel all c all' c' :
  FinalizeConfig fuel all c = Ok (all', c') ->
  Forall (fun t =>
            (forall o, o ∈ Target_Downstream t
                       <-> exists other, all' !! o = Some other
                                         /\ Target_Id other <> Target_Id t
                                         /\ Target_Id t ∈ Target_Upstream other)
            /\ (Target_Handler t <> [] \/ Target_Downstream t <> []))
         all'.
Proof.
  intros (all1 & all2 & all3 & ids & parsed & H1 & H2 & H3 & Hids & H4 & _)
    %FinalizeConfig_passes.
  apply Forall_forall. intros t4 Ht4.
  apply list_elem_of_lookup in Ht4 as [n Hn].
  destruct (linked_lookup fuel all2 all3 all' n H3 H4) as [Hback _].
  destruct (Hback t4 Hn) as (t2 & tree & Hn2 & Hrule & ->). simpl.
  split; [|done]. intros o. rewrite downstreamOf_elem.
  destruct (linked_lookup fuel all2 all3 all' o H3 H4) as [Hb Hf]. split.
  - intros (other & Ho & Hne & Hup). destruct (Hf other Ho) as [tree' Ho'].
    eexists. split; [exact Ho'|]. done.
  - intros (other4 & Ho & Hne & Hup).
    destruct (Hb other4 Ho) as (other & tree' & Ho2 & _ & ->).
    by exists other.
Qed.

(** X27.  After a successful [FinalizeConfig] the start targets are
    finalized targets of the configuration, one for every id of
    [AutoStartTarget] and in that order; an id that no target has makes
    [FinalizeConfig] fail. *)
Theorem FinalizeConfig_start fuel all c all' c' :
  FinalizeConfig fuel all c = Ok (all', c') ->
  map Target_Id (startTarget c') = AutoStartTarget c
  /\ Forall (fun t => t ∈ all') (startTarget c')
  /\ Forall (fun id => id ∈ map Target_Id all') (AutoStartTarget c).
Proof.
  intros (all1 & all2 & all3 & ids & parsed & H1 & H2 & H3 & Hids & H4 & Hs & _)
    %FinalizeConfig_passes.
  apply mapM_result_Forall2 in Hs.
  destruct (uniqueIds_spec _ _ _ _ Hids) as (_ & Hfound & _).
  assert (Hone : forall id t, autoStart all' ids id = Ok t ->
                              Target_Id t = id /\ t ∈ all').
  { intros id t Ha. unfold autoStart in Ha. unpack Ha.
    apply from_option_Ok in Ha0, Ha.
    destruct (Hfound id a Ha0) as [Hempty|(t3 & _ & Ht3 & Hid)];
      [by rewrite lookup_empty in Hempty|].
    rewrite Nat.sub_0_r in Ht3.
    destruct (buildTree_lookup _ _ _ _ _ H4 Ht3) as (below & _ & Ht4).
    rewrite Ha in Ht4. injection Ht4 as ->. split; [done|].
    by eapply list_elem_of_lookup_2. }
  split_and!.
  - rewrite <- (map_id (AutoStartTarget c)).
    eapply Forall2_map_eq; [|exact Hs]. intros id t Ha. by apply Hone.
  - clear -Hs Hone. induction Hs as [|id t ids' ts Ha _ IH]; constructor; [|done].
    by destruct (Hone id t Ha).
  - clear -Hs Hone. induction Hs as [|id t ids' ts Ha _ IH]; constructor; [|done].
    destruct (Hone id t Ha) as [<- Hin]. apply list_elem_of_fmap. by exists t.
Qed.








End ConfigMore.

(** X23 on the demo configuration of two targets. *)
Lemma FinalizeConfig_unique_witness :
  exists all' c',
    Cfg.FinalizeConfig (H := Demo.config_env) 5 Demo.chain_targets Demo.chain_config
    = Ok (all', c')
    /\ length all' = length Demo.chain_targets
    /\ NoDup (map Target_Label all')
    /\ NoDup (map Target_Id all')
    /\ Forall (fun t => Target_Label t <> "" /\ Target_Id t <> "") all'.
Proof.
  eexists _, _. split; [vm_compute; reflexivity|].
  eapply (FinalizeConfig_unique (H := Demo.config_env) 5 Demo.chain_targets
            Demo.chain_config).
  vm_compute; reflexivity.
Defined.

(** X24 on two targets that are downstream of each other. *)
Lemma VisitDownstream_cycle_witness :
  Cfg.VisitDownstream 7 Demo.cyclic [1] = OutOfFuel.
Proof.
  apply (VisitDownstream_cycle (fun c => c < 2) Demo.cyclic [1] 7).
  - intros [|[|c]] Hc.
    + eexists _, 1. split; [reflexivity|]. split; [|lia].
      apply list_elem_of_singleton. reflexivity.
    + eexists _, 0. split; [reflexivity|]. split; [|lia].
      apply list_elem_of_singleton. reflexivity.
    + lia.
  - repeat constructor.
  - repeat constructor.
  - exists 1. split; [|lia]. apply list_elem_of_singleton. reflexivity.
Defined.

(** X25 on the demo configuration: the tree of "build" is its own item
    followed by the tree of "test". *)
Lemma FinalizeConfig_tree_witness :
  exists all' c',
    Cfg.FinalizeConfig (H := Demo.config_env) 5 Demo.chain_targets Demo.chain_config
    = Ok (all', c')
    /\ Forall (fun t =>
                 Target_Tree t
                 = Cfg.treeItem t
                   :: concat (omap (fun o => Target_Tree <$> all' !! o)
                                   (Target_Downstream t))
                 /\ Forall (fun o => is_Some (all' !! o)) (Target_Downstream t))
              all'.
Proof.
  eexists _, _. split; [vm_compute; reflexivity|].
  eapply (FinalizeConfig_tree (H := Demo.config_env) 5 Demo.chain_targets
            Demo.chain_config).
  vm_compute; reflexivity.
Defined.

(** X26 on the demo configuration. *)
Lemma FinalizeConfig_downstream_witness :
  exists all' c',
    Cfg.FinalizeConfig (H := Demo.config_env) 5 Demo.chain_targets Demo.chain_config
    = Ok (all', c')
    /\ Forall (fun t =>
                 (forall o, o ∈ Target_Downstream t
                            <-> exists other, all' !! o = Some other
                                              /\ Target_Id other <> Target_Id t
                                              /\ Target_Id t ∈ Target_Upstream other)
                 /\ (Target_Handler t <> [] \/ Target_Downstream t <> []))
              all'.
Proof.
  eexists _, _. split; [vm_compute; reflexivity|].
  eapply (FinalizeConfig_downstream (H := Demo.config_env) 5 Demo.chain_targets
            Demo.chain_config).
  vm_compute; reflexivity.
Defined.

(** X27 on the demo configuration, which starts "test" automatically. *)
Lemma FinalizeConfig_start_witness :
  exists all' c',
    Cfg.FinalizeConfig (H := Demo.config_env) 5 Demo.chain_targets Demo.chain_config
    = Ok (all', c')
    /\ map Target_Id (startTarget c') = AutoStartTarget Demo.chain_config
    /\ Forall (fun t => t ∈ all') (startTarget c')
    /\ Forall (fun id => id ∈ map Target_Id all') (AutoStartTarget Demo.chain_config).
Proof.
  eexists _, _. split; [vm_compute; reflexivity|].
  eapply (FinalizeConfig_start (H := Demo.config_env) 5 Demo.chain_targets
            Demo.chain_config).
  vm_compute; reflexivity.
Defined.


(** ** The command parser and the [run] sub-command *)

Section ShellFacts.
Context `{ShellEnv}.
Import Shell.

(** X29.  [Parse] does not return for a command line on which the word
    splitter yields one or more words and stops at a character other than
    the pipe sign: the line is left as it is, so every turn of the loop
    parses the same line again and appends the same words. *)
Theorem Parse_never_returns s parsed Position c fuel :
  shellwords_Parse s = Some (parsed, Position) ->
  parsed <> [] ->
  (0 <= Position)%Z ->
  String.get (Z.to_nat Position) s = Some c ->
  c <> "|"%char ->
  Parse fuel s = OutOfFuel.
Proof.
  intros Hp Hwords Hpos Hc Hne. unfold Parse. generalize (@nil (list string)) as args.
  induction fuel as [|fuel IH]; intros args; simpl; [done|].
  rewrite Hp.
  rewrite bool_decide_eq_false_2 by (by destruct parsed).
  rewrite bool_decide_eq_false_2 by lia.
  rewrite bool_decide_eq_true_2 by done.
  rewrite Hc. rewrite bool_decide_eq_false_2 by done. apply IH.
Qed.

End ShellFacts.

(** X29 on the line "a ; b". *)
Lemma Parse_never_returns_witness :
  Shell.Parse (H := Demo.shell_env) 5 "a ; b" = OutOfFuel.
Proof.
  apply (Parse_never_returns (H := Demo.shell_env) "a ; b" ["a"] 2%Z ";"%char 5).
  - reflexivity.
  - discriminate.
  - lia.
  - reflexivity.
  - discriminate.
Defined.

Section RunCmdFacts.
Context `{ExecEnv}.
Import Dispatch Run RunCmd.

Lemma exits_calm tr rest : calm tr -> exits (tr ++ rest) = exits rest.
Proof.
  induction 1 as [|e tr (Hf & _ & Ht) _ IH]; [done|].
  simpl. by destruct e.
Qed.

Lemma exits_deletes ids rest : exits (map CtxDelete ids ++ rest) = exits rest.
Proof. induction ids as [|id ids IH]; [done|]. simpl. apply IH. Qed.

(** X30.  The [run] sub-command ends in one of three ways, decided by the
    one run it requests: after a tree pass the process exits with 0; after
    a failure status it exits with 1 (with 0 when the status has an empty
    error text); and when [runTarget] panics neither goroutine receives
    anything, because the panic value is offered on a nil channel, so that
    run makes the process exit with no code at all. *)
Theorem run_exits req :
  match runTree req (Req_Tree req) 0 with
  | (_, Next _) =>
      exits (runTarget req) = Some 0%Z
      /\ passes (runTarget req) = map Tree_Id (Req_Tree req)
  | (_, Return) =>
      exists st, TargetFailCh st ∈ runTarget req
                 /\ exits (runTarget req)
                    = Some (if bool_decide (Status_Err st <> "") then 1%Z else 0%Z)
  | (_, Panicked msg) =>
      exits (runTarget req) = None
      /\ last (runTarget req) = Some (PanicCh msg)
  end.
Proof.
  unfold runTarget.
  pose proof (runTree_shape req (Req_Tree req) 0) as Hshape.
  destruct (runTree req (Req_Tree req) 0) as [tr [calls| |pmsg]].
  - destruct Hshape as (Hc & Hp & _). split.
    + by rewrite exits_calm.
    + rewrite !passes_app, Hp. destruct (deletes_quiet tr) as [_ ->].
      by rewrite !app_nil_r.
  - destruct Hshape as (done & t & rest & _ & Hs).
    destruct Hs as (pre & l & h & c & m & st & -> & Hc & _).
    exists st. split.
    + rewrite !elem_of_app. left. right. rewrite !elem_of_cons. auto.
    + rewrite <- app_assoc. by rewrite exits_calm.
  - split.
    + rewrite exits_calm by done. unfold deletes. by rewrite exits_deletes.
    + by rewrite app_assoc, last_snoc.
Qed.

End RunCmdFacts.
